(** * Map viewer: viewport transform, gesture handling and path tracing

    A shallow embedding of the three script variants of the repository:

    - [Gated]   : src/script.js, first script (touch drawing gated by a
                  candidate timer, pinch zoom on two fingers);
    - [Direct]  : src/script.js, second script (a single finger draws at
                  once, a second finger never interrupts a drawing);
    - [Leaflet] : src/unnamed/part_000 (panning and zooming delegated to the
                  Leaflet map, only the path tracer is local).

    JavaScript numbers are modelled by exact rationals ([Q]) for pixel
    coordinates and scales and by integers ([Z]) for tile indices and
    pointer ids.  The model coincides with the scripts wherever no division
    by zero occurs and no rounding of doubles is involved; [Double] gives
    the stepping loop of [extendPathTo] with the rounding of doubles, where
    its termination depends on it.  Writes to the
    DOM that nothing reads back (marker elements, the transform style, the
    highlighted zoom button, pointer capture, [preventDefault]) are left
    out; [cmdOutput.value] is kept. *)

From Equations Require Import Equations.
From Stdlib Require Import ZArith QArith Qround Qabs Qminmax.
From Stdlib Require Import List Bool String Lia Lqa.
Import ListNotations.

Local Open Scope Z_scope.

(** ** Configuration constants *)

Definition TILE_SIZE : Q := 16.
Definition ZOOM_MIN : Q := 1 # 10.
Definition ZOOM_MAX : Q := 8.
Definition DRAW_MOVE_THRESHOLD : Q := 8.

(** ** Tiles and direction tokens *)

(** [{x, y}] tile objects of [pathTiles] and [lastTile]. *)
Record Tile : Set := mkTile { tx : Z; ty : Z }.

(** The strings pushed on [pathDirections]. *)
Inductive Dir : Set := Right | Left | Down | Up.

Definition Dir_token (d : Dir) : string :=
  match d with
  | Right => "right"
  | Left => "left"
  | Down => "down"
  | Up => "up"
  end.

(** [pathDirections.join(' ')]. *)
Definition join_directions (ds : list Dir) : string :=
  String.concat " " (map Dir_token ds).

(** [dirFromStep(dx, dy)]; [None] is the script's [null]. *)
Definition dirFromStep (dx dy : Z) : option Dir :=
  if (dx =? 1) && (dy =? 0) then Some Right
  else if (dx =? -1) && (dy =? 0) then Some Left
  else if (dx =? 0) && (dy =? 1) then Some Down
  else if (dx =? 0) && (dy =? -1) then Some Up
  else None.

(** [clamp(v, a, b) = Math.max(a, Math.min(b, v))]. *)
Definition clamp (v a b : Q) : Q := Qmax a (Qmin b v).

(** ** The stepping loop of [extendPathTo] *)

(** The variables that the loop reads and writes: the cursor [(cx, cy)] and
    the two arrays it pushes to. *)
Record Cursor : Set := mkCursor {
  cx : Z;
  cy : Z;
  dirs : list Dir;
  tiles : list Tile
}.

(** Loop condition [cx !== targetTile.x || cy !== targetTile.y]. *)
Definition loop_cond (target : Tile) (c : Cursor) : bool :=
  negb (cx c =? tx target) || negb (cy c =? ty target).

(** The step [(stepX, stepY)] chosen by the body. *)
Definition choose_step (target : Tile) (c : Cursor) : Z * Z :=
  let remX := tx target - cx c in
  let remY := ty target - cy c in
  if Z.abs remX >=? Z.abs remY then (Z.sgn remX, 0) else (0, Z.sgn remY).

(** One execution of the loop body. *)
Definition loop_body (target : Tile) (c : Cursor) : Cursor :=
  let '(stepX, stepY) := choose_step target c in
  let cx' := cx c + stepX in
  let cy' := cy c + stepY in
  match dirFromStep stepX stepY with
  | Some d => mkCursor cx' cy' (dirs c ++ [d]) (tiles c ++ [mkTile cx' cy'])
  | None => mkCursor cx' cy' (dirs c) (tiles c)
  end.

(** Remaining Manhattan distance [|targetX - cx| + |targetY - cy|]. *)
Definition manhattan (target : Tile) (c : Cursor) : Z :=
  Z.abs (tx target - cx c) + Z.abs (ty target - cy c).

(** A value together with the equation that names it, so that the loop
    remembers which way its condition went. *)
Definition inspect {A : Type} (a : A) : {b : A | a = b} := exist _ a eq_refl.

(** The [while] loop, by recursion on the remaining distance. *)
Equations? extend_loop (target : Tile) (c : Cursor) : Cursor
  by wf (Z.to_nat (manhattan target c)) lt :=
  extend_loop target c with inspect (loop_cond target c) => {
    | exist _ true Hc => extend_loop target (loop_body target c);
    | exist _ false _ => c }.
Proof.
  unfold loop_cond in Hc. apply orb_true_iff in Hc.
  unfold manhattan, loop_body, choose_step. cbv zeta.
  destruct (Z.abs (tx target - cx c) >=? Z.abs (ty target - cy c)) eqn:E.
  - destruct (dirFromStep (Z.sgn (tx target - cx c)) 0); simpl;
      destruct Hc as [Hc | Hc]; apply negb_true_iff in Hc; lia.
  - destruct (dirFromStep 0 (Z.sgn (ty target - cy c))); simpl;
      destruct Hc as [Hc | Hc]; apply negb_true_iff in Hc; lia.
Qed.

(** The same loop with an explicit iteration budget: [None] when the budget
    is used up while the loop condition still holds.  The second component
    counts the iterations executed. *)
Fixpoint extend_loop_fuel (fuel : nat) (target : Tile) (c : Cursor)
  : option (Cursor * nat) :=
  if loop_cond target c then
    match fuel with
    | O => None
    | S k =>
        match extend_loop_fuel k target (loop_body target c) with
        | Some (c', n) => Some (c', S n)
        | None => None
        end
    end
  else Some (c, O).

(** ** State of the two scripts of script.js *)

Inductive ZoomMode : Set := ModeFit | ModeAbs.

Inductive PointerType : Set := mouse | touch | pen.

Definition PointerType_eqb (a b : PointerType) : bool :=
  match a, b with
  | mouse, mouse | touch, touch | pen, pen => true
  | _, _ => false
  end.

(** A screen or world point [{x, y}]. *)
Record Point : Set := mkPoint { pt_x : Q; pt_y : Q }.

(** The values [{x, y, type}] of the [pointers] map. *)
Record Pointer : Set := mkPointer {
  ptr_x : Q;
  ptr_y : Q;
  ptr_type : PointerType
}.

(** [drawCandidate = {id, x, y, timer}]; the pending timer is the presence
    of the candidate itself, since every path that drops the candidate
    clears its timeout. *)
Record Candidate : Set := mkCandidate {
  cand_id : Z;
  cand_x : Q;
  cand_y : Q
}.

(** What [contentRect] reads from the page: the sizes of the three bars and
    of the window. *)
Record Layout : Set := mkLayout {
  topBarHeight : Q;
  rightBarWidth : Q;
  bottomBarHeight : Q;
  innerWidth : Q;
  innerHeight : Q
}.

Record Rect : Set := mkRect { rect_x : Q; rect_y : Q; rect_w : Q; rect_h : Q }.

(** The fields of a pointer event that the handlers read. *)
Record PointerEvent : Set := mkPointerEvent {
  pointerId : Z;
  pointerType : PointerType;
  clientX : Q;
  clientY : Q;
  button : Z;
  ctrlKey : bool
}.

(** The module-level [let] variables, the [pointers] map in insertion
    order, and the text of the output box. *)
Record State : Set := mkState {
  layout : Layout;
  imgW : Q;
  imgH : Q;
  scale : Q;
  panX : Q;
  panY : Q;
  fitScale : Q;
  zoomMode : ZoomMode;
  pointers : list (Z * Pointer);
  isPanning : bool;
  panLastX : Q;
  panLastY : Q;
  isPinching : bool;
  pinchStartDist : Q;
  pinchStartScale : Q;
  pinchMidWorld : Point;
  isPathDrawing : bool;
  pathTiles : list Tile;
  pathDirections : list Dir;
  lastTile : option Tile;
  drawingPointerId : option Z;
  drawCandidate : option Candidate;
  cmdOutput : string
}.

(** Assignments to a single variable. *)
Definition set_layout (v : Layout) (s : State) : State :=
  mkState v (imgW s) (imgH s) (scale s) (panX s) (panY s) (fitScale s)
    (zoomMode s) (pointers s) (isPanning s) (panLastX s) (panLastY s)
    (isPinching s) (pinchStartDist s) (pinchStartScale s) (pinchMidWorld s)
    (isPathDrawing s) (pathTiles s) (pathDirections s) (lastTile s)
    (drawingPointerId s) (drawCandidate s) (cmdOutput s).
Definition set_imgW (v : Q) (s : State) : State :=
  mkState (layout s) v (imgH s) (scale s) (panX s) (panY s) (fitScale s)
    (zoomMode s) (pointers s) (isPanning s) (panLastX s) (panLastY s)
    (isPinching s) (pinchStartDist s) (pinchStartScale s) (pinchMidWorld s)
    (isPathDrawing s) (pathTiles s) (pathDirections s) (lastTile s)
    (drawingPointerId s) (drawCandidate s) (cmdOutput s).
Definition set_imgH (v : Q) (s : State) : State :=
  mkState (layout s) (imgW s) v (scale s) (panX s) (panY s) (fitScale s)
    (zoomMode s) (pointers s) (isPanning s) (panLastX s) (panLastY s)
    (isPinching s) (pinchStartDist s) (pinchStartScale s) (pinchMidWorld s)
    (isPathDrawing s) (pathTiles s) (pathDirections s) (lastTile s)
    (drawingPointerId s) (drawCandidate s) (cmdOutput s).
Definition set_scale (v : Q) (s : State) : State :=
  mkState (layout s) (imgW s) (imgH s) v (panX s) (panY s) (fitScale s)
    (zoomMode s) (pointers s) (isPanning s) (panLastX s) (panLastY s)
    (isPinching s) (pinchStartDist s) (pinchStartScale s) (pinchMidWorld s)
    (isPathDrawing s) (pathTiles s) (pathDirections s) (lastTile s)
    (drawingPointerId s) (drawCandidate s) (cmdOutput s).
Definition set_panX (v : Q) (s : State) : State :=
  mkState (layout s) (imgW s) (imgH s) (scale s) v (panY s) (fitScale s)
    (zoomMode s) (pointers s) (isPanning s) (panLastX s) (panLastY s)
    (isPinching s) (pinchStartDist s) (pinchStartScale s) (pinchMidWorld s)
    (isPathDrawing s) (pathTiles s) (pathDirections s) (lastTile s)
    (drawingPointerId s) (drawCandidate s) (cmdOutput s).
Definition set_panY (v : Q) (s : State) : State :=
  mkState (layout s) (imgW s) (imgH s) (scale s) (panX s) v (fitScale s)
    (zoomMode s) (pointers s) (isPanning s) (panLastX s) (panLastY s)
    (isPinching s) (pinchStartDist s) (pinchStartScale s) (pinchMidWorld s)
    (isPathDrawing s) (pathTiles s) (pathDirections s) (lastTile s)
    (drawingPointerId s) (drawCandidate s) (cmdOutput s).
Definition set_fitScale (v : Q) (s : State) : State :=
  mkState (layout s) (imgW s) (imgH s) (scale s) (panX s) (panY s) v (zoomMode
    s) (pointers s) (isPanning s) (panLastX s) (panLastY s) (isPinching s)
    (pinchStartDist s) (pinchStartScale s) (pinchMidWorld s) (isPathDrawing s)
    (pathTiles s) (pathDirections s) (lastTile s) (drawingPointerId s)
    (drawCandidate s) (cmdOutput s).
Definition set_zoomMode (v : ZoomMode) (s : State) : State :=
  mkState (layout s) (imgW s) (imgH s) (scale s) (panX s) (panY s) (fitScale
    s) v (pointers s) (isPanning s) (panLastX s) (panLastY s) (isPinching s)
    (pinchStartDist s) (pinchStartScale s) (pinchMidWorld s) (isPathDrawing s)
    (pathTiles s) (pathDirections s) (lastTile s) (drawingPointerId s)
    (drawCandidate s) (cmdOutput s).
Definition set_pointers (v : list (Z * Pointer)) (s : State) : State :=
  mkState (layout s) (imgW s) (imgH s) (scale s) (panX s) (panY s) (fitScale
    s) (zoomMode s) v (isPanning s) (panLastX s) (panLastY s) (isPinching s)
    (pinchStartDist s) (pinchStartScale s) (pinchMidWorld s) (isPathDrawing s)
    (pathTiles s) (pathDirections s) (lastTile s) (drawingPointerId s)
    (drawCandidate s) (cmdOutput s).
Definition set_isPanning (v : bool) (s : State) : State :=
  mkState (layout s) (imgW s) (imgH s) (scale s) (panX s) (panY s) (fitScale
    s) (zoomMode s) (pointers s) v (panLastX s) (panLastY s) (isPinching s)
    (pinchStartDist s) (pinchStartScale s) (pinchMidWorld s) (isPathDrawing s)
    (pathTiles s) (pathDirections s) (lastTile s) (drawingPointerId s)
    (drawCandidate s) (cmdOutput s).
Definition set_panLastX (v : Q) (s : State) : State :=
  mkState (layout s) (imgW s) (imgH s) (scale s) (panX s) (panY s) (fitScale
    s) (zoomMode s) (pointers s) (isPanning s) v (panLastY s) (isPinching s)
    (pinchStartDist s) (pinchStartScale s) (pinchMidWorld s) (isPathDrawing s)
    (pathTiles s) (pathDirections s) (lastTile s) (drawingPointerId s)
    (drawCandidate s) (cmdOutput s).
Definition set_panLastY (v : Q) (s : State) : State :=
  mkState (layout s) (imgW s) (imgH s) (scale s) (panX s) (panY s) (fitScale
    s) (zoomMode s) (pointers s) (isPanning s) (panLastX s) v (isPinching s)
    (pinchStartDist s) (pinchStartScale s) (pinchMidWorld s) (isPathDrawing s)
    (pathTiles s) (pathDirections s) (lastTile s) (drawingPointerId s)
    (drawCandidate s) (cmdOutput s).
Definition set_isPinching (v : bool) (s : State) : State :=
  mkState (layout s) (imgW s) (imgH s) (scale s) (panX s) (panY s) (fitScale
    s) (zoomMode s) (pointers s) (isPanning s) (panLastX s) (panLastY s) v
    (pinchStartDist s) (pinchStartScale s) (pinchMidWorld s) (isPathDrawing s)
    (pathTiles s) (pathDirections s) (lastTile s) (drawingPointerId s)
    (drawCandidate s) (cmdOutput s).
Definition set_pinchStartDist (v : Q) (s : State) : State :=
  mkState (layout s) (imgW s) (imgH s) (scale s) (panX s) (panY s) (fitScale
    s) (zoomMode s) (pointers s) (isPanning s) (panLastX s) (panLastY s)
    (isPinching s) v (pinchStartScale s) (pinchMidWorld s) (isPathDrawing s)
    (pathTiles s) (pathDirections s) (lastTile s) (drawingPointerId s)
    (drawCandidate s) (cmdOutput s).
Definition set_pinchStartScale (v : Q) (s : State) : State :=
  mkState (layout s) (imgW s) (imgH s) (scale s) (panX s) (panY s) (fitScale
    s) (zoomMode s) (pointers s) (isPanning s) (panLastX s) (panLastY s)
    (isPinching s) (pinchStartDist s) v (pinchMidWorld s) (isPathDrawing s)
    (pathTiles s) (pathDirections s) (lastTile s) (drawingPointerId s)
    (drawCandidate s) (cmdOutput s).
Definition set_pinchMidWorld (v : Point) (s : State) : State :=
  mkState (layout s) (imgW s) (imgH s) (scale s) (panX s) (panY s) (fitScale
    s) (zoomMode s) (pointers s) (isPanning s) (panLastX s) (panLastY s)
    (isPinching s) (pinchStartDist s) (pinchStartScale s) v (isPathDrawing s)
    (pathTiles s) (pathDirections s) (lastTile s) (drawingPointerId s)
    (drawCandidate s) (cmdOutput s).
Definition set_isPathDrawing (v : bool) (s : State) : State :=
  mkState (layout s) (imgW s) (imgH s) (scale s) (panX s) (panY s) (fitScale
    s) (zoomMode s) (pointers s) (isPanning s) (panLastX s) (panLastY s)
    (isPinching s) (pinchStartDist s) (pinchStartScale s) (pinchMidWorld s) v
    (pathTiles s) (pathDirections s) (lastTile s) (drawingPointerId s)
    (drawCandidate s) (cmdOutput s).
Definition set_pathTiles (v : list Tile) (s : State) : State :=
  mkState (layout s) (imgW s) (imgH s) (scale s) (panX s) (panY s) (fitScale
    s) (zoomMode s) (pointers s) (isPanning s) (panLastX s) (panLastY s)
    (isPinching s) (pinchStartDist s) (pinchStartScale s) (pinchMidWorld s)
    (isPathDrawing s) v (pathDirections s) (lastTile s) (drawingPointerId s)
    (drawCandidate s) (cmdOutput s).
Definition set_pathDirections (v : list Dir) (s : State) : State :=
  mkState (layout s) (imgW s) (imgH s) (scale s) (panX s) (panY s) (fitScale
    s) (zoomMode s) (pointers s) (isPanning s) (panLastX s) (panLastY s)
    (isPinching s) (pinchStartDist s) (pinchStartScale s) (pinchMidWorld s)
    (isPathDrawing s) (pathTiles s) v (lastTile s) (drawingPointerId s)
    (drawCandidate s) (cmdOutput s).
Definition set_lastTile (v : option Tile) (s : State) : State :=
  mkState (layout s) (imgW s) (imgH s) (scale s) (panX s) (panY s) (fitScale
    s) (zoomMode s) (pointers s) (isPanning s) (panLastX s) (panLastY s)
    (isPinching s) (pinchStartDist s) (pinchStartScale s) (pinchMidWorld s)
    (isPathDrawing s) (pathTiles s) (pathDirections s) v (drawingPointerId s)
    (drawCandidate s) (cmdOutput s).
Definition set_drawingPointerId (v : option Z) (s : State) : State :=
  mkState (layout s) (imgW s) (imgH s) (scale s) (panX s) (panY s) (fitScale
    s) (zoomMode s) (pointers s) (isPanning s) (panLastX s) (panLastY s)
    (isPinching s) (pinchStartDist s) (pinchStartScale s) (pinchMidWorld s)
    (isPathDrawing s) (pathTiles s) (pathDirections s) (lastTile s) v
    (drawCandidate s) (cmdOutput s).
Definition set_drawCandidate (v : option Candidate) (s : State) : State :=
  mkState (layout s) (imgW s) (imgH s) (scale s) (panX s) (panY s) (fitScale
    s) (zoomMode s) (pointers s) (isPanning s) (panLastX s) (panLastY s)
    (isPinching s) (pinchStartDist s) (pinchStartScale s) (pinchMidWorld s)
    (isPathDrawing s) (pathTiles s) (pathDirections s) (lastTile s)
    (drawingPointerId s) v (cmdOutput s).
Definition set_cmdOutput (v : string) (s : State) : State :=
  mkState (layout s) (imgW s) (imgH s) (scale s) (panX s) (panY s) (fitScale
    s) (zoomMode s) (pointers s) (isPanning s) (panLastX s) (panLastY s)
    (isPinching s) (pinchStartDist s) (pinchStartScale s) (pinchMidWorld s)
    (isPathDrawing s) (pathTiles s) (pathDirections s) (lastTile s)
    (drawingPointerId s) (drawCandidate s) v.

Local Open Scope Q_scope.

(** ** Helpers shared by both scripts of script.js

    The two scripts define the functions of this section with the same
    text (the second one computes two unused constants in
    [extendPathTo]). *)

(** The [pointers] map, with [Map]'s insertion order: [set], [has],
    [delete] and [size]. *)
Fixpoint pointers_set {V : Type} (id : Z) (p : V) (m : list (Z * V))
  : list (Z * V) :=
  match m with
  | [] => [(id, p)]
  | (k, v) :: rest =>
      if (k =? id)%Z then (k, p) :: rest else (k, v) :: pointers_set id p rest
  end.

Fixpoint pointers_has {V : Type} (id : Z) (m : list (Z * V)) : bool :=
  match m with
  | [] => false
  | (k, _) :: rest => (k =? id)%Z || pointers_has id rest
  end.

Fixpoint pointers_delete {V : Type} (id : Z) (m : list (Z * V))
  : list (Z * V) :=
  match m with
  | [] => []
  | (k, v) :: rest =>
      if (k =? id)%Z then rest else (k, v) :: pointers_delete id rest
  end.

Definition pointers_size {V : Type} (m : list (Z * V)) : Z :=
  Z.of_nat (List.length m).

(** [a > b] on numbers. *)
Definition Qgtb (a b : Q) : bool :=
  match a ?= b with Gt => true | _ => false end.

Definition contentRect (l : Layout) : Rect :=
  let t := topBarHeight l in
  let r := rightBarWidth l + 8 in
  let b := bottomBarHeight l in
  mkRect 0 t (innerWidth l - r) (innerHeight l - t - b).

Definition computeFitAndCenter (s : State) : State :=
  let rect := contentRect (layout s) in
  let s := set_fitScale (Qmin (rect_w rect / imgW s) (rect_h rect / imgH s)) s in
  let s := set_scale (fitScale s) s in
  let drawnW := imgW s * scale s in
  let drawnH := imgH s * scale s in
  let s := set_panX (rect_x rect + (rect_w rect - drawnW) / 2) s in
  let s := set_panY (rect_y rect + (rect_h rect - drawnH) / 2) s in
  s.

Definition screenToWorld (s : State) (sx sy : Q) : Point :=
  mkPoint ((sx - panX s) / scale s) ((sy - panY s) / scale s).

(** The argument of [setZoom]: the [data-zoom] attribute of the clicked
    button, either ['fit'] or the decimal text of a number (the buttons
    carry ['fit'], ['1'] and ['5']; a text that [Number] does not read as
    a number is not modelled). *)
Inductive ZoomArg : Set := ZoomFit | ZoomTo (q : Q).

Definition setZoom (mode : ZoomArg) (s : State) : State :=
  let rect := contentRect (layout s) in
  let midScreen :=
    mkPoint (rect_x rect + rect_w rect / 2) (rect_y rect + rect_h rect / 2) in
  let midWorld := screenToWorld s (pt_x midScreen) (pt_y midScreen) in
  match mode with
  | ZoomFit =>
      let s := set_zoomMode ModeFit s in
      computeFitAndCenter s
  | ZoomTo q =>
      let s := set_zoomMode ModeAbs s in
      let targetScale := clamp q ZOOM_MIN ZOOM_MAX in
      let s := set_scale targetScale s in
      let s := set_panX (pt_x midScreen - scale s * pt_x midWorld) s in
      let s := set_panY (pt_y midScreen - scale s * pt_y midWorld) s in
      s
  end.

Definition worldToTile (wx wy : Q) : Tile :=
  mkTile (Qfloor (wx / TILE_SIZE)) (Qfloor (wy / TILE_SIZE)).

Definition withinImage (s : State) (wx wy : Q) : bool :=
  Qle_bool 0 wx && Qle_bool 0 wy && Qle_bool wx (imgW s) && Qle_bool wy (imgH s).

Definition clearPath (s : State) : State :=
  let s := set_pathTiles [] s in
  let s := set_pathDirections [] s in
  let s := set_lastTile None s in
  let s := set_cmdOutput EmptyString s in
  s.

Definition extendPathTo (targetTile : Tile) (s : State) : State :=
  match lastTile s with
  | None => s
  | Some last =>
      let c :=
        extend_loop targetTile
          (mkCursor (tx last) (ty last) (pathDirections s) (pathTiles s)) in
      let s := set_pathDirections (dirs c) s in
      let s := set_pathTiles (tiles c) s in
      let s := set_lastTile (Some (mkTile (cx c) (cy c))) s in
      let s := set_cmdOutput (join_directions (pathDirections s)) s in
      s
  end.

Definition startPathAtScreen (sx sy : Q) (s : State) : State :=
  let w := screenToWorld s sx sy in
  if negb (withinImage s (pt_x w) (pt_y w)) then s
  else
    let s := clearPath s in
    let t := worldToTile (pt_x w) (pt_y w) in
    let s := set_lastTile (Some t) s in
    let s := set_pathTiles (pathTiles s ++ [t]) s in
    let s := set_isPathDrawing true s in
    s.

Definition endPath (s : State) : State := set_isPathDrawing false s.

(** [movePathAtScreen(sx, sy, {pointerType, ctrlKey})]. *)
Definition movePathAtScreen (sx sy : Q) (pointerType : PointerType)
    (ctrlKey : bool) (s : State) : State :=
  if negb (isPathDrawing s) then s
  else
    let w := screenToWorld s sx sy in
    if negb (withinImage s (pt_x w) (pt_y w)) then s
    else
      let t := worldToTile (pt_x w) (pt_y w) in
      let s :=
        match lastTile s with
        | None => extendPathTo t s
        | Some last =>
            if negb (tx t =? tx last)%Z || negb (ty t =? ty last)%Z
            then extendPathTo t s
            else s
        end in
      if PointerType_eqb pointerType mouse && negb ctrlKey then endPath s
      else s.

Definition midpoint (a b : Pointer) : Point :=
  mkPoint ((ptr_x a + ptr_x b) / 2) ((ptr_y a + ptr_y b) / 2).

(** [getTwoPointers()]: the first two values of the map; the handlers call
    it only when the map holds two entries or more. *)
Definition getTwoPointers (s : State) : option (Pointer * Pointer) :=
  match pointers s with
  | (_, a) :: (_, b) :: _ => Some (a, b)
  | _ => None
  end.

(** The [resize] listener; the new window and bar sizes come with the
    event. *)
Definition onResize (l : Layout) (s : State) : State :=
  let s := set_layout l s in
  match zoomMode s with
  | ModeFit => computeFitAndCenter s
  | ModeAbs =>
      let rect := contentRect (layout s) in
      let midScreen :=
        mkPoint (rect_x rect + rect_w rect / 2)
                (rect_y rect + rect_h rect / 2) in
      let midWorld := screenToWorld s (pt_x midScreen) (pt_y midScreen) in
      let s := set_panX (pt_x midScreen - scale s * pt_x midWorld) s in
      let s := set_panY (pt_y midScreen - scale s * pt_y midWorld) s in
      s
  end.

(** The variables as the script declares them, before the image loads.
    The text of the output box is the page's, not the script's: it is
    taken to be empty here, and no property is made to rest on it. *)
Definition declared (l : Layout) : State :=
  mkState l 0 0 1 0 0 1 ModeFit [] false 0 0 false 0 1 (mkPoint 0 0)
    false [] [] None None None EmptyString.

(** [initAfterImage()], with the natural size of the loaded image. *)
Definition initAfterImage (naturalWidth naturalHeight : Q) (s : State)
  : State :=
  let s := set_imgW naturalWidth s in
  let s := set_imgH naturalHeight s in
  computeFitAndCenter s.

(** The pinch update of [onPointerMove], the same in both scripts. *)
Definition pinchMove (dist : Pointer -> Pointer -> Q) (s : State) : State :=
  match getTwoPointers s with
  | None => s
  | Some (a, b) =>
      let newDist := dist a b in
      if Qgtb (pinchStartDist s) 0 then
        let factor := newDist / pinchStartDist s in
        let targetScale :=
          clamp (pinchStartScale s * factor) ZOOM_MIN ZOOM_MAX in
        let mid := midpoint a b in
        let s := set_scale targetScale s in
        let s := set_panX (pt_x mid - scale s * pt_x (pinchMidWorld s)) s in
        let s := set_panY (pt_y mid - scale s * pt_y (pinchMidWorld s)) s in
        let s := set_zoomMode ModeAbs s in
        s
      else s
  end.

(** The mouse panning update of [onPointerMove], the same in both
    scripts. *)
Definition panMove (e : PointerEvent) (s : State) : State :=
  let dx := clientX e - panLastX s in
  let dy := clientY e - panLastY s in
  let s := set_panX (panX s + dx) s in
  let s := set_panY (panY s + dy) s in
  let s := set_panLastX (clientX e) s in
  let s := set_panLastY (clientY e) s in
  s.

(** Events delivered to a script of script.js: the three pointer
    listeners ([pointerup], [pointercancel] and [lostpointercapture] share
    one handler), the expiry of the draw timer, a click on a zoom button
    and a resize of the window. *)
Inductive Event : Set :=
| PointerDown (e : PointerEvent)
| PointerMove (e : PointerEvent)
| PointerUp (e : PointerEvent)
| DrawTimer
| ZoomClick (mode : ZoomArg)
| Resize (l : Layout).

(** ** First script of script.js: gated touch drawing *)

Module Gated.
Section Handlers.

(** [Math.hypot], which has no rational model, is a parameter. *)
Variable hypot : Q -> Q -> Q.

Definition dist (a b : Pointer) : Q :=
  let dx := ptr_x a - ptr_x b in
  let dy := ptr_y a - ptr_y b in
  hypot dx dy.

Definition beginTouchDraw (id : Z) (x y : Q) (s : State) : State :=
  if isPathDrawing s then s
  else
    let s := set_drawingPointerId (Some id) s in
    startPathAtScreen x y s.

Definition cancelTouchCandidate (s : State) : State :=
  set_drawCandidate None s.

Definition abortDrawing (clear : bool) (s : State) : State :=
  let s := set_isPathDrawing false s in
  let s := set_drawingPointerId None s in
  if clear then clearPath s else s.

Definition tryStartCandidateIfMoved (e : PointerEvent) (s : State) : State :=
  match drawCandidate s with
  | None => s
  | Some c =>
      if negb (pointerId e =? cand_id c)%Z then s
      else
        let dx := clientX e - cand_x c in
        let dy := clientY e - cand_y c in
        if Qle_bool DRAW_MOVE_THRESHOLD (hypot dx dy)
           && (pointers_size (pointers s) =? 1)%Z
        then
          let s := cancelTouchCandidate s in
          beginTouchDraw (pointerId e) (clientX e) (clientY e) s
        else s
  end.

Definition onPointerDown (e : PointerEvent) (s : State) : State :=
  let s :=
    set_pointers
      (pointers_set (pointerId e)
         (mkPointer (clientX e) (clientY e) (pointerType e)) (pointers s)) s in
  match pointerType e with
  | mouse =>
      if negb (button e =? 0)%Z then s
      else if ctrlKey e then startPathAtScreen (clientX e) (clientY e) s
      else
        let s := set_isPanning true s in
        let s := set_panLastX (clientX e) s in
        let s := set_panLastY (clientY e) s in
        s
  | touch =>
      if (pointers_size (pointers s) =? 2)%Z then
        let s := cancelTouchCandidate s in
        let s := if isPathDrawing s then abortDrawing true s else s in
        let s := set_isPinching true s in
        match getTwoPointers s with
        | None => s
        | Some (a, b) =>
            let s := set_pinchStartDist (dist a b) s in
            let s := set_pinchStartScale (scale s) s in
            let mid := midpoint a b in
            let s :=
              set_pinchMidWorld (screenToWorld s (pt_x mid) (pt_y mid)) s in
            let s := set_zoomMode ModeAbs s in
            s
        end
      else if (pointers_size (pointers s) =? 1)%Z then
        match pointers s with
        | (pid, p) :: _ =>
            let s := cancelTouchCandidate s in
            set_drawCandidate (Some (mkCandidate pid (ptr_x p) (ptr_y p))) s
        | [] => s
        end
      else s
  | pen => s
  end.

(** The callback of the candidate's [setTimeout]; it runs only while the
    candidate that armed it is still pending. *)
Definition onDrawTimer (s : State) : State :=
  match drawCandidate s with
  | None => s
  | Some c =>
      let s :=
        if (pointers_size (pointers s) =? 1)%Z
        then beginTouchDraw (cand_id c) (cand_x c) (cand_y c) s
        else s in
      cancelTouchCandidate s
  end.

Definition onPointerMove (e : PointerEvent) (s : State) : State :=
  if negb (pointers_has (pointerId e) (pointers s)) then s
  else
    let s :=
      set_pointers
        (pointers_set (pointerId e)
           (mkPointer (clientX e) (clientY e) (pointerType e)) (pointers s))
        s in
    if isPinching s && (2 <=? pointers_size (pointers s))%Z then
      pinchMove dist s
    else if isPanning s && PointerType_eqb (pointerType e) mouse then
      panMove e s
    else
      let s := tryStartCandidateIfMoved e s in
      if isPathDrawing s then
        if PointerType_eqb (pointerType e) touch
           && negb (match drawingPointerId s with
                    | Some d => (pointerId e =? d)%Z
                    | None => false
                    end)
        then s
        else
          movePathAtScreen (clientX e) (clientY e) (pointerType e) (ctrlKey e)
            s
      else s.

Definition onPointerUp (e : PointerEvent) (s : State) : State :=
  let s :=
    if pointers_has (pointerId e) (pointers s)
    then set_pointers (pointers_delete (pointerId e) (pointers s)) s
    else s in
  match pointerType e with
  | mouse =>
      let s := set_isPanning false s in
      if isPathDrawing s then endPath s else s
  | touch =>
      let s :=
        match drawCandidate s with
        | Some c =>
            if (pointerId e =? cand_id c)%Z then cancelTouchCandidate s else s
        | None => s
        end in
      let s :=
        if isPathDrawing s
           && (match drawingPointerId s with
               | Some d => (pointerId e =? d)%Z
               | None => false
               end)
        then
          let s := endPath s in
          set_drawingPointerId None s
        else s in
      if (pointers_size (pointers s) <? 2)%Z then set_isPinching false s
      else s
  | pen => s
  end.

Definition step (ev : Event) (s : State) : State :=
  match ev with
  | PointerDown e => onPointerDown e s
  | PointerMove e => onPointerMove e s
  | PointerUp e => onPointerUp e s
  | DrawTimer => onDrawTimer s
  | ZoomClick mode => setZoom mode s
  | Resize l => onResize l s
  end.

(** The state after a sequence of events, oldest first. *)
Definition run (evs : list Event) (s : State) : State :=
  fold_left (fun acc ev => step ev acc) evs s.

End Handlers.
End Gated.

(** ** Second script of script.js: a single finger draws at once *)

Module Direct.
Section Handlers.

(** [Math.hypot], as in the first script. *)
Variable hypot : Q -> Q -> Q.

Definition dist (a b : Pointer) : Q :=
  let dx := ptr_x a - ptr_x b in
  let dy := ptr_y a - ptr_y b in
  hypot dx dy.

Definition onPointerDown (e : PointerEvent) (s : State) : State :=
  let s :=
    set_pointers
      (pointers_set (pointerId e)
         (mkPointer (clientX e) (clientY e) (pointerType e)) (pointers s)) s in
  match pointerType e with
  | mouse =>
      if negb (button e =? 0)%Z then s
      else if ctrlKey e then startPathAtScreen (clientX e) (clientY e) s
      else
        let s := set_isPanning true s in
        let s := set_panLastX (clientX e) s in
        let s := set_panLastY (clientY e) s in
        s
  | touch =>
      if (pointers_size (pointers s) =? 1)%Z then
        match pointers s with
        | (_, p) :: _ => startPathAtScreen (ptr_x p) (ptr_y p) s
        | [] => s
        end
      else if (pointers_size (pointers s) =? 2)%Z then
        if isPathDrawing s then s
        else
          let s := set_isPinching true s in
          match getTwoPointers s with
          | None => s
          | Some (a, b) =>
              let s := set_pinchStartDist (dist a b) s in
              let s := set_pinchStartScale (scale s) s in
              let mid := midpoint a b in
              let s :=
                set_pinchMidWorld (screenToWorld s (pt_x mid) (pt_y mid)) s in
              s
          end
      else s
  | pen => s
  end.

Definition onPointerMove (e : PointerEvent) (s : State) : State :=
  if negb (pointers_has (pointerId e) (pointers s)) then s
  else
    let s :=
      set_pointers
        (pointers_set (pointerId e)
           (mkPointer (clientX e) (clientY e) (pointerType e)) (pointers s))
        s in
    if isPinching s && (2 <=? pointers_size (pointers s))%Z then
      pinchMove dist s
    else if isPanning s && PointerType_eqb (pointerType e) mouse then
      panMove e s
    else if isPathDrawing s then
      movePathAtScreen (clientX e) (clientY e) (pointerType e) (ctrlKey e) s
    else s.

Definition onPointerUp (e : PointerEvent) (s : State) : State :=
  let s :=
    if pointers_has (pointerId e) (pointers s)
    then set_pointers (pointers_delete (pointerId e) (pointers s)) s
    else s in
  match pointerType e with
  | mouse =>
      let s := set_isPanning false s in
      if isPathDrawing s then endPath s else s
  | touch =>
      let s :=
        if (pointers_size (pointers s) <? 2)%Z then set_isPinching false s
        else s in
      if (pointers_size (pointers s) =? 0)%Z && isPathDrawing s
      then endPath s
      else s
  | pen => s
  end.

(** This script arms no timer: [DrawTimer] never occurs and changes
    nothing. *)
Definition step (ev : Event) (s : State) : State :=
  match ev with
  | PointerDown e => onPointerDown e s
  | PointerMove e => onPointerMove e s
  | PointerUp e => onPointerUp e s
  | DrawTimer => s
  | ZoomClick mode => setZoom mode s
  | Resize l => onResize l s
  end.

Definition run (evs : list Event) (s : State) : State :=
  fold_left (fun acc ev => step ev acc) evs s.

End Handlers.
End Direct.

(** ** The Leaflet script (src/unnamed/part_000) *)

Module Leaflet.

Definition IMG_W1 : Q := 7200.
Definition IMG_H1 : Q := 7200.
Definition UPSCALE : Q := 2.
Definition IMG_W2 : Q := IMG_W1 * UPSCALE.
Definition IMG_H2 : Q := IMG_H1 * UPSCALE.
Definition TILE_1X : Q := 16.
Definition TILE_2X : Q := TILE_1X * UPSCALE.

(** The path and interaction variables of the script; the values of its
    [pointers] map are [{type}].  [dragging] is the state of
    [map.dragging], which the script disables while a finger draws. *)
Record State : Set := mkState {
  pathTiles : list Tile;
  pathDirections : list Dir;
  lastTile : option Tile;
  pointers : list (Z * PointerType);
  drawingPointerId : option Z;
  isPathDrawing : bool;
  drawCandidate : option Candidate;
  cmdOutput : string;
  dragging : bool
}.

Definition set_pathTiles (v : list Tile) (s : State) : State :=
  mkState v (pathDirections s) (lastTile s) (pointers s) (drawingPointerId s)
    (isPathDrawing s) (drawCandidate s) (cmdOutput s) (dragging s).
Definition set_pathDirections (v : list Dir) (s : State) : State :=
  mkState (pathTiles s) v (lastTile s) (pointers s) (drawingPointerId s)
    (isPathDrawing s) (drawCandidate s) (cmdOutput s) (dragging s).
Definition set_lastTile (v : option Tile) (s : State) : State :=
  mkState (pathTiles s) (pathDirections s) v (pointers s) (drawingPointerId s)
    (isPathDrawing s) (drawCandidate s) (cmdOutput s) (dragging s).
Definition set_pointers (v : list (Z * PointerType)) (s : State) : State :=
  mkState (pathTiles s) (pathDirections s) (lastTile s) v (drawingPointerId s)
    (isPathDrawing s) (drawCandidate s) (cmdOutput s) (dragging s).
Definition set_drawingPointerId (v : option Z) (s : State) : State :=
  mkState (pathTiles s) (pathDirections s) (lastTile s) (pointers s) v
    (isPathDrawing s) (drawCandidate s) (cmdOutput s) (dragging s).
Definition set_isPathDrawing (v : bool) (s : State) : State :=
  mkState (pathTiles s) (pathDirections s) (lastTile s) (pointers s)
    (drawingPointerId s) v (drawCandidate s) (cmdOutput s) (dragging s).
Definition set_drawCandidate (v : option Candidate) (s : State) : State :=
  mkState (pathTiles s) (pathDirections s) (lastTile s) (pointers s)
    (drawingPointerId s) (isPathDrawing s) v (cmdOutput s) (dragging s).
Definition set_cmdOutput (v : string) (s : State) : State :=
  mkState (pathTiles s) (pathDirections s) (lastTile s) (pointers s)
    (drawingPointerId s) (isPathDrawing s) (drawCandidate s) v (dragging s).
Definition set_dragging (v : bool) (s : State) : State :=
  mkState (pathTiles s) (pathDirections s) (lastTile s) (pointers s)
    (drawingPointerId s) (isPathDrawing s) (drawCandidate s) (cmdOutput s) v.

Definition declared : State :=
  mkState [] [] None [] None false None EmptyString true.

Definition world2xToTile1x (wx2 wy2 : Q) : Tile :=
  mkTile (Qfloor ((wx2 / UPSCALE) / TILE_1X))
         (Qfloor ((wy2 / UPSCALE) / TILE_1X)).

Definition withinImage2x (wx2 wy2 : Q) : bool :=
  Qle_bool 0 wx2 && Qle_bool 0 wy2 && Qle_bool wx2 IMG_W2
  && Qle_bool wy2 IMG_H2.

Definition clearPath (s : State) : State :=
  let s := set_pathTiles [] s in
  let s := set_pathDirections [] s in
  let s := set_lastTile None s in
  let s := set_cmdOutput EmptyString s in
  s.

Definition extendPathTo (targetTile : Tile) (s : State) : State :=
  match lastTile s with
  | None => s
  | Some last =>
      let c :=
        extend_loop targetTile
          (mkCursor (tx last) (ty last) (pathDirections s) (pathTiles s)) in
      let s := set_pathDirections (dirs c) s in
      let s := set_pathTiles (tiles c) s in
      let s := set_lastTile (Some (mkTile (cx c) (cy c))) s in
      let s := set_cmdOutput (join_directions (pathDirections s)) s in
      s
  end.

(** [startPathAtEvent(e)] and [movePathAtEvent(e)] read the event through
    [eventToWorld2x(e)] only, which asks the Leaflet map for the image
    point under the event; that point, [w], is the argument here. *)
Definition startPathAtEvent (w : Point) (s : State) : State :=
  if negb (withinImage2x (pt_x w) (pt_y w)) then s
  else
    let s := clearPath s in
    let t := world2xToTile1x (pt_x w) (pt_y w) in
    let s := set_lastTile (Some t) s in
    let s := set_pathTiles (pathTiles s ++ [t]) s in
    let s := set_isPathDrawing true s in
    s.

Definition movePathAtEvent (w : Point) (s : State) : State :=
  if negb (isPathDrawing s) then s
  else if negb (withinImage2x (pt_x w) (pt_y w)) then s
  else
    let t := world2xToTile1x (pt_x w) (pt_y w) in
    match lastTile s with
    | None => extendPathTo t s
    | Some last =>
        if negb (tx t =? tx last)%Z || negb (ty t =? ty last)%Z
        then extendPathTo t s
        else s
    end.

Definition endPath (s : State) : State :=
  let s := set_isPathDrawing false s in
  set_drawingPointerId None s.

Definition cancelTouchCandidate (s : State) : State :=
  set_drawCandidate None s.

Section Handlers.

Variable hypot : Q -> Q -> Q.

Definition tryStartCandidateIfMoved (e : PointerEvent) (w : Point)
    (s : State) : State :=
  match drawCandidate s with
  | None => s
  | Some c =>
      if negb (pointerId e =? cand_id c)%Z then s
      else
        let dx := clientX e - cand_x c in
        let dy := clientY e - cand_y c in
        if Qle_bool DRAW_MOVE_THRESHOLD (hypot dx dy)
           && (pointers_size (pointers s) =? 1)%Z
        then
          let s := cancelTouchCandidate s in
          let s := set_drawingPointerId (Some (pointerId e)) s in
          let s := startPathAtEvent w s in
          set_dragging false s
        else s
  end.

(** The [pointerdown] listener; [w] is the image point of [e]. *)
Definition onPointerDown (e : PointerEvent) (w : Point) (s : State)
  : State :=
  let s :=
    set_pointers (pointers_set (pointerId e) (pointerType e) (pointers s)) s in
  match pointerType e with
  | mouse =>
      if negb (button e =? 0)%Z then s
      else if ctrlKey e then
        let s := startPathAtEvent w s in
        set_isPathDrawing true s
      else s
  | touch =>
      if (pointers_size (pointers s) =? 2)%Z then
        let s := cancelTouchCandidate s in
        if isPathDrawing s then endPath s else s
      else if (pointers_size (pointers s) =? 1)%Z then
        let s := cancelTouchCandidate s in
        set_drawCandidate
          (Some (mkCandidate (pointerId e) (clientX e) (clientY e))) s
      else s
  | pen => s
  end.

(** The callback of the candidate's [setTimeout]; [w] is the image point,
    at the time the timer fires, of the event that armed it. *)
Definition onDrawTimer (w : Point) (s : State) : State :=
  match drawCandidate s with
  | None => s
  | Some c =>
      let s :=
        if (pointers_size (pointers s) =? 1)%Z then
          let s := set_drawingPointerId (Some (cand_id c)) s in
          let s := startPathAtEvent w s in
          set_dragging false s
        else s in
      cancelTouchCandidate s
  end.

(** The [pointermove] listener. *)
Definition onPointerMove (e : PointerEvent) (w : Point) (s : State)
  : State :=
  if negb (pointers_has (pointerId e) (pointers s)) then s
  else
    match pointerType e with
    | mouse => if isPathDrawing s then movePathAtEvent w s else s
    | touch =>
        let s := tryStartCandidateIfMoved e w s in
        if isPathDrawing s
           && (match drawingPointerId s with
               | Some d => (pointerId e =? d)%Z
               | None => false
               end)
        then movePathAtEvent w s
        else s
    | pen => s
    end.

(** [finishPointer], the listener of [pointerup], [pointercancel] and
    [lostpointercapture]. *)
Definition finishPointer (e : PointerEvent) (s : State) : State :=
  let s :=
    if pointers_has (pointerId e) (pointers s)
    then set_pointers (pointers_delete (pointerId e) (pointers s)) s
    else s in
  match pointerType e with
  | mouse => if isPathDrawing s then endPath s else s
  | touch =>
      let s :=
        match drawCandidate s with
        | Some c =>
            if (pointerId e =? cand_id c)%Z then cancelTouchCandidate s else s
        | None => s
        end in
      if isPathDrawing s
         && (match drawingPointerId s with
             | Some d => (pointerId e =? d)%Z
             | None => false
             end)
      then
        let s := endPath s in
        set_dragging true s
      else s
  | pen => s
  end.

End Handlers.
End Leaflet.

Local Open Scope Z_scope.

(** ** The stepping loop in double precision *)

Module Double.

(** Tile indices are JavaScript numbers, that is doubles.  Every integer
    of magnitude up to 2^53 is a double; from there on the doubles are the
    multiples of [ulp], the power of two that leaves 53 significant bits. *)
Definition ulp (z : Z) : Z :=
  if Z.abs z <? 2 ^ 53 then 1 else 2 ^ (Z.log2 (Z.abs z) - 52).

(** Stands for [Infinity], which is above every double. *)
Definition infinity : Z := 2 ^ 1024.

(** The double that an arithmetic operation returns when its exact result
    is the integer [z]: the nearest double, the one with the even
    significand when [z] is half way between two, and [Infinity] (with the
    sign of [z]) when that is beyond the largest double. *)
Definition round (z : Z) : Z :=
  let q := ulp z in
  let m := Z.abs z / q in
  let r := Z.abs z mod q in
  let m' := if (q <? 2 * r) || ((2 * r =? q) && Z.odd m) then m + 1 else m in
  Z.sgn z * Z.min (m' * q) infinity.

(** The step chosen by the body, from the remainders as computed. *)
Definition choose_step (target : Tile) (c : Cursor) : Z * Z :=
  let remX := round (tx target - cx c) in
  let remY := round (ty target - cy c) in
  if Z.abs remX >=? Z.abs remY then (Z.sgn remX, 0) else (0, Z.sgn remY).

(** One execution of the loop body, [cx += stepX] and [cy += stepY]
    rounding as additions of doubles do. *)
Definition loop_body (target : Tile) (c : Cursor) : Cursor :=
  let '(stepX, stepY) := choose_step target c in
  let cx' := round (cx c + stepX) in
  let cy' := round (cy c + stepY) in
  match dirFromStep stepX stepY with
  | Some d => mkCursor cx' cy' (dirs c ++ [d]) (tiles c ++ [mkTile cx' cy'])
  | None => mkCursor cx' cy' (dirs c) (tiles c)
  end.

(** The [while] loop with an iteration budget: [None] when the budget is
    used up while the loop condition still holds.  The second component
    counts the iterations executed. *)
Fixpoint extend_loop_fuel (fuel : nat) (target : Tile) (c : Cursor)
  : option (Cursor * nat) :=
  if loop_cond target c then
    match fuel with
    | O => None
    | S k =>
        match extend_loop_fuel k target (loop_body target c) with
        | Some (c', n) => Some (c', S n)
        | None => None
        end
    end
  else Some (c, O).

(** [extendPathTo(targetTile)] with that budget for its loop. *)
Definition extendPathTo (fuel : nat) (targetTile : Tile) (s : State)
  : option State :=
  match lastTile s with
  | None => Some s
  | Some last =>
      match
        extend_loop_fuel fuel targetTile
          (mkCursor (tx last) (ty last) (pathDirections s) (pathTiles s))
      with
      | None => None
      | Some (c, _) =>
          let s := set_pathDirections (dirs c) s in
          let s := set_pathTiles (tiles c) s in
          let s := set_lastTile (Some (mkTile (cx c) (cy c))) s in
          let s := set_cmdOutput (join_directions (pathDirections s)) s in
          Some s
      end
  end.

End Double.

(** * Vocabulary of the properties *)

Local Open Scope Z_scope.

(** The token pushed for a horizontal, resp. vertical, unit step. *)
Definition horizontal_token (remX : Z) : Dir :=
  if 0 <? remX then Right else Left.

Definition vertical_token (remY : Z) : Dir :=
  if 0 <? remY then Down else Up.

(** [walk from ts ds]: starting at [from], the tiles [ts] are visited one
    unit step at a time, and [ds] holds the token of each step. *)
Fixpoint walk (from : Tile) (ts : list Tile) (ds : list Dir) : Prop :=
  match ts, ds with
  | [], [] => True
  | t :: ts', d :: ds' =>
      dirFromStep (tx t - tx from) (ty t - ty from) = Some d /\ walk t ts' ds'
  | _, _ => False
  end.

(** The loop variables on entry to the loop of [extendPathTo]. *)
Definition entry_cursor (last : Tile) (s : State) : Cursor :=
  mkCursor (tx last) (ty last) (pathDirections s) (pathTiles s).

(** The integers up to which adding one to a double is exact. *)
Definition safe_index (z : Z) : Prop := Z.abs z <= 2 ^ 53.

Definition safe_cells (target : Tile) (c : Cursor) : Prop :=
  safe_index (tx target) /\ safe_index (ty target) /\
  safe_index (cx c) /\ safe_index (cy c).

(** The integers whose differences are computed exactly as well. *)
Definition exact_index (z : Z) : Prop := Z.abs z <= 2 ^ 52.

Definition exact_cells (target : Tile) (c : Cursor) : Prop :=
  exact_index (tx target) /\ exact_index (ty target) /\
  exact_index (cx c) /\ exact_index (cy c).

Local Open Scope Q_scope.

(** Modelled from the spec: [worldToScreen], the mapping
    [w -> scale * w + panOffset].  The scripts have no function of that
    name: they hand the mapping to the page as the style
    [translate(panX, panY) scale(scale)] written by [applyTransform], and
    [setZoom] solves it for the pan offset. *)
Definition worldToScreen (s : State) (w : Point) : Point :=
  mkPoint (scale s * pt_x w + panX s) (scale s * pt_y w + panY s).

(** The tiles that [worldToTile] can return for a point accepted by
    [withinImage]: those whose top-left corner lies in the image. *)
Definition tileWithinImage (s : State) (t : Tile) : bool :=
  (0 <=? tx t)%Z && (0 <=? ty t)%Z
  && Qle_bool (inject_Z (tx t) * TILE_SIZE) (imgW s)
  && Qle_bool (inject_Z (ty t) * TILE_SIZE) (imgH s).

Local Open Scope Z_scope.

(** Two tiles one unit apart on exactly one axis. *)
Definition unit_step (a b : Tile) : Prop :=
  (Z.abs (tx b - tx a) = 1 /\ ty b = ty a) \/
  (tx b = tx a /\ Z.abs (ty b - ty a) = 1).

(** The token that encodes the step from [a] to [b]. *)
Definition step_token (a b : Tile) : option Dir :=
  dirFromStep (tx b - tx a) (ty b - ty a).

(** The three parts of the invariant, on the two arrays. *)
Definition directions_one_fewer (cells : list Tile) (ds : list Dir) : Prop :=
  Z.of_nat (List.length ds) = Z.of_nat (List.length cells) - 1.

Definition cells_continuous (cells : list Tile) : Prop :=
  forall i a b,
    nth_error cells i = Some a -> nth_error cells (S i) = Some b ->
    unit_step a b.

Definition directions_consistent (cells : list Tile) (ds : list Dir) : Prop :=
  forall i a b d,
    nth_error cells i = Some a -> nth_error cells (S i) = Some b ->
    nth_error ds i = Some d ->
    step_token a b = Some d.

Definition path_shape (cells : list Tile) (ds : list Dir) : Prop :=
  directions_one_fewer cells ds /\
  cells_continuous cells /\
  directions_consistent cells ds.

(** The invariant that the operations keep: the path is empty, with no
    last tile, or it is a walk from its first tile and [lastTile] is its
    last tile. *)
Definition path_ok (cells : list Tile) (ds : list Dir) (lt : option Tile)
  : Prop :=
  match cells with
  | [] => ds = [] /\ lt = None
  | first :: rest => walk first rest ds /\ lt = Some (last rest first)
  end.

Definition PathInvariant (s : State) : Prop :=
  path_ok (pathTiles s) (pathDirections s) (lastTile s).

(** The invariant in the form that asks for one direction fewer than
    cells in every state. *)
Definition claimed_path_invariant (s : State) : Prop :=
  path_shape (pathTiles s) (pathDirections s).

Local Open Scope Q_scope.

Definition scale_in_bounds (s : State) : Prop :=
  ZOOM_MIN <= scale s /\ scale s <= ZOOM_MAX.

(** The scale that [computeFitAndCenter] sets for a layout. *)
Definition fit_ratio (l : Layout) (s : State) : Q :=
  let rect := contentRect l in
  Qmin (rect_w rect / imgW s) (rect_h rect / imgH s).

(** The layout for which an event recomputes the fit, if it does: a click
    on the fit button, or a resize while in fit mode. *)
Definition refit_layout (ev : Event) (s : State) : option Layout :=
  match ev with
  | ZoomClick ZoomFit => Some (layout s)
  | Resize l =>
      match zoomMode s with
      | ModeFit => Some l
      | ModeAbs => None
      end
  | _ => None
  end.

(** Every fit computed along a sequence of events lies within the zoom
    bounds. *)
Fixpoint fits_within_bounds (step : Event -> State -> State)
    (evs : list Event) (s : State) : Prop :=
  match evs with
  | [] => True
  | ev :: rest =>
      (forall l, refit_layout ev s = Some l ->
                 ZOOM_MIN <= fit_ratio l s /\ fit_ratio l s <= ZOOM_MAX) /\
      fits_within_bounds step rest (step ev s)
  end.

Local Open Scope Z_scope.

(** The number of gesture modes that are active. *)
Definition active_modes (s : State) : nat :=
  (if isPanning s then 1 else 0) + (if isPathDrawing s then 1 else 0)
  + (if isPinching s then 1 else 0).

Definition gesture_exclusive (s : State) : Prop := (active_modes s <= 1)%nat.

(** No pointer is down, no mode is active and no draw timer is armed, as
    after [initAfterImage]. *)
Definition idle (s : State) : Prop :=
  pointers s = [] /\ isPanning s = false /\ isPinching s = false /\
  isPathDrawing s = false /\ drawCandidate s = None.

(** Events of a session driven by fingers only, resp. by the mouse only;
    the timer, the zoom buttons and resizes may occur in both. *)
Definition touch_event (ev : Event) : Prop :=
  match ev with
  | PointerDown e | PointerMove e | PointerUp e => pointerType e = touch
  | DrawTimer | ZoomClick _ | Resize _ => True
  end.

Definition mouse_event (ev : Event) : Prop :=
  match ev with
  | PointerDown e | PointerMove e | PointerUp e => pointerType e = mouse
  | DrawTimer | ZoomClick _ | Resize _ => True
  end.

(** Every press in the sequence arrives while no pointer is down, as the
    presses of a single mouse do. *)
Fixpoint presses_when_released (step : Event -> State -> State)
    (evs : list Event) (s : State) : Prop :=
  match evs with
  | [] => True
  | ev :: rest =>
      match ev with
      | PointerDown _ => pointers s = []
      | _ => True
      end /\
      presses_when_released step rest (step ev s)
  end.

(** What holds along a session of fingers in the first script: nothing
    pans, a pinch has two pointers or more, a drawing has one at most. *)
Definition Gated_touch_inv (s : State) : Prop :=
  isPanning s = false /\
  (isPinching s = true -> 2 <= pointers_size (pointers s)) /\
  (isPathDrawing s = true -> pointers_size (pointers s) <= 1).

(** In the second script a drawing can go on with two fingers down, but
    then no pinch has started. *)
Definition Direct_touch_inv (s : State) : Prop :=
  isPanning s = false /\
  (isPinching s = true -> 2 <= pointers_size (pointers s)) /\
  (isPinching s = true -> isPathDrawing s = false).

(** What holds along a session of a single mouse, in both scripts. *)
Definition mouse_inv (s : State) : Prop :=
  isPinching s = false /\ drawCandidate s = None /\
  (pointers s = [] -> isPanning s = false /\ isPathDrawing s = false) /\
  (isPanning s = true -> isPathDrawing s = false).

(** One finger is down and draws. *)
Definition single_touch_drawing (s : State) (id0 : Z) (p0 : Pointer) : Prop :=
  pointers s = [(id0, p0)] /\ ptr_type p0 = touch /\ isPathDrawing s = true.

(** The event is the arrival of another finger. *)
Definition second_touch (id0 : Z) (e : PointerEvent) : Prop :=
  pointerType e = touch /\ pointerId e <> id0.

(** The path is discarded and the pinch starts from the positions of the
    two pointers. *)
Definition discards_and_pinches (hypot : Q -> Q -> Q) (s : State)
    (p0 : Pointer) (e : PointerEvent) (s' : State) : Prop :=
  pathTiles s' = [] /\ pathDirections s' = [] /\ lastTile s' = None /\
  isPathDrawing s' = false /\
  isPinching s' = true /\
  pinchStartDist s' = hypot (ptr_x p0 - clientX e)%Q (ptr_y p0 - clientY e)%Q /\
  pinchStartScale s' = scale s /\
  pinchMidWorld s'
    = screenToWorld s ((ptr_x p0 + clientX e) / 2)%Q
        ((ptr_y p0 + clientY e) / 2)%Q.

(** The claim, for a [pointerdown] handler of script.js. *)
Definition second_touch_aborts_draw
    (onPointerDown : (Q -> Q -> Q) -> PointerEvent -> State -> State) : Prop :=
  forall hypot s id0 p0 e,
    single_touch_drawing s id0 p0 ->
    second_touch id0 e ->
    discards_and_pinches hypot s p0 e (onPointerDown hypot e s).

(** ** Vocabulary of the further properties *)

Local Open Scope Z_scope.

(** The text of the output box is the joined direction list. *)
Definition output_in_sync (s : State) : Prop :=
  cmdOutput s = join_directions (pathDirections s).

(** Since state [s0] the output box and the direction list have either
    both been left alone, or the box shows the joined directions. *)
Definition output_settled (s0 s : State) : Prop :=
  output_in_sync s \/
  (cmdOutput s = cmdOutput s0 /\ pathDirections s = pathDirections s0).

(** While a drawing is in progress there is a last tile. *)
Definition drawing_has_tile (s : State) : Prop :=
  isPathDrawing s = true -> lastTile s <> None.

(** [t] lies in the rectangle of tiles spanned by [a] and [b]. *)
Definition in_box (a b t : Tile) : Prop :=
  (Z.min (tx a) (tx b) <= tx t <= Z.max (tx a) (tx b)) /\
  (Z.min (ty a) (ty b) <= ty t <= Z.max (ty a) (ty b)).

(** [s'] keeps the path of [s] and adds to its end: the new cells and
    directions, if any, walk on from the last tile of [s]. *)
Definition extends_path (s s' : State) : Prop :=
  exists ts ds,
    pathTiles s' = pathTiles s ++ ts /\
    pathDirections s' = pathDirections s ++ ds /\
    match lastTile s with
    | Some l => walk l ts ds
    | None => ts = [] /\ ds = []
    end.

Local Open Scope Q_scope.

(** The content rectangle of a layout has a positive width and height. *)
Definition content_positive (l : Layout) : Prop :=
  0 < rect_w (contentRect l) /\ 0 < rect_h (contentRect l).

(** The image and the content rectangle have positive sizes and the scale
    is positive, so that no division of the transform is by zero. *)
Definition view_ok (s : State) : Prop :=
  0 < scale s /\ 0 < imgW s /\ 0 < imgH s /\ content_positive (layout s).

(** Every resize of the sequence leaves a content rectangle of positive
    size. *)
Definition resize_positive (ev : Event) : Prop :=
  match ev with
  | Resize l => content_positive l
  | _ => True
  end.

(** * Sample data *)

Local Open Scope Z_scope.

(** A 1000 x 800 window with bars of 50, 72 and 40 pixels: the content
    rectangle is 920 x 710 at (0, 50). *)
Definition sample_layout : Layout := mkLayout 50 72 40 1000 800.

(** A 1840 x 1420 image loaded in that window: it is fitted at scale 1/2
    with its corner at (0, 50). *)
Definition sample_loaded : State :=
  initAfterImage 1840 1420 (declared sample_layout).

(** A path started at screen point (4, 54), that is world point (8, 8),
    tile (0, 0). *)
Definition sample_started : State := startPathAtScreen 4 54 sample_loaded.

Local Open Scope Q_scope.

(** A 7200 x 7200 image (the size that the Leaflet script records for the
    map) in the sample window: the fit ratio is 710 / 7200, below
    [ZOOM_MIN]. *)
Definition sample_large : State :=
  initAfterImage 7200 7200 (declared sample_layout).

Local Open Scope Z_scope.

(** A rational stand-in for [Math.hypot], to run the handlers on sample
    events: the root of the sum of squares, rounded down to a thousandth. *)
Definition hypot_milli (dx dy : Q) : Q :=
  inject_Z (Z.sqrt (Qfloor ((dx * dx + dy * dy) * 1000000))) / 1000.

(** A finger with the given pointer id, and the mouse (pointer 1) with its
    left button, at a screen point. *)
Definition touch_at (id : Z) (x y : Q) : PointerEvent :=
  mkPointerEvent id touch x y 0 false.

Definition mouse_at (x y : Q) (ctrl : bool) : PointerEvent :=
  mkPointerEvent 1 mouse x y 0 ctrl.

(** A finger draws, a second finger joins and pinches, both lift; the
    mouse draws with the modifier, is released, then pans. *)
Definition sample_touch_session : list Event :=
  [PointerDown (touch_at 2 4 54); DrawTimer; PointerMove (touch_at 2 40 54);
   PointerDown (touch_at 3 200 200); PointerMove (touch_at 3 260 280);
   PointerUp (touch_at 3 260 280); PointerUp (touch_at 2 40 54)].

Definition sample_mouse_session : list Event :=
  [PointerDown (mouse_at 4 54 true); PointerMove (mouse_at 40 54 true);
   PointerUp (mouse_at 40 54 true); PointerDown (mouse_at 100 100 false);
   PointerMove (mouse_at 120 90 false); PointerUp (mouse_at 120 90 false)].

(** A finger has drawn from tile (0, 0) to tile (5, 0), in the first and
    in the second script. *)
Definition sample_gated_drawing : State :=
  Gated.run hypot_milli
    [PointerDown (touch_at 2 4 54); DrawTimer; PointerMove (touch_at 2 40 54)]
    sample_loaded.

Definition sample_direct_drawing : State :=
  Direct.run hypot_milli
    [PointerDown (touch_at 2 4 54); PointerMove (touch_at 2 40 54)]
    sample_loaded.

(** A session in the sample window: zoom to 2000% (clamped to 800%), a
    pinch with two fingers, a resize in absolute mode. *)
Definition sample_zoom_session : list Event :=
  [ZoomClick (ZoomTo 20); PointerDown (touch_at 2 100 100);
   PointerDown (touch_at 3 200 200); PointerMove (touch_at 3 120 120);
   PointerUp (touch_at 3 120 120); PointerUp (touch_at 2 100 100);
   Resize (mkLayout 50 72 40 500 400)].

(** A drawing whose last tile is in column 2^53. *)
Definition sample_far : State :=
  set_lastTile (Some (mkTile (2 ^ 53) 0))
    (set_pathTiles [mkTile (2 ^ 53) 0] sample_started).

(** A page whose output box holds a text of its own when the image loads. *)
Definition sample_page_text : State :=
  set_cmdOutput "up up"%string sample_loaded.

(** * Properties *)

Local Open Scope Z_scope.

(** ** The stepping loop *)

Lemma extend_loop_iterate target c :
  extend_loop target c =
  if loop_cond target c then extend_loop target (loop_body target c) else c.
Proof.
  rewrite extend_loop_equation_1.
  destruct (inspect (loop_cond target c)) as [b Hb].
  destruct b; simp extend_loop; rewrite Hb; reflexivity.
Qed.

Lemma loop_cond_false target c :
  loop_cond target c = false -> cx c = tx target /\ cy c = ty target.
Proof.
  unfold loop_cond. intros H.
  apply orb_false_elim in H. destruct H as [H1 H2].
  apply negb_false_iff in H1, H2. lia.
Qed.

Lemma loop_cond_true target c :
  loop_cond target c = true -> 0 < manhattan target c.
Proof.
  unfold loop_cond, manhattan. intros H.
  apply orb_true_iff in H.
  destruct H as [H | H]; apply negb_true_iff in H; lia.
Qed.

Lemma loop_cond_zero target c :
  manhattan target c = 0 -> loop_cond target c = false.
Proof.
  intros H. destruct (loop_cond target c) eqn:E; [|reflexivity].
  apply loop_cond_true in E. lia.
Qed.

Lemma dirFromStep_horizontal remX :
  remX <> 0 -> dirFromStep (Z.sgn remX) 0 = Some (horizontal_token remX).
Proof.
  intros H. unfold horizontal_token.
  destruct (Z.ltb_spec 0 remX).
  - rewrite Z.sgn_pos by lia. reflexivity.
  - rewrite Z.sgn_neg by lia. reflexivity.
Qed.

Lemma dirFromStep_vertical remY :
  remY <> 0 -> dirFromStep 0 (Z.sgn remY) = Some (vertical_token remY).
Proof.
  intros H. unfold vertical_token.
  destruct (Z.ltb_spec 0 remY).
  - rewrite Z.sgn_pos by lia. reflexivity.
  - rewrite Z.sgn_neg by lia. reflexivity.
Qed.

(** While the loop runs, a horizontal step is taken when the horizontal
    remainder is at least the vertical one. *)
Lemma loop_body_horizontal target c :
  loop_cond target c = true ->
  Z.abs (ty target - cy c) <= Z.abs (tx target - cx c) ->
  loop_body target c =
  mkCursor (cx c + Z.sgn (tx target - cx c)) (cy c)
    (dirs c ++ [horizontal_token (tx target - cx c)])
    (tiles c ++ [mkTile (cx c + Z.sgn (tx target - cx c)) (cy c)]).
Proof.
  intros Hc Hle. apply loop_cond_true in Hc. unfold manhattan in Hc.
  unfold loop_body, choose_step. cbv zeta.
  destruct (Z.geb_spec (Z.abs (tx target - cx c)) (Z.abs (ty target - cy c)));
    [|lia].
  rewrite dirFromStep_horizontal by lia.
  rewrite Z.add_0_r. reflexivity.
Qed.

Lemma loop_body_vertical target c :
  Z.abs (tx target - cx c) < Z.abs (ty target - cy c) ->
  loop_body target c =
  mkCursor (cx c) (cy c + Z.sgn (ty target - cy c))
    (dirs c ++ [vertical_token (ty target - cy c)])
    (tiles c ++ [mkTile (cx c) (cy c + Z.sgn (ty target - cy c))]).
Proof.
  intros Hlt.
  unfold loop_body, choose_step. cbv zeta.
  destruct (Z.geb_spec (Z.abs (tx target - cx c)) (Z.abs (ty target - cy c)));
    [lia|].
  rewrite dirFromStep_vertical by lia.
  rewrite Z.add_0_r. reflexivity.
Qed.

(** Each iteration moves the cursor one unit closer to the target. *)
Lemma loop_body_decreases target c :
  loop_cond target c = true ->
  manhattan target (loop_body target c) = manhattan target c - 1.
Proof.
  intros Hc.
  destruct (Z_le_gt_dec (Z.abs (ty target - cy c))
              (Z.abs (tx target - cx c))) as [Hle | Hgt].
  - rewrite (loop_body_horizontal _ _ Hc Hle).
    apply loop_cond_true in Hc. unfold manhattan in *. simpl. lia.
  - rewrite loop_body_vertical by lia.
    unfold manhattan. simpl. lia.
Qed.

(** With a budget of at least the Manhattan distance the loop finishes,
    after exactly that many iterations, with the result of [extend_loop]. *)
Lemma extend_loop_fuel_enough fuel : forall target c,
  (Z.to_nat (manhattan target c) <= fuel)%nat ->
  extend_loop_fuel fuel target c =
  Some (extend_loop target c, Z.to_nat (manhattan target c)).
Proof.
  induction fuel as [|k IH]; intros target c Hf.
  - assert (Hz : manhattan target c = 0).
    { unfold manhattan in *. lia. }
    rewrite extend_loop_iterate. simpl.
    rewrite (loop_cond_zero _ _ Hz), Hz. reflexivity.
  - rewrite extend_loop_iterate. simpl.
    destruct (loop_cond target c) eqn:Hc.
    + pose proof (loop_cond_true _ _ Hc) as Hpos.
      pose proof (loop_body_decreases _ _ Hc) as Hdec.
      rewrite IH by lia. rewrite Hdec.
      replace (S (Z.to_nat (manhattan target c - 1)))
        with (Z.to_nat (manhattan target c)) by lia.
      reflexivity.
    + destruct (loop_cond_false _ _ Hc) as [Hx Hy].
      unfold manhattan. rewrite Hx, Hy, !Z.sub_diag. reflexivity.
Qed.

(** With a smaller budget the loop is still running when it is used up. *)
Lemma extend_loop_fuel_short fuel : forall target c,
  (fuel < Z.to_nat (manhattan target c))%nat ->
  extend_loop_fuel fuel target c = None.
Proof.
  induction fuel as [|k IH]; intros target c Hf; simpl.
  - destruct (loop_cond target c) eqn:Hc; [reflexivity|].
    destruct (loop_cond_false _ _ Hc) as [Hx Hy].
    unfold manhattan in Hf. rewrite Hx, Hy, !Z.sub_diag in Hf.
    simpl in Hf. lia.
  - destruct (loop_cond target c) eqn:Hc.
    + pose proof (loop_body_decreases _ _ Hc) as Hdec.
      rewrite IH by lia. reflexivity.
    + destruct (loop_cond_false _ _ Hc) as [Hx Hy].
      unfold manhattan in Hf. rewrite Hx, Hy, !Z.sub_diag in Hf.
      simpl in Hf. lia.
Qed.

(** The loop stops on the target. *)
Lemma extend_loop_reaches target c :
  cx (extend_loop target c) = tx target /\
  cy (extend_loop target c) = ty target.
Proof.
  remember (Z.to_nat (manhattan target c)) as n eqn:Hn.
  revert c Hn. induction n as [|k IH]; intros c Hn.
  - rewrite extend_loop_iterate.
    assert (Hz : manhattan target c = 0) by (unfold manhattan in *; lia).
    rewrite (loop_cond_zero _ _ Hz).
    apply loop_cond_false, loop_cond_zero, Hz.
  - rewrite extend_loop_iterate.
    destruct (loop_cond target c) eqn:Hc.
    + apply IH. rewrite (loop_body_decreases _ _ Hc). lia.
    + apply loop_cond_false, Hc.
Qed.

(** ** Shape of the path appended by the loop *)

Lemma walk_length from ts : forall ds,
  walk from ts ds -> List.length ds = List.length ts.
Proof.
  revert from. induction ts as [|t ts IH]; intros from [|d ds] H;
    simpl in *; try contradiction; [reflexivity|].
  destruct H as [_ H]. f_equal. eauto.
Qed.

Lemma last_cons {A : Type} (ts : list A) : forall t d,
  last (t :: ts) d = last ts t.
Proof.
  induction ts as [|u ts IH]; intros t d; [reflexivity|].
  change (last (t :: u :: ts) d) with (last (u :: ts) d).
  rewrite !IH. reflexivity.
Qed.

Lemma walk_app from ts1 : forall ds1 ts2 ds2,
  walk from ts1 ds1 ->
  walk (last ts1 from) ts2 ds2 ->
  walk from (ts1 ++ ts2) (ds1 ++ ds2).
Proof.
  revert from. induction ts1 as [|t ts1 IH]; intros from [|d ds1] ts2 ds2 H1 H2;
    simpl in H1; try contradiction.
  - exact H2.
  - destruct H1 as [Hd H1]. simpl. split; [exact Hd|].
    apply IH; [exact H1|].
    rewrite last_cons in H2. exact H2.
Qed.

Lemma loop_body_walk target c :
  loop_cond target c = true ->
  exists t d,
    loop_body target c =
      mkCursor (tx t) (ty t) (dirs c ++ [d]) (tiles c ++ [t]) /\
    dirFromStep (tx t - cx c) (ty t - cy c) = Some d.
Proof.
  intros Hc.
  destruct (Z_le_gt_dec (Z.abs (ty target - cy c))
              (Z.abs (tx target - cx c))) as [Hle | Hgt].
  - rewrite (loop_body_horizontal _ _ Hc Hle).
    apply loop_cond_true in Hc. unfold manhattan in Hc.
    eexists (mkTile _ _), _. split; [reflexivity|]. simpl.
    replace (cx c + Z.sgn (tx target - cx c) - cx c)
      with (Z.sgn (tx target - cx c)) by lia.
    rewrite Z.sub_diag. apply dirFromStep_horizontal. lia.
  - rewrite loop_body_vertical by lia.
    eexists (mkTile _ _), _. split; [reflexivity|]. simpl.
    replace (cy c + Z.sgn (ty target - cy c) - cy c)
      with (Z.sgn (ty target - cy c)) by lia.
    rewrite Z.sub_diag. apply dirFromStep_vertical. lia.
Qed.

(** The loop appends a walk from the cursor to the target, one tile and one
    token per unit of Manhattan distance. *)
Lemma extend_loop_appends target c :
  exists ts ds,
    tiles (extend_loop target c) = tiles c ++ ts /\
    dirs (extend_loop target c) = dirs c ++ ds /\
    walk (mkTile (cx c) (cy c)) ts ds /\
    List.length ts = Z.to_nat (manhattan target c) /\
    last ts (mkTile (cx c) (cy c)) = target.
Proof.
  remember (Z.to_nat (manhattan target c)) as n eqn:Hn.
  revert c Hn. induction n as [|k IH]; intros c Hn.
  - assert (Hz : manhattan target c = 0) by (unfold manhattan in *; lia).
    pose proof (loop_cond_zero _ _ Hz) as Hc.
    rewrite extend_loop_iterate, Hc.
    exists [], []. rewrite !app_nil_r.
    destruct (loop_cond_false _ _ Hc) as [Hx Hy].
    simpl. rewrite Hx, Hy. destruct target; auto.
  - rewrite extend_loop_iterate.
    destruct (loop_cond target c) eqn:Hc.
    + destruct (loop_body_walk _ _ Hc) as (t & d & Hb & Hd).
      pose proof (loop_body_decreases _ _ Hc) as Hdec.
      destruct (IH (loop_body target c)) as (ts & ds & Ht & Hds & Hw & Hl & Hlast);
        [lia|].
      exists (t :: ts), (d :: ds).
      rewrite Ht, Hds. rewrite Hb in Hw, Hlast |- *.
      simpl in Hw, Hlast. cbn [dirs tiles]. rewrite <- !app_assoc.
      split; [reflexivity|]. split; [reflexivity|].
      split; [|split].
      * simpl. split; [exact Hd|]. destruct t; exact Hw.
      * simpl. lia.
      * rewrite last_cons. destruct t; exact Hlast.
    + destruct (loop_cond_false _ _ Hc) as [Hx Hy].
      unfold manhattan in Hn. rewrite Hx, Hy, !Z.sub_diag in Hn.
      discriminate Hn.
Qed.

(** ** The tracer operation [extendPathTo] *)

Lemma extendPathTo_active target last s :
  lastTile s = Some last ->
  pathTiles (extendPathTo target s)
    = tiles (extend_loop target (entry_cursor last s)) /\
  pathDirections (extendPathTo target s)
    = dirs (extend_loop target (entry_cursor last s)) /\
  lastTile (extendPathTo target s) = Some target.
Proof.
  intros Hl. unfold extendPathTo. rewrite Hl. cbn.
  repeat split.
  destruct (extend_loop_reaches target (entry_cursor last s)) as [Hx Hy].
  unfold entry_cursor in Hx, Hy. rewrite Hx, Hy.
  destruct target; reflexivity.
Qed.

Lemma extendPathTo_inactive target s :
  lastTile s = None -> extendPathTo target s = s.
Proof. intros Hl. unfold extendPathTo. rewrite Hl. reflexivity. Qed.

Lemma extend_loop_example :
  extend_loop (mkTile 3 1) (mkCursor 0 0 [] [mkTile 0 0]) =
  mkCursor 3 1 [Right; Right; Right; Down]
    [mkTile 0 0; mkTile 1 0; mkTile 2 0; mkTile 3 0; mkTile 3 1].
Proof.
  do 5 (rewrite extend_loop_iterate; simpl). reflexivity.
Qed.

Lemma loop_cond_at_target target c :
  loop_cond target c = false <-> cx c = tx target /\ cy c = ty target.
Proof.
  split; [apply loop_cond_false|].
  intros [Hx Hy]. apply loop_cond_zero. unfold manhattan. lia.
Qed.

Lemma iter_loop_body n : forall target c,
  Nat.iter (S n) (loop_body target) c
  = Nat.iter n (loop_body target) (loop_body target c).
Proof.
  intros target c. symmetry. apply Nat.iter_swap.
Qed.

(** The loop is its body, run as many times as the Manhattan distance. *)
Lemma extend_loop_iter target c :
  extend_loop target c
  = Nat.iter (Z.to_nat (manhattan target c)) (loop_body target) c.
Proof.
  remember (Z.to_nat (manhattan target c)) as n eqn:Hn.
  revert c Hn. induction n as [|k IH]; intros c Hn.
  - assert (Hz : manhattan target c = 0) by (unfold manhattan in *; lia).
    rewrite extend_loop_iterate, (loop_cond_zero _ _ Hz). reflexivity.
  - rewrite extend_loop_iterate.
    destruct (loop_cond target c) eqn:Hc.
    + rewrite iter_loop_body. apply IH.
      rewrite (loop_body_decreases _ _ Hc). lia.
    + destruct (loop_cond_false _ _ Hc) as [Hx Hy].
      unfold manhattan in Hn. rewrite Hx, Hy, !Z.sub_diag in Hn.
      discriminate Hn.
Qed.


Lemma pow53 : 2 ^ 53 = 9007199254740992.
Proof. reflexivity. Qed.

Lemma round_exact z : Z.abs z <= 2 ^ 53 -> Double.round z = z.
Proof.
  intros H. rewrite pow53 in H.
  destruct (Z.eq_dec (Z.abs z) 9007199254740992) as [E|E].
  - destruct (Z.abs_eq_or_opp z) as [A|A]; rewrite A in E.
    + subst z. vm_compute. reflexivity.
    + assert (z = -9007199254740992) by lia. subst z. vm_compute. reflexivity.
  - unfold Double.round, Double.ulp. rewrite pow53.
    destruct (Z.ltb_spec (Z.abs z) 9007199254740992); [|lia].
    cbv zeta. rewrite Z.div_1_r, Z.mod_1_r. cbn [Z.mul Z.ltb Z.compare Z.eqb orb andb].
    rewrite Z.mul_1_r.
    assert (Hi : Z.abs z <= Double.infinity).
    { unfold Double.infinity.
      apply Z.le_trans with (2 ^ 53); [rewrite pow53; lia|].
      apply Z.pow_le_mono_r; lia. }
    rewrite Z.min_l by exact Hi.
    rewrite Z.mul_comm. apply Z.abs_sgn.
Qed.

Lemma round_magnitude_pos z :
  2 ^ 53 <= Z.abs z ->
  0 < Z.min
        ((if (Double.ulp z <? 2 * (Z.abs z mod Double.ulp z))
             || ((2 * (Z.abs z mod Double.ulp z) =? Double.ulp z)
                 && Z.odd (Z.abs z / Double.ulp z))
          then Z.abs z / Double.ulp z + 1 else Z.abs z / Double.ulp z)
         * Double.ulp z) Double.infinity.
Proof.
  intros H.
  assert (Hpos : 0 < Z.abs z) by (rewrite pow53 in H; lia).
  assert (Hl : 53 <= Z.log2 (Z.abs z)).
  { change 53 with (Z.log2 (2 ^ 53)). apply Z.log2_le_mono, H. }
  assert (Hq : Double.ulp z = 2 ^ (Z.log2 (Z.abs z) - 52)).
  { unfold Double.ulp. destruct (Z.ltb_spec (Z.abs z) (2 ^ 53)); [lia|].
    reflexivity. }
  rewrite Hq. set (q := 2 ^ (Z.log2 (Z.abs z) - 52)).
  assert (Hq0 : 0 < q) by (apply Z.pow_pos_nonneg; lia).
  assert (Hqz : q <= Z.abs z).
  { apply Z.le_trans with (2 ^ Z.log2 (Z.abs z)).
    - apply Z.pow_le_mono_r; lia.
    - apply Z.log2_spec, Hpos. }
  assert (Hm : 1 <= Z.abs z / q).
  { apply Z.div_le_lower_bound; lia. }
  apply Z.min_glb_lt; [|reflexivity].
  destruct (_ || _); nia.
Qed.

(** Rounding keeps the sign: a difference of doubles is zero only when
    they are equal. *)
Lemma round_sgn z : Z.sgn (Double.round z) = Z.sgn z.
Proof.
  destruct (Z_le_gt_dec (Z.abs z) (2 ^ 53)) as [H|H].
  - rewrite round_exact by exact H. reflexivity.
  - assert (H' : 2 ^ 53 <= Z.abs z) by lia.
    pose proof (round_magnitude_pos z H') as Hp.
    unfold Double.round. cbv zeta.
    rewrite Z.sgn_mul, (Z.sgn_pos _ Hp), Z.mul_1_r.
    destruct z; reflexivity.
Qed.

Lemma round_zero z : Double.round z = 0 -> z = 0.
Proof.
  intros H. pose proof (round_sgn z) as Hs. rewrite H in Hs.
  destruct z; [reflexivity|discriminate Hs|discriminate Hs].
Qed.

Lemma round_zero_eq : Double.round 0 = 0.
Proof. reflexivity. Qed.

(** Within the safe integers an iteration moves the cursor one unit
    towards the target, on an axis on which it is not there yet. *)
Lemma Double_loop_body_safe target c :
  safe_cells target c ->
  loop_cond target c = true ->
  manhattan target (Double.loop_body target c) = manhattan target c - 1 /\
  safe_cells target (Double.loop_body target c) /\
  List.length (dirs (Double.loop_body target c)) = S (List.length (dirs c)) /\
  List.length (tiles (Double.loop_body target c))
    = S (List.length (tiles c)).
Proof.
  unfold safe_cells, safe_index. intros (Htx & Hty & Hcx & Hcy) Hc.
  apply loop_cond_true in Hc. unfold manhattan in Hc.
  unfold Double.loop_body, Double.choose_step. cbv zeta.
  pose proof (round_sgn (tx target - cx c)) as Sx.
  pose proof (round_sgn (ty target - cy c)) as Sy.
  destruct (Z.geb_spec (Z.abs (Double.round (tx target - cx c)))
              (Z.abs (Double.round (ty target - cy c)))) as [Hge|Hlt].
  - assert (Hne : tx target - cx c <> 0).
    { intros E. rewrite E in Hge. rewrite round_zero_eq in Hge.
      cbn in Hge.
      assert (E2 : Double.round (ty target - cy c) = 0) by lia.
      apply round_zero in E2. lia. }
    rewrite Sx, Z.add_0_r.
    rewrite (round_exact (cy c)) by exact Hcy.
    rewrite (round_exact (cx c + Z.sgn (tx target - cx c))) by lia.
    rewrite dirFromStep_horizontal by exact Hne.
    unfold manhattan. cbn [cx cy dirs tiles].
    rewrite !length_app. cbn [List.length].
    repeat split; try lia.
  - assert (Hne : ty target - cy c <> 0).
    { intros E. rewrite E in Hlt. rewrite round_zero_eq in Hlt.
      cbn in Hlt. lia. }
    rewrite Sy, Z.add_0_r.
    rewrite (round_exact (cx c)) by exact Hcx.
    rewrite (round_exact (cy c + Z.sgn (ty target - cy c))) by lia.
    rewrite dirFromStep_vertical by exact Hne.
    unfold manhattan. cbn [cx cy dirs tiles].
    rewrite !length_app. cbn [List.length].
    repeat split; try lia.
Qed.

(** Where the differences are exact as well, the iteration is the one of
    [loop_body]. *)
Lemma Double_loop_body_exact target c :
  exact_cells target c ->
  Double.loop_body target c = loop_body target c /\
  (loop_cond target c = true -> exact_cells target (loop_body target c)).
Proof.
  unfold exact_cells, exact_index. intros (Htx & Hty & Hcx & Hcy).
  assert (P52 : 2 ^ 53 = 2 * 2 ^ 52) by reflexivity.
  assert (Ex : Double.round (tx target - cx c) = tx target - cx c)
    by (apply round_exact; lia).
  assert (Ey : Double.round (ty target - cy c) = ty target - cy c)
    by (apply round_exact; lia).
  split.
  - unfold Double.loop_body, loop_body, Double.choose_step, choose_step.
    cbv zeta. rewrite Ex, Ey.
    destruct (Z.abs (tx target - cx c) >=? Z.abs (ty target - cy c)).
    + rewrite Z.add_0_r, (round_exact (cy c)) by lia.
      rewrite round_exact by lia. reflexivity.
    + rewrite Z.add_0_r, (round_exact (cx c)) by lia.
      rewrite round_exact by lia. reflexivity.
  - intros Hc.
    destruct (Z_le_gt_dec (Z.abs (ty target - cy c))
                (Z.abs (tx target - cx c))) as [Hle | Hgt].
    + rewrite (loop_body_horizontal _ _ Hc Hle). cbn [cx cy].
      apply loop_cond_true in Hc. unfold manhattan in Hc.
      repeat split; lia.
    + rewrite loop_body_vertical by lia. cbn [cx cy].
      repeat split; lia.
Qed.

Lemma Double_fuel_enough fuel : forall target c,
  safe_cells target c ->
  (Z.to_nat (manhattan target c) <= fuel)%nat ->
  exists c',
    Double.extend_loop_fuel fuel target c
      = Some (c', Z.to_nat (manhattan target c)) /\
    cx c' = tx target /\ cy c' = ty target /\
    List.length (dirs c')
      = (List.length (dirs c) + Z.to_nat (manhattan target c))%nat /\
    List.length (tiles c')
      = (List.length (tiles c) + Z.to_nat (manhattan target c))%nat.
Proof.
  induction fuel as [|k IH]; intros target c Hs Hf; cbn [Double.extend_loop_fuel].
  - assert (Hz : manhattan target c = 0) by (unfold manhattan in *; lia).
    rewrite (loop_cond_zero _ _ Hz), Hz.
    destruct (loop_cond_false _ _ (loop_cond_zero _ _ Hz)) as [Hx Hy].
    exists c. cbn. rewrite !Nat.add_0_r. repeat split; assumption.
  - destruct (loop_cond target c) eqn:Hc.
    + pose proof (loop_cond_true _ _ Hc) as Hpos.
      destruct (Double_loop_body_safe target c Hs Hc)
        as (Hdec & Hs' & Hd & Ht).
      destruct (IH target (Double.loop_body target c) Hs')
        as (c' & E & Hx & Hy & Hd' & Ht'); [lia|].
      exists c'. rewrite E, Hdec.
      replace (S (Z.to_nat (manhattan target c - 1)))
        with (Z.to_nat (manhattan target c)) by lia.
      repeat split; try assumption; lia.
    + destruct (loop_cond_false _ _ Hc) as [Hx Hy].
      exists c. unfold manhattan. rewrite Hx, Hy, !Z.sub_diag. cbn.
      rewrite !Nat.add_0_r. repeat split; reflexivity.
Qed.

Lemma Double_fuel_short fuel : forall target c,
  safe_cells target c ->
  (fuel < Z.to_nat (manhattan target c))%nat ->
  Double.extend_loop_fuel fuel target c = None.
Proof.
  induction fuel as [|k IH]; intros target c Hs Hf;
    cbn [Double.extend_loop_fuel].
  - destruct (loop_cond target c) eqn:Hc; [reflexivity|].
    destruct (loop_cond_false _ _ Hc) as [Hx Hy].
    unfold manhattan in Hf. rewrite Hx, Hy, !Z.sub_diag in Hf.
    simpl in Hf. lia.
  - destruct (loop_cond target c) eqn:Hc.
    + destruct (Double_loop_body_safe target c Hs Hc) as (Hdec & Hs' & _).
      rewrite IH; [reflexivity|exact Hs'|lia].
    + destruct (loop_cond_false _ _ Hc) as [Hx Hy].
      unfold manhattan in Hf. rewrite Hx, Hy, !Z.sub_diag in Hf.
      simpl in Hf. lia.
Qed.

Lemma Double_fuel_exact fuel : forall target c,
  exact_cells target c ->
  Double.extend_loop_fuel fuel target c = extend_loop_fuel fuel target c.
Proof.
  induction fuel as [|k IH]; intros target c He;
    cbn [Double.extend_loop_fuel extend_loop_fuel]; [reflexivity|].
  destruct (loop_cond target c) eqn:Hc; [|reflexivity].
  destruct (Double_loop_body_exact target c He) as [E He'].
  rewrite E, IH by (apply He', Hc). reflexivity.
Qed.

(** From column 2^53 on, adding one to the column gives the column back:
    the body leaves the cursor where it is. *)
Lemma Double_stuck fuel : forall ds ts,
  Double.extend_loop_fuel fuel (mkTile (2 ^ 53 + 2) 0)
    (mkCursor (2 ^ 53) 0 ds ts) = None.
Proof.
  induction fuel as [|k IH]; intros ds ts; [reflexivity|].
  cbn [Double.extend_loop_fuel].
  change (loop_cond (mkTile (2 ^ 53 + 2) 0) (mkCursor (2 ^ 53) 0 ds ts))
    with true.
  change (Double.loop_body (mkTile (2 ^ 53 + 2) 0) (mkCursor (2 ^ 53) 0 ds ts))
    with (mkCursor (2 ^ 53) 0 (ds ++ [Right]) (ts ++ [mkTile (2 ^ 53) 0])).
  rewrite IH. reflexivity.
Qed.

(** C9.  In double arithmetic the loop of [extendPathTo], which the three
    scripts share, ends for cells within the safe integers: while it runs,
    each iteration lowers the Manhattan distance to the target by one; the
    loop finishes within any budget of at least that many iterations, after
    exactly that many and on the target, and within no smaller budget; so
    [extendPathTo] returns, with [lastTile] set to the target.  Where the
    differences of the indices are exact too (indices up to 2^52), the
    result is the one of [extend_loop] and of [extendPathTo]. *)
Theorem extendPathTo_terminates :
  (forall target c,
     safe_cells target c ->
     (loop_cond target c = true ->
      manhattan target (Double.loop_body target c)
        = manhattan target c - 1) /\
     (forall fuel,
        (Z.to_nat (manhattan target c) <= fuel)%nat ->
        exists c',
          Double.extend_loop_fuel fuel target c
            = Some (c', Z.to_nat (manhattan target c)) /\
          cx c' = tx target /\ cy c' = ty target) /\
     (forall fuel,
        (fuel < Z.to_nat (manhattan target c))%nat ->
        Double.extend_loop_fuel fuel target c = None) /\
     (exact_cells target c ->
      forall fuel,
        (Z.to_nat (manhattan target c) <= fuel)%nat ->
        Double.extend_loop_fuel fuel target c
          = Some (extend_loop target c, Z.to_nat (manhattan target c)))) /\
  (forall s last target fuel,
     lastTile s = Some last ->
     safe_cells target (entry_cursor last s) ->
     (Z.to_nat (manhattan target (entry_cursor last s)) <= fuel)%nat ->
     exists s',
       Double.extendPathTo fuel target s = Some s' /\
       lastTile s' = Some target /\
       (exact_cells target (entry_cursor last s) ->
        s' = extendPathTo target s)).
Proof.
  split.
  - intros target c Hs. split; [|split; [|split]].
    + intros Hc. apply (Double_loop_body_safe target c Hs Hc).
    + intros fuel Hf.
      destruct (Double_fuel_enough fuel target c Hs Hf)
        as (c' & E & Hx & Hy & _).
      exists c'. repeat split; assumption.
    + intros fuel. apply Double_fuel_short, Hs.
    + intros He fuel Hf.
      rewrite Double_fuel_exact by exact He.
      apply extend_loop_fuel_enough, Hf.
  - intros s last target fuel Hl Hs Hf.
    destruct (Double_fuel_enough fuel target (entry_cursor last s) Hs Hf)
      as (c' & E & Hx & Hy & _).
    unfold Double.extendPathTo. rewrite Hl.
    change (mkCursor (tx last) (ty last) (pathDirections s) (pathTiles s))
      with (entry_cursor last s).
    rewrite E. cbv zeta.
    eexists. split; [reflexivity|]. split.
    + cbn. rewrite Hx, Hy. destruct target; reflexivity.
    + intros He.
      rewrite (Double_fuel_exact fuel target _ He) in E.
      rewrite (extend_loop_fuel_enough fuel target _ Hf) in E.
      injection E as E. rewrite <- E.
      unfold extendPathTo. rewrite Hl. reflexivity.
Qed.


Lemma extendPathTo_terminates_witness :
  let target := mkTile 3 1 in
  let c := mkCursor 0 0 [] [mkTile 0 0] in
  safe_cells target c /\
  manhattan target (Double.loop_body target c) = 3 /\
  Double.extend_loop_fuel 4 target c = Some (extend_loop target c, 4%nat) /\
  Double.extend_loop_fuel 3 target c = None /\
  Double.extendPathTo 4 target sample_started
    = Some (extendPathTo target sample_started).
Proof.
  cbv zeta.
  assert (Hs : safe_cells (mkTile 3 1) (mkCursor 0 0 [] [mkTile 0 0])).
  { unfold safe_cells, safe_index. cbn [tx ty cx cy]. rewrite pow53.
    repeat split; cbn; lia. }
  assert (He : exact_cells (mkTile 3 1) (mkCursor 0 0 [] [mkTile 0 0])).
  { unfold exact_cells, exact_index. cbn [tx ty cx cy].
    change (2 ^ 52) with 4503599627370496. repeat split; cbn; lia. }
  destruct extendPathTo_terminates as [Hloop Hstate].
  destruct (Hloop (mkTile 3 1) (mkCursor 0 0 [] [mkTile 0 0]) Hs)
    as (Hdec & _ & Hshort & Hexact).
  split; [exact Hs|].
  split; [exact (Hdec eq_refl)|].
  split; [apply (Hexact He 4%nat); cbn; lia|].
  split; [apply (Hshort 3%nat); cbn; lia|].
  destruct (Hstate sample_started (mkTile 0 0) (mkTile 3 1) 4%nat eq_refl Hs)
    as (s' & E & _ & Hsame); [cbn; lia|].
  rewrite E. f_equal. apply Hsame, He.
Defined.

(** C9, as stated, fails from column 2^53 on: from the double 2^53 to the
    double 2^53 + 2, an iteration adds one to the column, which rounds
    back to 2^53; the Manhattan distance stays 2, and the loop, and so
    [extendPathTo], is still running after any number of iterations. *)
Lemma extendPathTo_runs_forever_from_2_53 :
  let target := mkTile (2 ^ 53 + 2) 0 in
  let c := mkCursor (2 ^ 53) 0 [] [mkTile (2 ^ 53) 0] in
  (Double.round (2 ^ 53) = 2 ^ 53 /\
   Double.round (2 ^ 53 + 2) = 2 ^ 53 + 2 /\
   Double.round (2 ^ 53 + 1) = 2 ^ 53) /\
  Double.loop_body target c
    = mkCursor (2 ^ 53) 0 [Right] [mkTile (2 ^ 53) 0; mkTile (2 ^ 53) 0] /\
  manhattan target (Double.loop_body target c) = manhattan target c /\
  (forall fuel, Double.extend_loop_fuel fuel target c = None) /\
  (forall fuel, Double.extendPathTo fuel target sample_far = None).
Proof.
  cbv zeta. split; [repeat split|]. split; [reflexivity|].
  split; [reflexivity|]. split.
  - intros fuel. apply Double_stuck.
  - intros fuel. unfold Double.extendPathTo.
    change (lastTile sample_far) with (Some (mkTile (2 ^ 53) 0)).
    cbn [tx ty]. rewrite Double_stuck. reflexivity.
Qed.

(** ** Coordinate transform *)

Local Open Scope Q_scope.

(** C6.  With a positive scale, mapping a screen point to the world with
    [screenToWorld] and back with [worldToScreen] returns the point, exactly
    over the rationals.  The pan offset that [setZoom] computes for an
    absolute zoom is the one for which [worldToScreen] sends the world
    point that was under the centre of the content rectangle back to that
    centre. *)
Theorem worldToScreen_screenToWorld :
  forall s sx sy,
    0 < scale s ->
    (pt_x (worldToScreen s (screenToWorld s sx sy)) == sx /\
     pt_y (worldToScreen s (screenToWorld s sx sy)) == sy) /\
    (forall q,
       let rect := contentRect (layout s) in
       let mx := rect_x rect + rect_w rect / 2 in
       let my := rect_y rect + rect_h rect / 2 in
       pt_x (worldToScreen (setZoom (ZoomTo q) s) (screenToWorld s mx my))
         == mx /\
       pt_y (worldToScreen (setZoom (ZoomTo q) s) (screenToWorld s mx my))
         == my).
Proof.
  intros s sx sy Hs.
  assert (Hn : ~ scale s == 0) by (intros E; rewrite E in Hs; inversion Hs).
  split.
  - unfold worldToScreen, screenToWorld. simpl. split; field; exact Hn.
  - intros q rect mx my. unfold worldToScreen, setZoom, screenToWorld.
    cbn [scale panX panY pt_x pt_y set_scale set_panX set_panY set_zoomMode
         layout].
    fold rect. fold mx. fold my.
    split; field; exact Hn.
Qed.

Lemma worldToScreen_screenToWorld_witness :
  0 < scale sample_loaded /\
  pt_x (worldToScreen sample_loaded (screenToWorld sample_loaded 4 54)) == 4 /\
  pt_y (worldToScreen sample_loaded (screenToWorld sample_loaded 4 54)) == 54.
Proof.
  assert (Hs : 0 < scale sample_loaded) by reflexivity.
  split; [exact Hs|].
  exact (proj1 (worldToScreen_screenToWorld sample_loaded 4 54 Hs)).
Defined.

(** The anchoring of [setZoom] is the same inverse: after an absolute zoom
    the world point that was under the centre of the content rectangle is
    still there. *)
Lemma setZoom_keeps_centre s q :
  0 < scale s ->
  let rect := contentRect (layout s) in
  let mx := rect_x rect + rect_w rect / 2 in
  let my := rect_y rect + rect_h rect / 2 in
  let s' := setZoom (ZoomTo q) s in
  pt_x (screenToWorld s' mx my) == pt_x (screenToWorld s mx my) /\
  pt_y (screenToWorld s' mx my) == pt_y (screenToWorld s mx my).
Proof.
  intros Hs rect mx my s'.
  assert (Hn : ~ scale s == 0) by (intros E; rewrite E in Hs; inversion Hs).
  assert (Hc : ~ clamp q ZOOM_MIN ZOOM_MAX == 0).
  { unfold clamp. intros E.
    pose proof (Q.le_max_l ZOOM_MIN (Qmin ZOOM_MAX q)) as H.
    rewrite E in H. unfold ZOOM_MIN in H. apply (Qle_not_lt _ _ H).
    reflexivity. }
  subst s'. unfold setZoom, screenToWorld.
  cbn [scale panX panY pt_x pt_y set_scale set_panX set_panY set_zoomMode
       layout].
  fold rect. fold mx. fold my.
  split; field; split; assumption.
Qed.

(** ** Starting a path *)

Lemma withinImage_spec s wx wy :
  withinImage s wx wy = true <->
  (0 <= wx /\ wx <= imgW s) /\ (0 <= wy /\ wy <= imgH s).
Proof.
  unfold withinImage. rewrite !andb_true_iff, !Qle_bool_iff. tauto.
Qed.

Lemma withinImage2x_spec wx wy :
  Leaflet.withinImage2x wx wy = true <->
  (0 <= wx /\ wx <= Leaflet.IMG_W2) /\ (0 <= wy /\ wy <= Leaflet.IMG_H2).
Proof.
  unfold Leaflet.withinImage2x. rewrite !andb_true_iff, !Qle_bool_iff. tauto.
Qed.

Lemma startPathAtScreen_outside s sx sy :
  withinImage s (pt_x (screenToWorld s sx sy)) (pt_y (screenToWorld s sx sy))
    = false ->
  startPathAtScreen sx sy s = s.
Proof. intros H. unfold startPathAtScreen. rewrite H. reflexivity. Qed.

Lemma startPathAtScreen_inside s sx sy :
  let w := screenToWorld s sx sy in
  withinImage s (pt_x w) (pt_y w) = true ->
  let s' := startPathAtScreen sx sy s in
  pathTiles s' = [worldToTile (pt_x w) (pt_y w)] /\
  pathDirections s' = [] /\
  lastTile s' = Some (worldToTile (pt_x w) (pt_y w)) /\
  cmdOutput s' = EmptyString /\
  isPathDrawing s' = true.
Proof.
  intros w H s'. subst s'. unfold startPathAtScreen. fold w. rewrite H.
  cbn. repeat split.
Qed.

Lemma startPathAtEvent_outside w ls :
  Leaflet.withinImage2x (pt_x w) (pt_y w) = false ->
  Leaflet.startPathAtEvent w ls = ls.
Proof. intros H. unfold Leaflet.startPathAtEvent. rewrite H. reflexivity. Qed.

Lemma startPathAtEvent_inside w ls :
  Leaflet.withinImage2x (pt_x w) (pt_y w) = true ->
  let ls' := Leaflet.startPathAtEvent w ls in
  Leaflet.pathTiles ls' = [Leaflet.world2xToTile1x (pt_x w) (pt_y w)] /\
  Leaflet.pathDirections ls' = [] /\
  Leaflet.lastTile ls' = Some (Leaflet.world2xToTile1x (pt_x w) (pt_y w)) /\
  Leaflet.cmdOutput ls' = EmptyString /\
  Leaflet.isPathDrawing ls' = true.
Proof.
  intros H ls'. subst ls'. unfold Leaflet.startPathAtEvent. rewrite H.
  cbn. repeat split.
Qed.

(** C7.  [withinImage] holds exactly on the closed rectangle from (0, 0) to
    (imgW, imgH).  Starting a path at a point outside of it returns the
    state as it was; starting it inside replaces the path by the single
    tile of the point, with no direction and an empty output, and turns
    drawing on.  The same holds in the Leaflet script for the rectangle of
    the upscaled image. *)
Theorem startPath_outside_noop_inside_seeds :
  (forall s sx sy,
     let w := screenToWorld s sx sy in
     (withinImage s (pt_x w) (pt_y w) = true <->
      (0 <= pt_x w /\ pt_x w <= imgW s) /\
      (0 <= pt_y w /\ pt_y w <= imgH s)) /\
     (withinImage s (pt_x w) (pt_y w) = false ->
      startPathAtScreen sx sy s = s) /\
     (withinImage s (pt_x w) (pt_y w) = true ->
      let s' := startPathAtScreen sx sy s in
      pathTiles s' = [worldToTile (pt_x w) (pt_y w)] /\
      pathDirections s' = [] /\
      lastTile s' = Some (worldToTile (pt_x w) (pt_y w)) /\
      cmdOutput s' = EmptyString /\
      isPathDrawing s' = true)) /\
  (forall w ls,
     (Leaflet.withinImage2x (pt_x w) (pt_y w) = true <->
      (0 <= pt_x w /\ pt_x w <= Leaflet.IMG_W2) /\
      (0 <= pt_y w /\ pt_y w <= Leaflet.IMG_H2)) /\
     (Leaflet.withinImage2x (pt_x w) (pt_y w) = false ->
      Leaflet.startPathAtEvent w ls = ls) /\
     (Leaflet.withinImage2x (pt_x w) (pt_y w) = true ->
      let ls' := Leaflet.startPathAtEvent w ls in
      Leaflet.pathTiles ls' = [Leaflet.world2xToTile1x (pt_x w) (pt_y w)] /\
      Leaflet.pathDirections ls' = [] /\
      Leaflet.lastTile ls'
        = Some (Leaflet.world2xToTile1x (pt_x w) (pt_y w)) /\
      Leaflet.cmdOutput ls' = EmptyString /\
      Leaflet.isPathDrawing ls' = true)).
Proof.
  split.
  - intros s sx sy w.
    split; [apply withinImage_spec|].
    split; [apply startPathAtScreen_outside|apply startPathAtScreen_inside].
  - intros w ls.
    split; [apply withinImage2x_spec|].
    split; [apply startPathAtEvent_outside|apply startPathAtEvent_inside].
Qed.

Lemma startPath_outside_noop_inside_seeds_witness :
  withinImage sample_loaded
    (pt_x (screenToWorld sample_loaded 4 10))
    (pt_y (screenToWorld sample_loaded 4 10)) = false /\
  startPathAtScreen 4 10 sample_loaded = sample_loaded /\
  withinImage sample_loaded
    (pt_x (screenToWorld sample_loaded 4 54))
    (pt_y (screenToWorld sample_loaded 4 54)) = true /\
  pathTiles (startPathAtScreen 4 54 sample_loaded)
    = [worldToTile (pt_x (screenToWorld sample_loaded 4 54))
         (pt_y (screenToWorld sample_loaded 4 54))].
Proof.
  destruct (proj1 startPath_outside_noop_inside_seeds sample_loaded 4 10)
    as (_ & Hout & _).
  destruct (proj1 startPath_outside_noop_inside_seeds sample_loaded 4 54)
    as (_ & _ & Hin).
  split; [reflexivity|].
  split; [apply Hout; reflexivity|].
  split; [reflexivity|].
  apply Hin. reflexivity.
Defined.

Lemma tile_size_pos : 0 < TILE_SIZE.
Proof. reflexivity. Qed.

Lemma Qfloor_div_tile_exact (k : Z) (w : Q) :
  w == inject_Z k * TILE_SIZE -> Qfloor (w / TILE_SIZE) = k.
Proof.
  intros H. rewrite H. rewrite Qdiv_mult_l.
  - apply Qfloor_Z.
  - intros E. discriminate E.
Qed.

Lemma Qfloor_div_tile_below (k : Z) (w : Q) :
  w < inject_Z k * TILE_SIZE -> (Qfloor (w / TILE_SIZE) < k)%Z.
Proof.
  intros H. rewrite Zlt_Qlt.
  apply Qle_lt_trans with (w / TILE_SIZE); [apply Qfloor_le|].
  apply Qlt_shift_div_r; [apply tile_size_pos|exact H].
Qed.

Lemma Qfloor_div_tile_nonneg (w : Q) :
  0 <= w -> (0 <= Qfloor (w / TILE_SIZE))%Z.
Proof.
  intros H. change 0%Z with (Qfloor 0).
  apply Qfloor_resp_le. apply Qle_shift_div_l; [apply tile_size_pos|].
  rewrite Qmult_0_l. exact H.
Qed.

(** C10.  A path started at a world point whose x is exactly [imgW] (the
    y lying within the image) is accepted; when [imgW] is [k] tiles wide
    the seeded tile is in column [k], whereas every point of the image left
    of that edge lies in a column from 0 to [k - 1].  The same holds for a
    point whose y is exactly [imgH] and the rows. *)
Theorem startPath_on_far_edge_seeds_next_tile :
  forall s sx sy (k : Z),
    let w := screenToWorld s sx sy in
    let s' := startPathAtScreen sx sy s in
    (imgW s == inject_Z k * TILE_SIZE ->
     pt_x w == imgW s -> 0 <= imgW s ->
     0 <= pt_y w -> pt_y w <= imgH s ->
     isPathDrawing s' = true /\
     pathTiles s' = [mkTile k (Qfloor (pt_y w / TILE_SIZE))] /\
     (forall wx wy,
        0 <= wx -> wx < imgW s ->
        (0 <= tx (worldToTile wx wy) <= k - 1)%Z)) /\
    (imgH s == inject_Z k * TILE_SIZE ->
     pt_y w == imgH s -> 0 <= imgH s ->
     0 <= pt_x w -> pt_x w <= imgW s ->
     isPathDrawing s' = true /\
     pathTiles s' = [mkTile (Qfloor (pt_x w / TILE_SIZE)) k] /\
     (forall wx wy,
        0 <= wy -> wy < imgH s ->
        (0 <= ty (worldToTile wx wy) <= k - 1)%Z)).
Proof.
  intros s sx sy k w s'.
  pose proof (withinImage_spec s (pt_x w) (pt_y w)) as Hspec.
  pose proof (startPathAtScreen_inside s sx sy) as Hin.
  cbv zeta in Hin. fold w in Hin. fold s' in Hin.
  split.
  - intros Hk Hx Hw Hy0 Hy1.
    assert (Hwithin : withinImage s (pt_x w) (pt_y w) = true).
    { apply Hspec. rewrite Hx. repeat split; auto. apply Qle_refl. }
    destruct (Hin Hwithin) as (Ht & _ & _ & _ & Hd).
    split; [exact Hd|]. split.
    + rewrite Ht. unfold worldToTile.
      rewrite (Qfloor_div_tile_exact k (pt_x w)); [reflexivity|].
      rewrite Hx. exact Hk.
    + intros wx wy Hwx0 Hwx1. unfold worldToTile. cbn [tx ty].
      pose proof (Qfloor_div_tile_nonneg wx Hwx0).
      assert (Qfloor (wx / TILE_SIZE) < k)%Z; [|lia].
      apply Qfloor_div_tile_below. rewrite <- Hk. exact Hwx1.
  - intros Hk Hy Hh Hx0 Hx1.
    assert (Hwithin : withinImage s (pt_x w) (pt_y w) = true).
    { apply Hspec. rewrite Hy. repeat split; auto. apply Qle_refl. }
    destruct (Hin Hwithin) as (Ht & _ & _ & _ & Hd).
    split; [exact Hd|]. split.
    + rewrite Ht. unfold worldToTile.
      rewrite (Qfloor_div_tile_exact k (pt_y w)); [reflexivity|].
      rewrite Hy. exact Hk.
    + intros wx wy Hwy0 Hwy1. unfold worldToTile. cbn [tx ty].
      pose proof (Qfloor_div_tile_nonneg wy Hwy0).
      assert (Qfloor (wy / TILE_SIZE) < k)%Z; [|lia].
      apply Qfloor_div_tile_below. rewrite <- Hk. exact Hwy1.
Qed.

(** In the sample window the image is 1840 = 115 * 16 pixels wide; screen
    point (920, 54) is world point (1840, 8), on the right edge. *)
Lemma startPath_on_far_edge_seeds_next_tile_witness :
  imgW sample_loaded == inject_Z 115 * TILE_SIZE /\
  pt_x (screenToWorld sample_loaded 920 54) == imgW sample_loaded /\
  isPathDrawing (startPathAtScreen 920 54 sample_loaded) = true /\
  pathTiles (startPathAtScreen 920 54 sample_loaded) = [mkTile 115 0] /\
  (0 <= tx (worldToTile 1839 8) <= 115 - 1)%Z.
Proof.
  destruct (startPath_on_far_edge_seeds_next_tile sample_loaded 920 54 115)
    as [Hx _].
  assert (H1 : imgW sample_loaded == inject_Z 115 * TILE_SIZE) by reflexivity.
  assert (H2 : pt_x (screenToWorld sample_loaded 920 54)
               == imgW sample_loaded) by reflexivity.
  destruct (Hx H1 H2) as (Hd & Ht & Hcol);
    [discriminate | discriminate | discriminate |].
  split; [exact H1|]. split; [exact H2|]. split; [exact Hd|].
  split; [exact Ht|].
  apply (Hcol 1839 8); [discriminate | reflexivity].
Defined.

(** ** Extending towards a tile outside the image *)

Lemma tile_corner_le (w : Q) :
  inject_Z (Qfloor (w / TILE_SIZE)) * TILE_SIZE <= w.
Proof.
  assert (E : w == (w / TILE_SIZE) * TILE_SIZE).
  { field. intros H. discriminate H. }
  rewrite E at 2.
  apply Qmult_le_compat_r; [apply Qfloor_le|discriminate].
Qed.

Lemma tileWithinImage_spec s t :
  tileWithinImage s t = true <->
  exists wx wy, withinImage s wx wy = true /\ worldToTile wx wy = t.
Proof.
  unfold tileWithinImage.
  rewrite !andb_true_iff, !Qle_bool_iff, !Z.leb_le. split.
  - intros [[[Hx Hy] Hw] Hh].
    exists (inject_Z (tx t) * TILE_SIZE), (inject_Z (ty t) * TILE_SIZE).
    split.
    + apply withinImage_spec. repeat split; auto.
      * apply Qmult_le_0_compat; [|discriminate].
        rewrite Zle_Qle in Hx. exact Hx.
      * apply Qmult_le_0_compat; [|discriminate].
        rewrite Zle_Qle in Hy. exact Hy.
    + unfold worldToTile.
      rewrite !(Qfloor_div_tile_exact _ _ (Qeq_refl _)).
      destruct t; reflexivity.
  - intros (wx & wy & Hin & Ht).
    apply withinImage_spec in Hin. destruct Hin as [[Hx0 Hx1] [Hy0 Hy1]].
    subst t. unfold worldToTile. cbn [tx ty].
    repeat split.
    + apply Qfloor_div_tile_nonneg, Hx0.
    + apply Qfloor_div_tile_nonneg, Hy0.
    + apply Qle_trans with wx; [apply tile_corner_le|exact Hx1].
    + apply Qle_trans with wy; [apply tile_corner_le|exact Hy1].
Qed.



Example extendPathTo_outside_image_example :
  pathTiles (extendPathTo (mkTile (-2) 0) sample_started)
    = [mkTile 0 0; mkTile (-1) 0; mkTile (-2) 0] /\
  pathDirections (extendPathTo (mkTile (-2) 0) sample_started)
    = [Left; Left].
Proof.
  destruct (extendPathTo_active (mkTile (-2) 0) (mkTile 0 0) sample_started
              eq_refl) as (Ht & Hd & _).
  rewrite Ht, Hd.
  change (entry_cursor (mkTile 0 0) sample_started)
    with (mkCursor 0 0 [] [mkTile 0 0]).
  do 3 (rewrite extend_loop_iterate; simpl). split; reflexivity.
Qed.

(** The pointer-level caller does test the bounds: a move to a screen
    point outside the image leaves the state as it was. *)
Lemma movePathAtScreen_outside_ignored s sx sy ptype ctrl :
  withinImage s (pt_x (screenToWorld s sx sy)) (pt_y (screenToWorld s sx sy))
    = false ->
  movePathAtScreen sx sy ptype ctrl s = s.
Proof.
  intros H. unfold movePathAtScreen.
  destruct (isPathDrawing s); cbn [negb]; [rewrite H|]; reflexivity.
Qed.

(** ** The path invariant *)

Local Open Scope Z_scope.

Lemma dirFromStep_unit dx dy d :
  dirFromStep dx dy = Some d ->
  (Z.abs dx = 1 /\ dy = 0) \/ (dx = 0 /\ Z.abs dy = 1).
Proof.
  unfold dirFromStep.
  destruct (Z.eqb_spec dx 1), (Z.eqb_spec dx (-1)), (Z.eqb_spec dx 0),
    (Z.eqb_spec dy 0), (Z.eqb_spec dy 1), (Z.eqb_spec dy (-1));
    simpl; intros H; try discriminate H; lia.
Qed.

Lemma walk_nth rest : forall first ds i a b,
  walk first rest ds ->
  nth_error (first :: rest) i = Some a ->
  nth_error (first :: rest) (S i) = Some b ->
  exists d, nth_error ds i = Some d /\ step_token a b = Some d.
Proof.
  induction rest as [|t rest IH]; intros first ds i a b Hw Ha Hb.
  - destruct i; discriminate Hb.
  - destruct ds as [|d ds]; [contradiction|]. destruct Hw as [Hd Hw].
    destruct i as [|i].
    + simpl in Ha, Hb. injection Ha as <-. injection Hb as <-.
      exists d. split; [reflexivity|exact Hd].
    + simpl. apply (IH t ds i a b Hw); assumption.
Qed.

Lemma path_ok_shape cells ds lt :
  path_ok cells ds lt ->
  (cells = [] /\ ds = []) \/ path_shape cells ds.
Proof.
  destruct cells as [|first rest]; simpl.
  - intros [Hd _]. left. auto.
  - intros [Hw _]. right. split; [|split].
    + unfold directions_one_fewer. rewrite (walk_length _ _ _ Hw).
      simpl List.length. lia.
    + intros i a b Ha Hb.
      destruct (walk_nth _ _ _ _ _ _ Hw Ha Hb) as (d & _ & Hd).
      apply dirFromStep_unit in Hd. unfold unit_step. lia.
    + intros i a b d Ha Hb Hd.
      destruct (walk_nth _ _ _ _ _ _ Hw Ha Hb) as (d' & Hd' & Ht).
      congruence.
Qed.

Lemma last_app_default {A : Type} (l1 l2 : list A) (d : A) :
  last (l1 ++ l2) d = last l2 (last l1 d).
Proof.
  revert d. induction l1 as [|x l1 IH]; intros d; [reflexivity|].
  rewrite <- app_comm_cons, !last_cons. apply IH.
Qed.

Lemma declared_PathInvariant l : PathInvariant (declared l).
Proof. split; reflexivity. Qed.

Lemma clearPath_PathInvariant s : PathInvariant (clearPath s).
Proof. split; reflexivity. Qed.

Lemma endPath_PathInvariant s : PathInvariant s -> PathInvariant (endPath s).
Proof. intros H. exact H. Qed.

Lemma startPathAtScreen_PathInvariant sx sy s :
  PathInvariant s -> PathInvariant (startPathAtScreen sx sy s).
Proof.
  intros H. unfold startPathAtScreen.
  destruct (withinImage s _ _); cbn [negb]; [|exact H].
  split; reflexivity.
Qed.

Lemma extendPathTo_PathInvariant target s :
  PathInvariant s -> PathInvariant (extendPathTo target s).
Proof.
  intros H. destruct (lastTile s) as [lastT|] eqn:Hl.
  - destruct (extendPathTo_active target lastT s Hl) as (Ht & Hd & Hlast).
    destruct (extend_loop_appends target (entry_cursor lastT s))
      as (ts & ds & Hts & Hds & Hw & _ & Hend).
    unfold PathInvariant in *. rewrite Ht, Hd, Hlast, Hts, Hds.
    unfold entry_cursor in *. cbn [cx cy tiles dirs] in *.
    destruct (pathTiles s) as [|first rest]; simpl in H.
    + destruct H as [_ H]. congruence.
    + destruct H as [Hw0 Hl0]. rewrite Hl in Hl0. injection Hl0 as ->.
      replace (mkTile (tx (last rest first)) (ty (last rest first)))
        with (last rest first) in Hw, Hend
        by (destruct (last rest first); reflexivity).
      simpl. split.
      * apply walk_app; assumption.
      * rewrite last_app_default, Hend. reflexivity.
  - rewrite (extendPathTo_inactive _ _ Hl). exact H.
Qed.

(** *** The invariant along the event handlers *)

Create HintDb path_inv.

#[local] Hint Resolve declared_PathInvariant clearPath_PathInvariant
  endPath_PathInvariant startPathAtScreen_PathInvariant
  extendPathTo_PathInvariant : path_inv.

(** Splits the conditionals of a handler and strips the assignments to
    variables that the invariant does not read. *)
Ltac path_inv_split :=
  repeat match goal with
  | |- PathInvariant (if ?b then _ else _) => destruct b
  | |- PathInvariant (match ?x with _ => _ end) => destruct x
  | |- PathInvariant (let (_, _) := ?x in _) => destruct x
  | H : PathInvariant ?s |- PathInvariant ?s => exact H
  | |- PathInvariant (clearPath _) => apply clearPath_PathInvariant
  | |- PathInvariant (?f ?v ?s) => change (PathInvariant s)
  | |- PathInvariant (?f ?s) => change (PathInvariant s)
  | |- PathInvariant _ => progress auto with path_inv
  end.

Ltac path_inv_unfold f := intros; unfold f; cbv zeta; path_inv_split.

Lemma movePathAtScreen_PathInvariant sx sy ptype ctrl s :
  PathInvariant s -> PathInvariant (movePathAtScreen sx sy ptype ctrl s).
Proof. path_inv_unfold movePathAtScreen. Qed.

Lemma computeFitAndCenter_PathInvariant s :
  PathInvariant s -> PathInvariant (computeFitAndCenter s).
Proof. intros H. exact H. Qed.

Lemma setZoom_PathInvariant mode s :
  PathInvariant s -> PathInvariant (setZoom mode s).
Proof. intros H. destruct mode; exact H. Qed.

Lemma onResize_PathInvariant l s :
  PathInvariant s -> PathInvariant (onResize l s).
Proof. intros H. unfold onResize. cbv zeta. path_inv_split. Qed.

Lemma pinchMove_PathInvariant dist s :
  PathInvariant s -> PathInvariant (pinchMove dist s).
Proof. path_inv_unfold pinchMove. Qed.

Lemma panMove_PathInvariant e s :
  PathInvariant s -> PathInvariant (panMove e s).
Proof. intros H. exact H. Qed.

#[local] Hint Resolve movePathAtScreen_PathInvariant
  computeFitAndCenter_PathInvariant setZoom_PathInvariant
  onResize_PathInvariant pinchMove_PathInvariant panMove_PathInvariant
  : path_inv.

Lemma Gated_beginTouchDraw_PathInvariant id x y s :
  PathInvariant s -> PathInvariant (Gated.beginTouchDraw id x y s).
Proof. path_inv_unfold Gated.beginTouchDraw. Qed.

Lemma Gated_abortDrawing_PathInvariant clear s :
  PathInvariant s -> PathInvariant (Gated.abortDrawing clear s).
Proof. path_inv_unfold Gated.abortDrawing. Qed.

#[local] Hint Resolve Gated_beginTouchDraw_PathInvariant
  Gated_abortDrawing_PathInvariant : path_inv.

Lemma Gated_tryStartCandidateIfMoved_PathInvariant hypot e s :
  PathInvariant s ->
  PathInvariant (Gated.tryStartCandidateIfMoved hypot e s).
Proof. path_inv_unfold Gated.tryStartCandidateIfMoved. Qed.

#[local] Hint Resolve Gated_tryStartCandidateIfMoved_PathInvariant : path_inv.

Lemma Gated_step_PathInvariant hypot ev s :
  PathInvariant s -> PathInvariant (Gated.step hypot ev s).
Proof.
  intros H. destruct ev as [e|e|e| |mode|l]; cbn [Gated.step].
  - path_inv_unfold Gated.onPointerDown.
  - path_inv_unfold Gated.onPointerMove.
  - path_inv_unfold Gated.onPointerUp.
  - path_inv_unfold Gated.onDrawTimer.
  - auto with path_inv.
  - auto with path_inv.
Qed.

Lemma Direct_step_PathInvariant hypot ev s :
  PathInvariant s -> PathInvariant (Direct.step hypot ev s).
Proof.
  intros H. destruct ev as [e|e|e| |mode|l]; cbn [Direct.step].
  - path_inv_unfold Direct.onPointerDown.
  - path_inv_unfold Direct.onPointerMove.
  - path_inv_unfold Direct.onPointerUp.
  - exact H.
  - auto with path_inv.
  - auto with path_inv.
Qed.

Lemma Gated_run_PathInvariant hypot evs : forall s,
  PathInvariant s -> PathInvariant (Gated.run hypot evs s).
Proof.
  unfold Gated.run. induction evs as [|ev evs IH]; intros s H; simpl.
  - exact H.
  - apply IH, Gated_step_PathInvariant, H.
Qed.

Lemma Direct_run_PathInvariant hypot evs : forall s,
  PathInvariant s -> PathInvariant (Direct.run hypot evs s).
Proof.
  unfold Direct.run. induction evs as [|ev evs IH]; intros s H; simpl.
  - exact H.
  - apply IH, Direct_step_PathInvariant, H.
Qed.




(** ** Zoom bounds *)

Local Open Scope Q_scope.

Lemma clamp_bounds v a b : a <= b -> a <= clamp v a b /\ clamp v a b <= b.
Proof.
  intros Hab. unfold clamp. split.
  - apply Q.le_max_l.
  - apply Q.max_lub; [exact Hab|apply Q.le_min_l].
Qed.

Lemma clamp_inside v a b : a <= v -> v <= b -> clamp v a b == v.
Proof.
  intros Ha Hb. unfold clamp.
  rewrite (Q.min_r b v Hb). apply Q.max_r, Ha.
Qed.

Lemma clamp_below v a b : a <= b -> v <= a -> clamp v a b == a.
Proof.
  intros Hab Hv. unfold clamp. apply Q.max_l.
  apply Qle_trans with v; [apply Q.le_min_r|exact Hv].
Qed.

Lemma clamp_above v a b : a <= b -> b <= v -> clamp v a b == b.
Proof.
  intros Hab Hv. unfold clamp.
  rewrite (Q.min_l b v Hv). apply Q.max_r, Hab.
Qed.

Lemma zoom_bounds_ordered : ZOOM_MIN <= ZOOM_MAX.
Proof. discriminate. Qed.

Lemma set_scale_clamp_in_bounds v s :
  scale_in_bounds (set_scale (clamp v ZOOM_MIN ZOOM_MAX) s).
Proof. apply clamp_bounds, zoom_bounds_ordered. Qed.

Lemma computeFitAndCenter_scale s :
  scale (computeFitAndCenter s) = fit_ratio (layout s) s.
Proof. reflexivity. Qed.

Create HintDb scale_inv.

(** Splits the conditionals of a handler and strips the assignments to
    variables other than [scale]. *)
Ltac scale_split :=
  repeat match goal with
  | |- scale_in_bounds (if ?b then _ else _) => destruct b
  | |- scale_in_bounds (match ?x with _ => _ end) => destruct x
  | H : scale_in_bounds ?s |- scale_in_bounds ?s => exact H
  | |- scale_in_bounds (set_scale (clamp _ ZOOM_MIN ZOOM_MAX) _) =>
      apply set_scale_clamp_in_bounds
  | |- scale_in_bounds (?f ?v ?s) => change (scale_in_bounds s)
  | |- scale_in_bounds (?f ?s) => change (scale_in_bounds s)
  | |- scale_in_bounds _ => progress auto with scale_inv
  end.

Ltac scale_unfold f := intros; unfold f; cbv zeta; scale_split.

Lemma clearPath_scale s : scale_in_bounds s -> scale_in_bounds (clearPath s).
Proof. intros H. exact H. Qed.

Lemma extendPathTo_scale t s :
  scale_in_bounds s -> scale_in_bounds (extendPathTo t s).
Proof. scale_unfold extendPathTo. Qed.

Lemma startPathAtScreen_scale sx sy s :
  scale_in_bounds s -> scale_in_bounds (startPathAtScreen sx sy s).
Proof.
  intros H. unfold startPathAtScreen.
  destruct (withinImage _ _ _); cbn [negb]; [|exact H].
  split; [apply (proj1 H)|apply (proj2 H)].
Qed.

#[local] Hint Resolve clearPath_scale extendPathTo_scale
  startPathAtScreen_scale : scale_inv.

Lemma movePathAtScreen_scale sx sy ptype ctrl s :
  scale_in_bounds s ->
  scale_in_bounds (movePathAtScreen sx sy ptype ctrl s).
Proof. scale_unfold movePathAtScreen. Qed.

Lemma pinchMove_scale dist s :
  scale_in_bounds s -> scale_in_bounds (pinchMove dist s).
Proof. scale_unfold pinchMove. Qed.

Lemma panMove_scale e s : scale_in_bounds s -> scale_in_bounds (panMove e s).
Proof. intros H. exact H. Qed.

#[local] Hint Resolve movePathAtScreen_scale pinchMove_scale panMove_scale
  : scale_inv.

Lemma Gated_beginTouchDraw_scale id x y s :
  scale_in_bounds s -> scale_in_bounds (Gated.beginTouchDraw id x y s).
Proof. scale_unfold Gated.beginTouchDraw. Qed.

Lemma Gated_abortDrawing_scale clear s :
  scale_in_bounds s -> scale_in_bounds (Gated.abortDrawing clear s).
Proof. scale_unfold Gated.abortDrawing. Qed.

#[local] Hint Resolve Gated_beginTouchDraw_scale Gated_abortDrawing_scale
  : scale_inv.

Lemma Gated_tryStartCandidateIfMoved_scale hypot e s :
  scale_in_bounds s ->
  scale_in_bounds (Gated.tryStartCandidateIfMoved hypot e s).
Proof. scale_unfold Gated.tryStartCandidateIfMoved. Qed.

#[local] Hint Resolve Gated_tryStartCandidateIfMoved_scale : scale_inv.

Lemma Gated_refit_scale hypot ev s l :
  refit_layout ev s = Some l ->
  scale (Gated.step hypot ev s) = fit_ratio l s.
Proof.
  intros H. destruct ev as [e|e|e| |[|q]|l']; try discriminate H.
  - injection H as <-. reflexivity.
  - unfold refit_layout in H. cbn [Gated.step]. unfold onResize. cbv zeta.
    change (zoomMode (set_layout l' s)) with (zoomMode s).
    destruct (zoomMode s); [|discriminate H].
    injection H as <-. reflexivity.
Qed.

Lemma Direct_refit_scale hypot ev s l :
  refit_layout ev s = Some l ->
  scale (Direct.step hypot ev s) = fit_ratio l s.
Proof.
  intros H. destruct ev as [e|e|e| |[|q]|l']; try discriminate H.
  - injection H as <-. reflexivity.
  - unfold refit_layout in H. cbn [Direct.step]. unfold onResize. cbv zeta.
    change (zoomMode (set_layout l' s)) with (zoomMode s).
    destruct (zoomMode s); [|discriminate H].
    injection H as <-. reflexivity.
Qed.

(** One step of either script: an event that does not recompute the fit
    keeps the scale within the bounds; one that does sets the fit ratio. *)
Lemma Gated_step_scale hypot ev s :
  scale_in_bounds s ->
  (forall l, refit_layout ev s = Some l ->
             ZOOM_MIN <= fit_ratio l s /\ fit_ratio l s <= ZOOM_MAX) ->
  scale_in_bounds (Gated.step hypot ev s).
Proof.
  intros H Hfit. destruct ev as [e|e|e| |[|q]|l]; cbn [Gated.step].
  - scale_unfold Gated.onPointerDown.
  - scale_unfold Gated.onPointerMove.
  - scale_unfold Gated.onPointerUp.
  - scale_unfold Gated.onDrawTimer.
  - apply (Hfit (layout s)). reflexivity.
  - scale_unfold setZoom.
  - unfold onResize. cbv zeta.
    change (zoomMode (set_layout l s)) with (zoomMode s).
    simpl in Hfit. destruct (zoomMode s).
    + apply (Hfit l). reflexivity.
    + scale_split.
Qed.

Lemma Direct_step_scale hypot ev s :
  scale_in_bounds s ->
  (forall l, refit_layout ev s = Some l ->
             ZOOM_MIN <= fit_ratio l s /\ fit_ratio l s <= ZOOM_MAX) ->
  scale_in_bounds (Direct.step hypot ev s).
Proof.
  intros H Hfit. destruct ev as [e|e|e| |[|q]|l]; cbn [Direct.step].
  - scale_unfold Direct.onPointerDown.
  - scale_unfold Direct.onPointerMove.
  - scale_unfold Direct.onPointerUp.
  - exact H.
  - apply (Hfit (layout s)). reflexivity.
  - scale_unfold setZoom.
  - unfold onResize. cbv zeta.
    change (zoomMode (set_layout l s)) with (zoomMode s).
    simpl in Hfit. destruct (zoomMode s).
    + apply (Hfit l). reflexivity.
    + scale_split.
Qed.

Lemma Gated_run_scale hypot evs : forall s,
  scale_in_bounds s ->
  fits_within_bounds (Gated.step hypot) evs s ->
  scale_in_bounds (Gated.run hypot evs s).
Proof.
  unfold Gated.run. induction evs as [|ev evs IH]; intros s H Hfit; simpl.
  - exact H.
  - destruct Hfit as [Hev Hrest].
    apply IH; [apply Gated_step_scale; assumption|exact Hrest].
Qed.

Lemma Direct_run_scale hypot evs : forall s,
  scale_in_bounds s ->
  fits_within_bounds (Direct.step hypot) evs s ->
  scale_in_bounds (Direct.run hypot evs s).
Proof.
  unfold Direct.run. induction evs as [|ev evs IH]; intros s H Hfit; simpl.
  - exact H.
  - destruct Hfit as [Hev Hrest].
    apply IH; [apply Direct_step_scale; assumption|exact Hrest].
Qed.

Lemma pinchMove_sets_clamp dist s a b :
  getTwoPointers s = Some (a, b) ->
  0 < pinchStartDist s ->
  scale (pinchMove dist s) =
  clamp (pinchStartScale s * (dist a b / pinchStartDist s)) ZOOM_MIN ZOOM_MAX.
Proof.
  intros Hp Hd. unfold pinchMove. rewrite Hp.
  unfold Qgtb. apply Qgt_alt in Hd. rewrite Hd. reflexivity.
Qed.

Lemma pinchMove_degenerate dist s :
  pinchStartDist s <= 0 -> pinchMove dist s = s.
Proof.
  intros Hd. unfold pinchMove.
  destruct (getTwoPointers s) as [[a b]|]; [|reflexivity].
  unfold Qgtb. destruct (pinchStartDist s ?= 0) eqn:E; try reflexivity.
  apply Qgt_alt in E. exfalso. apply (Qle_not_lt _ _ Hd E).
Qed.

(** C2, as stated, fails on fit-to-container: after an absolute zoom to
    100% the scale is within the bounds, and a click on the fit button then
    sets it to 710 / 7200, below [ZOOM_MIN]. *)
Lemma fit_scale_below_ZOOM_MIN :
  scale_in_bounds (setZoom (ZoomTo 1) sample_large) /\
  ~ scale_in_bounds (setZoom ZoomFit (setZoom (ZoomTo 1) sample_large)).
Proof.
  split.
  - split; discriminate.
  - intros [Hmin _]. apply Hmin. reflexivity.
Qed.

(** C2, amended.  An absolute zoom command sets the scale to the request
    clamped into [ZOOM_MIN, ZOOM_MAX]: a request below the range gives
    [ZOOM_MIN], one above gives [ZOOM_MAX], one inside is taken as it is.
    A pinch update with a positive start distance sets the clamped product
    of the start scale and the distance ratio, and one with a start
    distance of zero changes nothing.  An event that recomputes the fit (a
    click on the fit button, a resize in fit mode) sets the scale to the
    fit ratio, which is not clamped; a resize in absolute mode leaves the
    scale as it is.  Hence, in both scripts of script.js,
    from a scale within the bounds the scale stays within the bounds along
    every sequence of events in which each fit ratio computed lies within
    the bounds. *)
Theorem scale_within_bounds_unless_fit :
  (forall s q,
     scale (setZoom (ZoomTo q) s) = clamp q ZOOM_MIN ZOOM_MAX /\
     scale_in_bounds (setZoom (ZoomTo q) s)) /\
  (forall q,
     (q <= ZOOM_MIN -> clamp q ZOOM_MIN ZOOM_MAX == ZOOM_MIN) /\
     (ZOOM_MAX <= q -> clamp q ZOOM_MIN ZOOM_MAX == ZOOM_MAX) /\
     (ZOOM_MIN <= q -> q <= ZOOM_MAX -> clamp q ZOOM_MIN ZOOM_MAX == q)) /\
  (forall dist s,
     (forall a b,
        getTwoPointers s = Some (a, b) -> 0 < pinchStartDist s ->
        scale (pinchMove dist s) =
        clamp (pinchStartScale s * (dist a b / pinchStartDist s))
          ZOOM_MIN ZOOM_MAX /\
        scale_in_bounds (pinchMove dist s)) /\
     (pinchStartDist s <= 0 -> pinchMove dist s = s)) /\
  (forall hypot ev s l,
     refit_layout ev s = Some l ->
     scale (Gated.step hypot ev s) = fit_ratio l s /\
     scale (Direct.step hypot ev s) = fit_ratio l s) /\
  (forall l s, zoomMode s = ModeAbs -> scale (onResize l s) = scale s) /\
  (forall l, scale_in_bounds (declared l)) /\
  (forall hypot evs s,
     scale_in_bounds s ->
     (fits_within_bounds (Gated.step hypot) evs s ->
      scale_in_bounds (Gated.run hypot evs s)) /\
     (fits_within_bounds (Direct.step hypot) evs s ->
      scale_in_bounds (Direct.run hypot evs s))).
Proof.
  split; [|split; [|split; [|split; [|split; [|split]]]]].
  - intros s q. split; [reflexivity|].
    apply (set_scale_clamp_in_bounds q).
  - intros q. split; [|split].
    + apply clamp_below, zoom_bounds_ordered.
    + apply clamp_above, zoom_bounds_ordered.
    + apply clamp_inside.
  - intros dist s. split.
    + intros a b Hp Hd.
      pose proof (pinchMove_sets_clamp dist s a b Hp Hd) as E.
      split; [exact E|].
      unfold scale_in_bounds. rewrite E.
      apply clamp_bounds, zoom_bounds_ordered.
    + apply pinchMove_degenerate.
  - intros hypot ev s l H. split.
    + apply Gated_refit_scale, H.
    + apply Direct_refit_scale, H.
  - intros l s Hm. unfold onResize. cbv zeta.
    change (zoomMode (set_layout l s)) with (zoomMode s).
    rewrite Hm. reflexivity.
  - intros l. split; discriminate.
  - intros hypot evs s H. split.
    + apply Gated_run_scale, H.
    + apply Direct_run_scale, H.
Qed.

Lemma scale_within_bounds_unless_fit_witness :
  scale_in_bounds sample_loaded /\
  fits_within_bounds (Gated.step hypot_milli) sample_zoom_session
    sample_loaded /\
  scale_in_bounds (Gated.run hypot_milli sample_zoom_session sample_loaded) /\
  (clamp 20 ZOOM_MIN ZOOM_MAX == ZOOM_MAX)%Q.
Proof.
  destruct scale_within_bounds_unless_fit
    as (_ & Hclamp & _ & _ & _ & _ & Hrun).
  assert (H0 : scale_in_bounds sample_loaded) by (split; discriminate).
  assert (Hf : fits_within_bounds (Gated.step hypot_milli)
                 sample_zoom_session sample_loaded).
  { unfold sample_zoom_session.
    repeat (cbn [fits_within_bounds];
            split; [intros l H; vm_compute in H; discriminate H|]).
    exact I. }
  split; [exact H0|]. split; [exact Hf|].
  split; [exact (proj1 (Hrun hypot_milli sample_zoom_session sample_loaded H0) Hf)|].
  apply (proj1 (proj2 (Hclamp 20%Q))). discriminate.
Defined.

(** ** Gesture modes *)

Local Open Scope Z_scope.

Lemma pointers_size_set {V : Type} id (p : V) m :
  pointers_size m <= pointers_size (pointers_set id p m) <= pointers_size m + 1
  /\ 1 <= pointers_size (pointers_set id p m).
Proof.
  unfold pointers_size. induction m as [|[k v] m IH]; simpl; [lia|].
  destruct (k =? id); simpl List.length; lia.
Qed.

Lemma pointers_size_set_has {V : Type} id (p : V) m :
  pointers_has id m = true ->
  pointers_size (pointers_set id p m) = pointers_size m.
Proof.
  unfold pointers_size. induction m as [|[k v] m IH]; simpl; [discriminate|].
  destruct (k =? id); simpl; [reflexivity|].
  intros H. specialize (IH H). lia.
Qed.

Lemma pointers_size_delete {V : Type} id (m : list (Z * V)) :
  pointers_size (pointers_delete id m) <= pointers_size m.
Proof.
  unfold pointers_size. induction m as [|[k v] m IH]; simpl; [lia|].
  destruct (k =? id); simpl List.length; lia.
Qed.

Lemma pointers_set_nonempty {V : Type} id (p : V) m :
  pointers_set id p m <> [].
Proof. destruct m as [|[k v] m]; simpl; [|destruct (k =? id)]; discriminate. Qed.

(** Case analysis on every conditional of a handler. *)
Ltac split_ifs :=
  repeat match goal with
  | |- context [if ?b then _ else _] => destruct b eqn:?
  | |- context [match ?x with _ => _ end] => destruct x eqn:?
  end.

Ltac bool_to_prop :=
  repeat match goal with
  | H : (_ =? _)%Z = true |- _ => apply Z.eqb_eq in H
  | H : (_ =? _)%Z = false |- _ => apply Z.eqb_neq in H
  | H : (_ <? _)%Z = true |- _ => apply Z.ltb_lt in H
  | H : (_ <? _)%Z = false |- _ => apply Z.ltb_ge in H
  | H : (_ <=? _)%Z = true |- _ => apply Z.leb_le in H
  | H : (_ <=? _)%Z = false |- _ => apply Z.leb_gt in H
  | H : _ && _ = true |- _ => apply andb_true_iff in H; destruct H
  | H : negb _ = true |- _ => apply negb_true_iff in H
  | H : negb _ = false |- _ => apply negb_false_iff in H
  end.

Ltac use_premises :=
  repeat match goal with
  | H : ?P -> _, H' : ?P |- _ => specialize (H H')
  | H : ?x = ?x -> _ |- _ => specialize (H eq_refl)
  | H : _ /\ _ |- _ => destruct H
  end.

Ltac flags_done :=
  unfold pointers_size in *; simpl List.length in *;
  repeat split; intros; use_premises; try congruence; try lia.

Ltac flags_cbn :=
  cbn -[pointers_size pointers_set pointers_delete pointers_has
        Z.eqb Z.ltb Z.leb Qle_bool Qgtb extend_loop join_directions
        withinImage worldToTile screenToWorld] in *.

Ltac flags_crush := flags_cbn; split_ifs; flags_cbn; bool_to_prop; flags_done.

(** Unfolds the helpers that the handlers call down to assignments. *)
Ltac unfold_helpers :=
  unfold pinchMove, panMove, Gated.tryStartCandidateIfMoved,
    Gated.beginTouchDraw, Gated.abortDrawing, Gated.cancelTouchCandidate,
    movePathAtScreen, startPathAtScreen, extendPathTo, endPath,
    getTwoPointers, clearPath;
  cbv zeta.

Lemma Gated_onPointerDown_touch_inv hypot e s :
  pointerType e = touch ->
  Gated_touch_inv s -> Gated_touch_inv (Gated.onPointerDown hypot e s).
Proof.
  intros Ht (Hpan & Hpinch & Hdraw).
  pose proof (pointers_size_set (pointerId e)
                (mkPointer (clientX e) (clientY e) (pointerType e))
                (pointers s)).
  unfold Gated_touch_inv, Gated.onPointerDown. rewrite Ht in *.
  unfold_helpers. set (m := pointers_set _ _ _) in *.
  flags_crush.
Qed.

Lemma Gated_onPointerMove_touch_inv hypot e s :
  pointerType e = touch ->
  Gated_touch_inv s -> Gated_touch_inv (Gated.onPointerMove hypot e s).
Proof.
  intros Ht (Hpan & Hpinch & Hdraw).
  pose proof (pointers_size_set_has (pointerId e)
                (mkPointer (clientX e) (clientY e) (pointerType e))
                (pointers s)).
  unfold Gated_touch_inv, Gated.onPointerMove. rewrite Ht in *.
  unfold_helpers. set (m := pointers_set _ _ _) in *.
  flags_crush.
Qed.

Lemma Gated_onPointerUp_touch_inv e s :
  pointerType e = touch ->
  Gated_touch_inv s -> Gated_touch_inv (Gated.onPointerUp e s).
Proof.
  intros Ht (Hpan & Hpinch & Hdraw).
  pose proof (pointers_size_delete (pointerId e) (pointers s)).
  unfold Gated_touch_inv, Gated.onPointerUp. rewrite Ht in *.
  unfold_helpers. set (m := pointers_delete _ _) in *.
  flags_crush.
Qed.

Lemma Gated_onDrawTimer_touch_inv s :
  Gated_touch_inv s -> Gated_touch_inv (Gated.onDrawTimer s).
Proof.
  intros (Hpan & Hpinch & Hdraw).
  unfold Gated_touch_inv, Gated.onDrawTimer.
  unfold_helpers. flags_crush.
Qed.

Lemma viewport_ops_keep_flags ev s :
  match ev with
  | ZoomClick mode =>
      let s' := setZoom mode s in
      pointers s' = pointers s /\ isPanning s' = isPanning s /\
      isPinching s' = isPinching s /\ isPathDrawing s' = isPathDrawing s /\
      drawCandidate s' = drawCandidate s
  | Resize l =>
      let s' := onResize l s in
      pointers s' = pointers s /\ isPanning s' = isPanning s /\
      isPinching s' = isPinching s /\ isPathDrawing s' = isPathDrawing s /\
      drawCandidate s' = drawCandidate s
  | _ => True
  end.
Proof.
  destruct ev as [e|e|e| |[|q]|l]; try exact I; cbv zeta.
  - repeat split.
  - repeat split.
  - unfold onResize. cbv zeta.
    change (zoomMode (set_layout l s)) with (zoomMode s).
    destruct (zoomMode s); repeat split.
Qed.

Lemma Gated_step_touch_inv hypot ev s :
  touch_event ev ->
  Gated_touch_inv s -> Gated_touch_inv (Gated.step hypot ev s).
Proof.
  intros Hev H. destruct ev as [e|e|e| |mode|l]; cbn [Gated.step].
  - apply Gated_onPointerDown_touch_inv; assumption.
  - apply Gated_onPointerMove_touch_inv; assumption.
  - apply Gated_onPointerUp_touch_inv; assumption.
  - apply Gated_onDrawTimer_touch_inv; assumption.
  - destruct (viewport_ops_keep_flags (ZoomClick mode) s)
      as (Hp & Ha & Hi & Hd & _).
    destruct H as (H1 & H2 & H3). unfold Gated_touch_inv.
    rewrite Hp, Ha, Hi, Hd. auto.
  - destruct (viewport_ops_keep_flags (Resize l) s)
      as (Hp & Ha & Hi & Hd & _).
    destruct H as (H1 & H2 & H3). unfold Gated_touch_inv.
    rewrite Hp, Ha, Hi, Hd. auto.
Qed.

Lemma Direct_onPointerDown_touch_inv hypot e s :
  pointerType e = touch ->
  Direct_touch_inv s -> Direct_touch_inv (Direct.onPointerDown hypot e s).
Proof.
  intros Ht (Hpan & Hpinch & Hdraw).
  pose proof (pointers_size_set (pointerId e)
                (mkPointer (clientX e) (clientY e) (pointerType e))
                (pointers s)).
  unfold Direct_touch_inv, Direct.onPointerDown. rewrite Ht in *.
  unfold_helpers. set (m := pointers_set _ _ _) in *.
  flags_crush.
Qed.

Lemma Direct_onPointerMove_touch_inv hypot e s :
  pointerType e = touch ->
  Direct_touch_inv s -> Direct_touch_inv (Direct.onPointerMove hypot e s).
Proof.
  intros Ht (Hpan & Hpinch & Hdraw).
  pose proof (pointers_size_set_has (pointerId e)
                (mkPointer (clientX e) (clientY e) (pointerType e))
                (pointers s)).
  unfold Direct_touch_inv, Direct.onPointerMove. rewrite Ht in *.
  unfold_helpers. set (m := pointers_set _ _ _) in *.
  flags_crush.
Qed.

Lemma Direct_onPointerUp_touch_inv e s :
  pointerType e = touch ->
  Direct_touch_inv s -> Direct_touch_inv (Direct.onPointerUp e s).
Proof.
  intros Ht (Hpan & Hpinch & Hdraw).
  pose proof (pointers_size_delete (pointerId e) (pointers s)).
  unfold Direct_touch_inv, Direct.onPointerUp. rewrite Ht in *.
  unfold_helpers. set (m := pointers_delete _ _) in *.
  flags_crush.
Qed.

Lemma Direct_step_touch_inv hypot ev s :
  touch_event ev ->
  Direct_touch_inv s -> Direct_touch_inv (Direct.step hypot ev s).
Proof.
  intros Hev H. destruct ev as [e|e|e| |mode|l]; cbn [Direct.step].
  - apply Direct_onPointerDown_touch_inv; assumption.
  - apply Direct_onPointerMove_touch_inv; assumption.
  - apply Direct_onPointerUp_touch_inv; assumption.
  - exact H.
  - destruct (viewport_ops_keep_flags (ZoomClick mode) s)
      as (Hp & Ha & Hi & Hd & _).
    destruct H as (H1 & H2 & H3). unfold Direct_touch_inv.
    rewrite Hp, Ha, Hi, Hd. auto.
  - destruct (viewport_ops_keep_flags (Resize l) s)
      as (Hp & Ha & Hi & Hd & _).
    destruct H as (H1 & H2 & H3). unfold Direct_touch_inv.
    rewrite Hp, Ha, Hi, Hd. auto.
Qed.

(** The mouse branches of the handlers are the same in both scripts. *)
Lemma Gated_step_mouse_inv hypot ev s :
  mouse_event ev ->
  match ev with PointerDown _ => pointers s = [] | _ => True end ->
  mouse_inv s -> mouse_inv (Gated.step hypot ev s).
Proof.
  intros Hev Hpress (Hpinch & Hcand & Hidle & Hexcl).
  destruct ev as [e|e|e| |mode|l]; cbn [Gated.step]; simpl in Hev.
  - pose proof (pointers_set_nonempty (pointerId e)
                  (mkPointer (clientX e) (clientY e) mouse) (pointers s)).
    destruct (Hidle Hpress) as [Hp Hd].
    unfold mouse_inv, Gated.onPointerDown. rewrite Hev in *.
    unfold_helpers. set (m := pointers_set _ _ _) in *.
    flags_crush.
  - pose proof (pointers_set_nonempty (pointerId e)
                  (mkPointer (clientX e) (clientY e) mouse) (pointers s)).
    unfold mouse_inv, Gated.onPointerMove. rewrite Hev in *.
    unfold_helpers. set (m := pointers_set _ _ _) in *.
    flags_crush.
  - unfold mouse_inv, Gated.onPointerUp. rewrite Hev in *.
    unfold_helpers. flags_crush.
  - unfold Gated.onDrawTimer. rewrite Hcand.
    exact (conj Hpinch (conj Hcand (conj Hidle Hexcl))).
  - destruct (viewport_ops_keep_flags (ZoomClick mode) s)
      as (Hp & Ha & Hi & Hd & Hc).
    unfold mouse_inv. rewrite Hp, Ha, Hi, Hd, Hc.
    exact (conj Hpinch (conj Hcand (conj Hidle Hexcl))).
  - destruct (viewport_ops_keep_flags (Resize l) s)
      as (Hp & Ha & Hi & Hd & Hc).
    unfold mouse_inv. rewrite Hp, Ha, Hi, Hd, Hc.
    exact (conj Hpinch (conj Hcand (conj Hidle Hexcl))).
Qed.

Lemma Direct_step_mouse_inv hypot ev s :
  mouse_event ev ->
  match ev with PointerDown _ => pointers s = [] | _ => True end ->
  mouse_inv s -> mouse_inv (Direct.step hypot ev s).
Proof.
  intros Hev Hpress (Hpinch & Hcand & Hidle & Hexcl).
  destruct ev as [e|e|e| |mode|l]; cbn [Direct.step]; simpl in Hev.
  - pose proof (pointers_set_nonempty (pointerId e)
                  (mkPointer (clientX e) (clientY e) mouse) (pointers s)).
    destruct (Hidle Hpress) as [Hp Hd].
    unfold mouse_inv, Direct.onPointerDown. rewrite Hev in *.
    unfold_helpers. set (m := pointers_set _ _ _) in *.
    flags_crush.
  - pose proof (pointers_set_nonempty (pointerId e)
                  (mkPointer (clientX e) (clientY e) mouse) (pointers s)).
    unfold mouse_inv, Direct.onPointerMove. rewrite Hev in *.
    unfold_helpers. set (m := pointers_set _ _ _) in *.
    flags_crush.
  - unfold mouse_inv, Direct.onPointerUp. rewrite Hev in *.
    unfold_helpers. flags_crush.
  - exact (conj Hpinch (conj Hcand (conj Hidle Hexcl))).
  - destruct (viewport_ops_keep_flags (ZoomClick mode) s)
      as (Hp & Ha & Hi & Hd & Hc).
    unfold mouse_inv. rewrite Hp, Ha, Hi, Hd, Hc.
    exact (conj Hpinch (conj Hcand (conj Hidle Hexcl))).
  - destruct (viewport_ops_keep_flags (Resize l) s)
      as (Hp & Ha & Hi & Hd & Hc).
    unfold mouse_inv. rewrite Hp, Ha, Hi, Hd, Hc.
    exact (conj Hpinch (conj Hcand (conj Hidle Hexcl))).
Qed.

Lemma idle_touch_invs s :
  idle s -> Gated_touch_inv s /\ Direct_touch_inv s /\ mouse_inv s.
Proof.
  intros (Hp & Ha & Hi & Hd & Hc).
  unfold Gated_touch_inv, Direct_touch_inv, mouse_inv.
  rewrite Hp, Ha, Hi, Hd, Hc. repeat split; auto; discriminate.
Qed.

Lemma Gated_touch_inv_exclusive s : Gated_touch_inv s -> gesture_exclusive s.
Proof.
  intros (Hpan & Hpinch & Hdraw). unfold gesture_exclusive, active_modes.
  rewrite Hpan.
  destruct (isPathDrawing s), (isPinching s); simpl; try lia.
  all: specialize (Hpinch eq_refl); specialize (Hdraw eq_refl); lia.
Qed.

Lemma Direct_touch_inv_exclusive s :
  Direct_touch_inv s -> gesture_exclusive s.
Proof.
  intros (Hpan & Hpinch & Hdraw). unfold gesture_exclusive, active_modes.
  rewrite Hpan.
  destruct (isPathDrawing s), (isPinching s); simpl; try lia.
  all: specialize (Hdraw eq_refl); discriminate Hdraw.
Qed.

Lemma mouse_inv_exclusive s : mouse_inv s -> gesture_exclusive s.
Proof.
  intros (Hpinch & _ & _ & Hexcl). unfold gesture_exclusive, active_modes.
  rewrite Hpinch.
  destruct (isPanning s), (isPathDrawing s); simpl; try lia.
  all: specialize (Hexcl eq_refl); discriminate Hexcl.
Qed.

Lemma Gated_run_touch_inv hypot evs : forall s,
  Forall touch_event evs ->
  Gated_touch_inv s -> Gated_touch_inv (Gated.run hypot evs s).
Proof.
  unfold Gated.run. induction evs as [|ev evs IH]; intros s Hev H; simpl.
  - exact H.
  - inversion Hev; subst. apply IH; [assumption|].
    apply Gated_step_touch_inv; assumption.
Qed.

Lemma Direct_run_touch_inv hypot evs : forall s,
  Forall touch_event evs ->
  Direct_touch_inv s -> Direct_touch_inv (Direct.run hypot evs s).
Proof.
  unfold Direct.run. induction evs as [|ev evs IH]; intros s Hev H; simpl.
  - exact H.
  - inversion Hev; subst. apply IH; [assumption|].
    apply Direct_step_touch_inv; assumption.
Qed.

Lemma Gated_run_mouse_inv hypot evs : forall s,
  Forall mouse_event evs ->
  presses_when_released (Gated.step hypot) evs s ->
  mouse_inv s -> mouse_inv (Gated.run hypot evs s).
Proof.
  unfold Gated.run. induction evs as [|ev evs IH]; intros s Hev Hpr H; simpl.
  - exact H.
  - inversion Hev; subst. destruct Hpr as [Hp Hrest].
    apply IH; [assumption|exact Hrest|].
    apply Gated_step_mouse_inv; assumption.
Qed.

Lemma Direct_run_mouse_inv hypot evs : forall s,
  Forall mouse_event evs ->
  presses_when_released (Direct.step hypot) evs s ->
  mouse_inv s -> mouse_inv (Direct.run hypot evs s).
Proof.
  unfold Direct.run. induction evs as [|ev evs IH]; intros s Hev Hpr H; simpl.
  - exact H.
  - inversion Hev; subst. destruct Hpr as [Hp Hrest].
    apply IH; [assumption|exact Hrest|].
    apply Direct_step_mouse_inv; assumption.
Qed.

Lemma initAfterImage_idle w h l : idle (initAfterImage w h (declared l)).
Proof. repeat split. Qed.

(** *** Sessions of one modality, and of two *)

(** C8, as stated, fails when the mouse and a finger are down together.
    A finger starts drawing and the mouse is then pressed without the
    modifier: Drawing and Panning are both active.  The mouse is pressed
    and a finger then touches, which makes two entries in the pointer map:
    Panning and Pinching are both active. *)
Lemma mouse_and_touch_modes_overlap :
  let drawing_then_pan :=
    Gated.run hypot_milli
      [PointerDown (touch_at 2 4 54); DrawTimer;
       PointerDown (mouse_at 100 100 false)] sample_loaded in
  let pan_then_pinch :=
    Gated.run hypot_milli
      [PointerDown (mouse_at 100 100 false);
       PointerDown (touch_at 2 200 200)] sample_loaded in
  (isPathDrawing drawing_then_pan = true /\
   isPanning drawing_then_pan = true /\
   ~ gesture_exclusive drawing_then_pan) /\
  (isPanning pan_then_pinch = true /\
   isPinching pan_then_pinch = true /\
   ~ gesture_exclusive pan_then_pinch).
Proof.
  cbv zeta. split; (split; [reflexivity|split; [reflexivity|]]).
  - unfold gesture_exclusive. intros H. vm_compute in H. lia.
  - unfold gesture_exclusive. intros H. vm_compute in H. lia.
Qed.

(** C8, amended.  From an idle state, along every sequence of events of
    fingers only (with the draw timer, zoom clicks and resizes), at most
    one of Panning, Drawing and Pinching is active, in both scripts of
    script.js; the same holds along every sequence of events of the mouse
    only in which each press arrives while no pointer is down. *)
Theorem gesture_exclusive_within_one_modality :
  forall hypot evs s,
    idle s ->
    (Forall touch_event evs ->
     gesture_exclusive (Gated.run hypot evs s) /\
     gesture_exclusive (Direct.run hypot evs s)) /\
    (Forall mouse_event evs ->
     (presses_when_released (Gated.step hypot) evs s ->
      gesture_exclusive (Gated.run hypot evs s)) /\
     (presses_when_released (Direct.step hypot) evs s ->
      gesture_exclusive (Direct.run hypot evs s))).
Proof.
  intros hypot evs s Hidle.
  destruct (idle_touch_invs s Hidle) as (Hg & Hd & Hm).
  split.
  - intros Hev. split.
    + apply Gated_touch_inv_exclusive, Gated_run_touch_inv; assumption.
    + apply Direct_touch_inv_exclusive, Direct_run_touch_inv; assumption.
  - intros Hev. split; intros Hpr.
    + apply mouse_inv_exclusive, Gated_run_mouse_inv; assumption.
    + apply mouse_inv_exclusive, Direct_run_mouse_inv; assumption.
Qed.

Lemma gesture_exclusive_within_one_modality_witness :
  idle sample_loaded /\
  Forall touch_event sample_touch_session /\
  gesture_exclusive (Gated.run hypot_milli sample_touch_session sample_loaded)
  /\
  Forall mouse_event sample_mouse_session /\
  presses_when_released (Gated.step hypot_milli) sample_mouse_session
    sample_loaded /\
  gesture_exclusive (Gated.run hypot_milli sample_mouse_session sample_loaded).
Proof.
  assert (Hi : idle sample_loaded) by (repeat split).
  assert (Ht : Forall touch_event sample_touch_session)
    by (repeat constructor).
  assert (Hm : Forall mouse_event sample_mouse_session)
    by (repeat constructor).
  assert (Hp : presses_when_released (Gated.step hypot_milli)
                 sample_mouse_session sample_loaded)
    by (vm_compute; repeat split).
  destruct (gesture_exclusive_within_one_modality hypot_milli
              sample_touch_session sample_loaded Hi) as [Htouch _].
  destruct (gesture_exclusive_within_one_modality hypot_milli
              sample_mouse_session sample_loaded Hi) as [_ Hmouse].
  split; [exact Hi|]. split; [exact Ht|].
  split; [exact (proj1 (Htouch Ht))|].
  split; [exact Hm|]. split; [exact Hp|].
  exact (proj1 (Hmouse Hm) Hp).
Defined.

(** ** A second finger during a drawing *)

Lemma Gated_second_touch_aborts_draw :
  second_touch_aborts_draw Gated.onPointerDown.
Proof.
  intros hypot s id0 p0 e (Hp & Hty & Hd) (Ht & Hid).
  unfold discards_and_pinches, Gated.onPointerDown.
  rewrite Ht, Hp. cbn [pointers_set].
  destruct (Z.eqb_spec id0 (pointerId e)) as [E|_]; [congruence|].
  cbv zeta. unfold Gated.cancelTouchCandidate.
  cbn -[Z.eqb Qdiv Qplus Qminus]. rewrite Hd.
  cbn -[Qdiv Qplus Qminus]. repeat split.
Qed.

Lemma Direct_second_touch_keeps_drawing hypot s id0 p0 e :
  single_touch_drawing s id0 p0 ->
  second_touch id0 e ->
  let s' := Direct.onPointerDown hypot e s in
  isPathDrawing s' = true /\ pathTiles s' = pathTiles s /\
  pathDirections s' = pathDirections s /\ lastTile s' = lastTile s /\
  isPinching s' = isPinching s /\ pinchStartDist s' = pinchStartDist s.
Proof.
  intros (Hp & Hty & Hd) (Ht & Hid) s'. subst s'.
  unfold Direct.onPointerDown.
  rewrite Ht, Hp. cbn [pointers_set].
  destruct (Z.eqb_spec id0 (pointerId e)) as [E|_]; [congruence|].
  cbv zeta. cbn -[Z.eqb Qdiv Qplus Qminus]. rewrite Hd.
  cbn. repeat split; assumption.
Qed.

Lemma Leaflet_second_touch_ends_path e w s id0 ty0 :
  Leaflet.pointers s = [(id0, ty0)] ->
  Leaflet.isPathDrawing s = true ->
  second_touch id0 e ->
  let s' := Leaflet.onPointerDown e w s in
  Leaflet.isPathDrawing s' = false /\
  Leaflet.pathTiles s' = Leaflet.pathTiles s /\
  Leaflet.pathDirections s' = Leaflet.pathDirections s /\
  Leaflet.lastTile s' = Leaflet.lastTile s /\
  Leaflet.cmdOutput s' = Leaflet.cmdOutput s /\
  Leaflet.drawingPointerId s' = None /\
  Leaflet.drawCandidate s' = None.
Proof.
  intros Hp Hd (Ht & Hid) s'. subst s'.
  unfold Leaflet.onPointerDown.
  rewrite Ht, Hp. cbn [pointers_set].
  destruct (Z.eqb_spec id0 (pointerId e)) as [E|_]; [congruence|].
  cbv zeta. unfold Leaflet.cancelTouchCandidate.
  cbn -[Z.eqb]. rewrite Hd. cbn. repeat split.
Qed.

(** C1, as stated, fails in the second script of script.js: with one
    finger drawing a path of six tiles, a second finger leaves the path and
    the drawing as they are and starts no pinch. *)
Lemma Direct_second_touch_does_not_abort :
  let s := sample_direct_drawing in
  let p0 := mkPointer 40 54 touch in
  let e := touch_at 3 200 200 in
  let s' := Direct.onPointerDown hypot_milli e s in
  single_touch_drawing s 2 p0 /\
  second_touch 2 e /\
  pathTiles s'
    = [mkTile 0 0; mkTile 1 0; mkTile 2 0; mkTile 3 0; mkTile 4 0; mkTile 5 0]
  /\ isPathDrawing s' = true /\ isPinching s' = false /\
  ~ discards_and_pinches hypot_milli s p0 e s'.
Proof.
  cbv zeta.
  split; [vm_compute; repeat split|].
  split; [split; [reflexivity|discriminate]|].
  split; [vm_compute; reflexivity|].
  split; [vm_compute; reflexivity|].
  split; [vm_compute; reflexivity|].
  intros (H & _). vm_compute in H. discriminate H.
Qed.

(** C1, amended.  In the first script of script.js, when one finger is
    down and drawing, the arrival of a second finger empties the path
    (cells, directions and last tile), ends the drawing and starts a pinch
    whose start distance, start scale and world midpoint are taken from the
    stored position of the first pointer and the position of the new one.
    In the second script the same event leaves path and drawing as they
    are and starts no pinch.  In the Leaflet script it ends the drawing and
    drops the candidate, and keeps the path. *)
Theorem second_touch_during_drawing :
  second_touch_aborts_draw Gated.onPointerDown /\
  (forall hypot s id0 p0 e,
     single_touch_drawing s id0 p0 ->
     second_touch id0 e ->
     let s' := Direct.onPointerDown hypot e s in
     isPathDrawing s' = true /\ pathTiles s' = pathTiles s /\
     pathDirections s' = pathDirections s /\ lastTile s' = lastTile s /\
     isPinching s' = isPinching s /\ pinchStartDist s' = pinchStartDist s) /\
  (forall e w s id0 ty0,
     Leaflet.pointers s = [(id0, ty0)] ->
     Leaflet.isPathDrawing s = true ->
     second_touch id0 e ->
     let s' := Leaflet.onPointerDown e w s in
     Leaflet.isPathDrawing s' = false /\
     Leaflet.pathTiles s' = Leaflet.pathTiles s /\
     Leaflet.pathDirections s' = Leaflet.pathDirections s /\
     Leaflet.lastTile s' = Leaflet.lastTile s /\
     Leaflet.cmdOutput s' = Leaflet.cmdOutput s /\
     Leaflet.drawingPointerId s' = None /\
     Leaflet.drawCandidate s' = None).
Proof.
  split; [exact Gated_second_touch_aborts_draw|].
  split.
  - exact Direct_second_touch_keeps_drawing.
  - exact Leaflet_second_touch_ends_path.
Qed.

Lemma second_touch_during_drawing_witness :
  single_touch_drawing sample_gated_drawing 2 (mkPointer 40 54 touch) /\
  second_touch 2 (touch_at 3 200 200) /\
  discards_and_pinches hypot_milli sample_gated_drawing
    (mkPointer 40 54 touch) (touch_at 3 200 200)
    (Gated.onPointerDown hypot_milli (touch_at 3 200 200)
       sample_gated_drawing).
Proof.
  assert (H1 : single_touch_drawing sample_gated_drawing 2
                 (mkPointer 40 54 touch)) by (vm_compute; repeat split).
  assert (H2 : second_touch 2 (touch_at 3 200 200))
    by (split; [reflexivity|discriminate]).
  split; [exact H1|]. split; [exact H2|].
  exact (proj1 second_touch_during_drawing hypot_milli sample_gated_drawing
           2 (mkPointer 40 54 touch) (touch_at 3 200 200) H1 H2).
Defined.

(** * Further properties *)

Local Open Scope Q_scope.

(** ** Tiles of world points *)

Lemma Qfloor_cell (k : Z) (x : Q) :
  Qfloor x = k <-> inject_Z k <= x /\ x < inject_Z k + 1.
Proof.
  split.
  - intros <-. split; [apply Qfloor_le|].
    pose proof (Qlt_floor x) as H. rewrite inject_Z_plus in H. exact H.
  - intros [Hle Hlt].
    assert (H1 : (k <= Qfloor x)%Z).
    { rewrite <- (Qfloor_Z k). apply Qfloor_resp_le, Hle. }
    assert (H2 : (Qfloor x < k + 1)%Z).
    { rewrite Zlt_Qlt, inject_Z_plus.
      apply Qle_lt_trans with x; [apply Qfloor_le|exact Hlt]. }
    lia.
Qed.

Lemma Qfloor_div_cell (k : Z) (x size : Q) :
  0 < size ->
  (Qfloor (x / size) = k <->
   inject_Z k * size <= x /\ x < (inject_Z k + 1) * size).
Proof.
  intros Hs. rewrite Qfloor_cell. split; intros [H1 H2]; split.
  - apply (Qmult_le_r _ _ (/ size)); [apply Qinv_lt_0_compat, Hs|].
    rewrite <- Qmult_assoc, Qmult_inv_r, Qmult_1_r; [exact H1|].
    intros E. rewrite E in Hs. inversion Hs.
  - apply (Qmult_lt_r _ _ (/ size)); [apply Qinv_lt_0_compat, Hs|].
    rewrite <- Qmult_assoc, Qmult_inv_r, Qmult_1_r; [exact H2|].
    intros E. rewrite E in Hs. inversion Hs.
  - apply Qle_shift_div_l; assumption.
  - apply Qlt_shift_div_r; assumption.
Qed.





Local Open Scope Z_scope.

(** ** Invariants of the event handlers *)

Ltac state_cbn :=
  cbn [layout imgW imgH scale panX panY fitScale zoomMode pointers isPanning
       panLastX panLastY isPinching pinchStartDist pinchStartScale
       pinchMidWorld isPathDrawing pathTiles pathDirections lastTile
       drawingPointerId drawCandidate cmdOutput
       set_layout set_imgW set_imgH set_scale set_panX set_panY set_fitScale
       set_zoomMode set_pointers set_isPanning set_panLastX set_panLastY
       set_isPinching set_pinchStartDist set_pinchStartScale
       set_pinchMidWorld set_isPathDrawing set_pathTiles set_pathDirections
       set_lastTile set_drawingPointerId set_drawCandidate set_cmdOutput
       negb andb orb] in *.

Ltac inv_done :=
  repeat split; intros; use_premises;
  try reflexivity; try assumption; try congruence.

Ltac inv_crush := state_cbn; split_ifs; state_cbn; inv_done.

Ltac unfold_handlers :=
  unfold Gated.onPointerDown, Gated.onPointerMove, Gated.onPointerUp,
    Gated.onDrawTimer, Direct.onPointerDown, Direct.onPointerMove,
    Direct.onPointerUp, setZoom, onResize, computeFitAndCenter;
  unfold_helpers.

Lemma Gated_step_drawing_has_tile hypot ev s :
  drawing_has_tile s -> drawing_has_tile (Gated.step hypot ev s).
Proof.
  unfold drawing_has_tile. intros H.
  destruct ev as [e|e|e| |[|q]|l]; cbn [Gated.step]; unfold_handlers.
  all: inv_crush.
Qed.

Lemma Direct_step_drawing_has_tile hypot ev s :
  drawing_has_tile s -> drawing_has_tile (Direct.step hypot ev s).
Proof.
  unfold drawing_has_tile. intros H.
  destruct ev as [e|e|e| |[|q]|l]; cbn [Direct.step]; unfold_handlers.
  all: inv_crush.
Qed.

Local Open Scope Q_scope.

Lemma clamp_zoom_pos v : 0 < clamp v ZOOM_MIN ZOOM_MAX.
Proof.
  apply Qlt_le_trans with ZOOM_MIN; [reflexivity|].
  apply clamp_bounds, zoom_bounds_ordered.
Qed.

Lemma fit_ratio_pos l s :
  content_positive l -> 0 < imgW s -> 0 < imgH s -> 0 < fit_ratio l s.
Proof.
  intros [Hw Hh] Hiw Hih. unfold fit_ratio. cbv zeta.
  apply Q.min_glb_lt; apply Qlt_shift_div_l; try assumption;
    rewrite Qmult_0_l; assumption.
Qed.

Ltac view_done :=
  repeat split; intros; use_premises;
  try assumption; try apply clamp_zoom_pos.

Lemma Gated_step_view_ok hypot ev s :
  resize_positive ev -> view_ok s -> view_ok (Gated.step hypot ev s).
Proof.
  unfold view_ok, content_positive. intros Hev (Hs & Hw & Hh & Hl).
  pose proof Hl as [Hl1 Hl2].
  destruct ev as [e|e|e| |[|q]|l]; cbn [Gated.step].
  1-4: unfold_handlers; state_cbn; split_ifs; state_cbn; view_done.
  - repeat split; try assumption. apply (fit_ratio_pos (layout s) s); assumption.
  - repeat split; try assumption. apply clamp_zoom_pos.
  - simpl in Hev. unfold onResize. cbv zeta.
    change (zoomMode (set_layout l s)) with (zoomMode s).
    destruct (zoomMode s).
    + repeat split; try assumption; try apply Hev.
      apply (fit_ratio_pos l s); assumption.
    + repeat split; try assumption; apply Hev.
Qed.

Lemma Direct_step_view_ok hypot ev s :
  resize_positive ev -> view_ok s -> view_ok (Direct.step hypot ev s).
Proof.
  unfold view_ok, content_positive. intros Hev (Hs & Hw & Hh & Hl).
  pose proof Hl as [Hl1 Hl2].
  destruct ev as [e|e|e| |[|q]|l]; cbn [Direct.step].
  1-3: unfold_handlers; state_cbn; split_ifs; state_cbn; view_done.
  - repeat split; assumption.
  - repeat split; try assumption. apply (fit_ratio_pos (layout s) s); assumption.
  - repeat split; try assumption. apply clamp_zoom_pos.
  - simpl in Hev. unfold onResize. cbv zeta.
    change (zoomMode (set_layout l s)) with (zoomMode s).
    destruct (zoomMode s).
    + repeat split; try assumption; try apply Hev.
      apply (fit_ratio_pos l s); assumption.
    + repeat split; try assumption; apply Hev.
Qed.

(** An invariant of the steps of a script holds along its runs. *)
Lemma run_invariant (P : State -> Prop) (ok : Event -> Prop)
    (step : Event -> State -> State) :
  (forall ev s, ok ev -> P s -> P (step ev s)) ->
  forall evs s,
    Forall ok evs -> P s ->
    P (fold_left (fun acc ev => step ev acc) evs s).
Proof.
  intros Hstep evs. induction evs as [|ev evs IH]; intros s Hok H; simpl.
  - exact H.
  - inversion Hok; subst. apply IH; [assumption|]. apply Hstep; assumption.
Qed.

Lemma Forall_True {A : Type} (l : list A) : Forall (fun _ => True) l.
Proof. induction l; constructor; auto. Qed.

(** X9.  The transform never degenerates: from a state with a positive
    scale, a loaded image of positive size and a content rectangle of
    positive size (as after [initAfterImage] in such a window), every
    sequence of events whose resizes leave a content rectangle of positive
    size keeps the scale positive, in both scripts of script.js. *)
Theorem scale_stays_positive :
  (forall w h l,
     0 < w -> 0 < h -> content_positive l ->
     view_ok (initAfterImage w h (declared l))) /\
  (forall hypot evs s,
     view_ok s -> Forall resize_positive evs ->
     view_ok (Gated.run hypot evs s) /\ view_ok (Direct.run hypot evs s)).
Proof.
  split.
  - intros w h l Hw Hh Hl. unfold view_ok.
    repeat split; try assumption; try apply Hl.
    apply (fit_ratio_pos l (set_imgH h (set_imgW w (declared l)))); assumption.
  - intros hypot evs s Hs Hev. split.
    + apply (run_invariant view_ok resize_positive (Gated.step hypot));
        [intros; apply Gated_step_view_ok| |]; assumption.
    + apply (run_invariant view_ok resize_positive (Direct.step hypot));
        [intros; apply Direct_step_view_ok| |]; assumption.
Qed.

Lemma scale_stays_positive_witness :
  view_ok sample_loaded /\
  Forall resize_positive sample_zoom_session /\
  0 < scale (Gated.run hypot_milli sample_zoom_session sample_loaded).
Proof.
  assert (H0 : view_ok sample_loaded).
  { apply (proj1 scale_stays_positive); try reflexivity. split; reflexivity. }
  assert (Hev : Forall resize_positive sample_zoom_session).
  { repeat constructor. }
  split; [exact H0|]. split; [exact Hev|].
  exact (proj1 (proj1 (proj2 scale_stays_positive hypot_milli
                         sample_zoom_session sample_loaded H0 Hev))).
Defined.

Local Open Scope Z_scope.

Ltac settled_crush H :=
  state_cbn; split_ifs; state_cbn; first [exact H | left; reflexivity].

Lemma Gated_step_output_settled hypot s0 ev s :
  output_settled s0 s -> output_settled s0 (Gated.step hypot ev s).
Proof.
  unfold output_settled, output_in_sync. intros H.
  destruct ev as [e|e|e| |[|q]|l]; cbn [Gated.step]; unfold_handlers.
  all: settled_crush H.
Qed.

Lemma Direct_step_output_settled hypot s0 ev s :
  output_settled s0 s -> output_settled s0 (Direct.step hypot ev s).
Proof.
  unfold output_settled, output_in_sync. intros H.
  destruct ev as [e|e|e| |[|q]|l]; cbn [Direct.step]; unfold_handlers.
  all: settled_crush H.
Qed.

Lemma output_settled_start s : output_settled s s.
Proof. right. split; reflexivity. Qed.

Lemma output_settled_in_sync s0 s :
  output_in_sync s0 -> output_settled s0 s -> output_in_sync s.
Proof.
  unfold output_settled, output_in_sync.
  intros H0 [H|[H1 H2]]; [exact H|]. rewrite H1, H2. exact H0.
Qed.

(** X10.  The scripts write the output box only together with the
    direction list: after every sequence of events, from any state, either
    the box and the directions are both as they were at the start, or the
    box shows the directions joined by spaces; so once the box shows the
    directions, it always does.  [clearPath] and an [extendPathTo] from a
    last tile make it so, whatever the box held. *)
Theorem output_follows_directions :
  (forall hypot evs s,
     (output_settled s (Gated.run hypot evs s) /\
      output_settled s (Direct.run hypot evs s)) /\
     (output_in_sync s ->
      output_in_sync (Gated.run hypot evs s) /\
      output_in_sync (Direct.run hypot evs s))) /\
  (forall s, output_in_sync (clearPath s)) /\
  (forall s target last,
     lastTile s = Some last -> output_in_sync (extendPathTo target s)).
Proof.
  assert (Hrun : forall hypot evs s,
            output_settled s (Gated.run hypot evs s) /\
            output_settled s (Direct.run hypot evs s)).
  { intros hypot evs s. split.
    - apply (run_invariant (output_settled s) (fun _ => True)
               (Gated.step hypot));
        [intros; apply Gated_step_output_settled; assumption
        |apply Forall_True|apply output_settled_start].
    - apply (run_invariant (output_settled s) (fun _ => True)
               (Direct.step hypot));
        [intros; apply Direct_step_output_settled; assumption
        |apply Forall_True|apply output_settled_start]. }
  split; [|split].
  - intros hypot evs s. split; [apply Hrun|].
    intros H0. destruct (Hrun hypot evs s) as [Hg Hd].
    split; apply (output_settled_in_sync s); assumption.
  - intros s. reflexivity.
  - intros s target last Hl. unfold output_in_sync, extendPathTo.
    rewrite Hl. reflexivity.
Qed.

Lemma output_follows_directions_witness :
  ~ output_in_sync sample_page_text /\
  output_settled sample_page_text
    (Gated.run hypot_milli sample_touch_session sample_page_text) /\
  cmdOutput (Gated.run hypot_milli [PointerDown (touch_at 2 4 54)]
               sample_page_text) = "up up"%string /\
  cmdOutput (Gated.run hypot_milli sample_touch_session sample_page_text)
    = EmptyString /\
  output_in_sync
    (Direct.run hypot_milli sample_touch_session
       (clearPath sample_page_text)).
Proof.
  destruct output_follows_directions as (Hrun & Hclear & _).
  split; [intros H; vm_compute in H; discriminate H|].
  split; [exact (proj1 (proj1 (Hrun hypot_milli sample_touch_session
                                 sample_page_text)))|].
  split; [vm_compute; reflexivity|].
  split; [vm_compute; reflexivity|].
  exact (proj2 (proj2 (Hrun hypot_milli sample_touch_session
                         (clearPath sample_page_text))
                  (Hclear sample_page_text))).
Defined.

(** X13.  A drawing in progress always has a last tile to extend from: no
    drawing is in progress in the loaded state, and every event handler of
    both scripts of script.js keeps the implication from [isPathDrawing] to
    a set [lastTile]. *)
Theorem drawing_always_has_last_tile :
  (forall l w h, drawing_has_tile (initAfterImage w h (declared l))) /\
  (forall hypot evs s,
     drawing_has_tile s ->
     drawing_has_tile (Gated.run hypot evs s) /\
     drawing_has_tile (Direct.run hypot evs s)).
Proof.
  split; [intros l w h H; discriminate H|].
  intros hypot evs s H0. split.
  - apply (run_invariant drawing_has_tile (fun _ => True) (Gated.step hypot));
      [intros; apply Gated_step_drawing_has_tile; assumption
      |apply Forall_True|exact H0].
  - apply (run_invariant drawing_has_tile (fun _ => True) (Direct.step hypot));
      [intros; apply Direct_step_drawing_has_tile; assumption
      |apply Forall_True|exact H0].
Qed.

Lemma drawing_always_has_last_tile_witness :
  drawing_has_tile sample_loaded /\
  drawing_has_tile (Gated.run hypot_milli sample_touch_session sample_loaded).
Proof.
  destruct drawing_always_has_last_tile as [Hinit Hrun].
  assert (H0 : drawing_has_tile sample_loaded)
    by apply (Hinit sample_layout 1840%Q 1420%Q).
  split; [exact H0|].
  exact (proj1 (Hrun hypot_milli sample_touch_session sample_loaded H0)).
Defined.

Local Open Scope Z_scope.

(** ** The path of [extendPathTo] *)

Lemma loop_body_in_box target c :
  loop_cond target c = true ->
  in_box (mkTile (cx c) (cy c)) target
    (mkTile (cx (loop_body target c)) (cy (loop_body target c))).
Proof.
  intros Hc.
  destruct (Z_le_gt_dec (Z.abs (ty target - cy c))
              (Z.abs (tx target - cx c))) as [Hle | Hgt].
  - rewrite (loop_body_horizontal _ _ Hc Hle).
    apply loop_cond_true in Hc. unfold manhattan in Hc.
    unfold in_box. cbn [cx cy tx ty]. lia.
  - rewrite loop_body_vertical by lia.
    unfold in_box. cbn [cx cy tx ty]. lia.
Qed.

Lemma in_box_shrink a a' b t :
  in_box a b a' -> in_box a' b t -> in_box a b t.
Proof. unfold in_box. lia. Qed.

Lemma extend_loop_in_box target c :
  exists ts,
    tiles (extend_loop target c) = tiles c ++ ts /\
    Forall (in_box (mkTile (cx c) (cy c)) target) ts.
Proof.
  remember (Z.to_nat (manhattan target c)) as n eqn:Hn.
  revert c Hn. induction n as [|k IH]; intros c Hn.
  - assert (Hz : manhattan target c = 0) by (unfold manhattan in *; lia).
    rewrite extend_loop_iterate, (loop_cond_zero _ _ Hz).
    exists []. rewrite app_nil_r. split; [reflexivity|constructor].
  - rewrite extend_loop_iterate.
    destruct (loop_cond target c) eqn:Hc.
    + pose proof (loop_body_decreases _ _ Hc) as Hdec.
      pose proof (loop_body_in_box _ _ Hc) as Hbox.
      destruct (loop_body_walk _ _ Hc) as (t & d & Hb & _).
      destruct (IH (loop_body target c)) as (ts & Hts & Hall); [lia|].
      rewrite Hb in Hts, Hall, Hbox. cbn [cx cy tiles] in Hts, Hall, Hbox.
      exists (t :: ts). rewrite Hb, Hts, <- app_assoc. split; [reflexivity|].
      replace (mkTile (tx t) (ty t)) with t in Hall, Hbox
        by (destruct t; reflexivity).
      constructor; [exact Hbox|].
      eapply Forall_impl; [|exact Hall].
      intros u Hu. apply (in_box_shrink _ t); assumption.
    + destruct (loop_cond_false _ _ Hc) as [Hx Hy].
      unfold manhattan in Hn. rewrite Hx, Hy, !Z.sub_diag in Hn.
      discriminate Hn.
Qed.

Lemma tileWithinImage_in_box s a b t :
  tileWithinImage s a = true -> tileWithinImage s b = true ->
  in_box a b t -> tileWithinImage s t = true.
Proof.
  unfold tileWithinImage, in_box.
  rewrite !andb_true_iff, !Qle_bool_iff, !Z.leb_le.
  intros [[[Ha1 Ha2] Ha3] Ha4] [[[Hb1 Hb2] Hb3] Hb4] [Hx Hy].
  assert (Hmono : forall u v : Z,
             (u <= v)%Z -> (inject_Z u * TILE_SIZE <= inject_Z v * TILE_SIZE)%Q).
  { intros u v Huv. apply Qmult_le_compat_r; [|discriminate].
    rewrite <- Zle_Qle. exact Huv. }
  repeat split; try lia.
  - destruct (Z.max_spec (tx a) (tx b)) as [[_ E] | [_ E]].
    + apply Qle_trans with (inject_Z (tx b) * TILE_SIZE)%Q; [|exact Hb3].
      apply Hmono. lia.
    + apply Qle_trans with (inject_Z (tx a) * TILE_SIZE)%Q; [|exact Ha3].
      apply Hmono. lia.
  - destruct (Z.max_spec (ty a) (ty b)) as [[_ E] | [_ E]].
    + apply Qle_trans with (inject_Z (ty b) * TILE_SIZE)%Q; [|exact Hb4].
      apply Hmono. lia.
    + apply Qle_trans with (inject_Z (ty a) * TILE_SIZE)%Q; [|exact Ha4].
      apply Hmono. lia.
Qed.

(** X11.  The path of [extendPathTo] never leaves the rectangle of tiles
    spanned by the last tile and the target: every tile it appends lies
    between the two on both axes.  Hence, when both are tiles of image
    points, so is every tile of the path between them. *)
Theorem extendPathTo_stays_in_box :
  forall s last target,
    lastTile s = Some last ->
    exists ts,
      pathTiles (extendPathTo target s) = pathTiles s ++ ts /\
      Forall (in_box last target) ts /\
      (tileWithinImage s last = true -> tileWithinImage s target = true ->
       Forall (fun t => tileWithinImage s t = true) ts).
Proof.
  intros s last target Hl.
  destruct (extendPathTo_active target last s Hl) as (Ht & _).
  destruct (extend_loop_in_box target (entry_cursor last s)) as (ts & Hts & Hall).
  unfold entry_cursor in Hts, Hall. cbn [cx cy tiles] in Hts, Hall.
  replace (mkTile (tx last) (ty last)) with last in Hall
    by (destruct last; reflexivity).
  exists ts. rewrite Ht. unfold entry_cursor. split; [exact Hts|].
  split; [exact Hall|].
  intros Ha Hb. eapply Forall_impl; [|exact Hall].
  intros t Hbox. apply (tileWithinImage_in_box s last target); assumption.
Qed.

Lemma extendPathTo_stays_in_box_witness :
  lastTile sample_started = Some (mkTile 0 0) /\
  exists ts,
    pathTiles (extendPathTo (mkTile 3 2) sample_started)
      = pathTiles sample_started ++ ts /\
    Forall (in_box (mkTile 0 0) (mkTile 3 2)) ts /\
    Forall (fun t => tileWithinImage sample_started t = true) ts.
Proof.
  assert (Hl : lastTile sample_started = Some (mkTile 0 0)) by reflexivity.
  split; [exact Hl|].
  destruct (extendPathTo_stays_in_box sample_started (mkTile 0 0)
              (mkTile 3 2) Hl) as (ts & Ht & Hb & Hw).
  exists ts. split; [exact Ht|]. split; [exact Hb|].
  apply Hw; reflexivity.
Defined.



Local Open Scope Z_scope.

(** ** Taps and early second fingers *)

(** Evaluation of the projections of assigned states and of the pointer
    map on explicit lists. *)
Ltac step_cbn :=
  cbn [layout imgW imgH scale panX panY fitScale zoomMode pointers isPanning
       panLastX panLastY isPinching pinchStartDist pinchStartScale
       pinchMidWorld isPathDrawing pathTiles pathDirections lastTile
       drawingPointerId drawCandidate cmdOutput
       set_layout set_imgW set_imgH set_scale set_panX set_panY set_fitScale
       set_zoomMode set_pointers set_isPanning set_panLastX set_panLastY
       set_isPinching set_pinchStartDist set_pinchStartScale
       set_pinchMidWorld set_isPathDrawing set_pathTiles set_pathDirections
       set_lastTile set_drawingPointerId set_drawCandidate set_cmdOutput
       pointers_has pointers_delete pointers_set
       cand_id cand_x cand_y ptr_x ptr_y ptr_type
       negb andb orb].

Lemma pointers_size_nil {V : Type} : pointers_size (@nil (Z * V)) = 0.
Proof. reflexivity. Qed.

Lemma pointers_size_one {V : Type} (x : Z * V) : pointers_size [x] = 1.
Proof. reflexivity. Qed.

Lemma pointers_size_two {V : Type} (x y : Z * V) : pointers_size [x; y] = 2.
Proof. reflexivity. Qed.

Ltac sizes :=
  rewrite ?pointers_size_nil, ?pointers_size_one, ?pointers_size_two;
  change (0 =? 0) with true; change (0 =? 1) with false;
  change (0 =? 2) with false; change (1 =? 0) with false;
  change (1 =? 1) with true; change (1 =? 2) with false;
  change (2 =? 0) with false; change (2 =? 1) with false;
  change (2 =? 2) with true; change (0 <? 2) with true;
  change (1 <? 2) with true; change (2 <? 2) with false;
  change (2 <=? 0) with false; change (2 <=? 1) with false;
  change (2 <=? 2) with true.

Ltac go := repeat (progress (step_cbn; sizes; rewrite ?Z.eqb_refl)).

(** The first finger of a gesture in the first script arms a candidate
    and nothing else. *)
Lemma Gated_first_touch hypot e s :
  pointers s = [] -> pointerType e = touch ->
  Gated.onPointerDown hypot e s =
  set_drawCandidate
    (Some (mkCandidate (pointerId e) (clientX e) (clientY e)))
    (set_drawCandidate None
       (set_pointers
          [(pointerId e, mkPointer (clientX e) (clientY e) touch)] s)).
Proof.
  intros Hp Ht. unfold Gated.onPointerDown. rewrite Ht, Hp. cbv zeta.
  unfold Gated.cancelTouchCandidate. step_cbn. sizes. step_cbn.
  reflexivity.
Qed.

(** X14.  In the first script a tap leaves no trace: when no pointer is
    down and nothing is being drawn, a finger that touches and lifts
    before the draw timer expires leaves path, output and transform as
    they were; afterwards no pointer is recorded, no candidate is pending
    and an expiry of the timer changes nothing. *)
Theorem Gated_tap_leaves_no_path :
  forall hypot e s,
    pointers s = [] -> isPathDrawing s = false ->
    pointerType e = touch ->
    let s' := Gated.onPointerUp e (Gated.onPointerDown hypot e s) in
    (pathTiles s' = pathTiles s /\ pathDirections s' = pathDirections s /\
     lastTile s' = lastTile s /\ cmdOutput s' = cmdOutput s) /\
    (scale s' = scale s /\ panX s' = panX s /\ panY s' = panY s) /\
    pointers s' = [] /\ drawCandidate s' = None /\
    isPathDrawing s' = false /\ isPinching s' = false /\
    Gated.onDrawTimer s' = s'.
Proof.
  intros hypot e s Hp Hd Ht s'. subst s'.
  rewrite (Gated_first_touch hypot e s Hp Ht).
  unfold Gated.onPointerUp, Gated.onDrawTimer. rewrite Ht. cbv zeta.
  unfold Gated.cancelTouchCandidate. go. rewrite Hd. go.
  repeat split; assumption.
Qed.

Lemma Gated_tap_leaves_no_path_witness :
  let s := sample_loaded in
  let e := touch_at 2 4 54 in
  pointers s = [] /\ isPathDrawing s = false /\
  pathTiles (Gated.onPointerUp e (Gated.onPointerDown hypot_milli e s)) = [].
Proof.
  cbv zeta.
  assert (Hp : pointers sample_loaded = []) by reflexivity.
  assert (Hd : isPathDrawing sample_loaded = false) by reflexivity.
  destruct (Gated_tap_leaves_no_path hypot_milli (touch_at 2 4 54)
              sample_loaded Hp Hd eq_refl) as ((Ht & _) & _).
  split; [exact Hp|]. split; [exact Hd|]. exact Ht.
Defined.

(** X15.  In the second script a tap on the image replaces the path:
    when no pointer is down, a finger that touches a point of the image and
    lifts leaves a finished path of the single tile of that point, with no
    direction and an empty output, whatever the path was before. *)
Theorem Direct_tap_replaces_path :
  forall hypot e s,
    pointers s = [] ->
    pointerType e = touch ->
    let w := screenToWorld s (clientX e) (clientY e) in
    withinImage s (pt_x w) (pt_y w) = true ->
    let s' := Direct.onPointerUp e (Direct.onPointerDown hypot e s) in
    pathTiles s' = [worldToTile (pt_x w) (pt_y w)] /\
    pathDirections s' = [] /\
    lastTile s' = Some (worldToTile (pt_x w) (pt_y w)) /\
    cmdOutput s' = EmptyString /\
    isPathDrawing s' = false /\ pointers s' = [].
Proof.
  intros hypot e s Hp Ht w Hin s'. subst s'.
  unfold Direct.onPointerUp, Direct.onPointerDown.
  rewrite Ht, Hp. cbn [pointers_set]. cbv zeta.
  step_cbn. sizes. step_cbn.
  pose proof (startPathAtScreen_inside
                (set_pointers
                   [(pointerId e, mkPointer (clientX e) (clientY e) touch)] s)
                (clientX e) (clientY e) Hin) as Hstart.
  cbv zeta in Hstart.
  set (s1 := startPathAtScreen (clientX e) (clientY e) _) in *.
  assert (Hptr : pointers s1
                 = [(pointerId e, mkPointer (clientX e) (clientY e) touch)]).
  { subst s1. unfold startPathAtScreen.
    destruct (withinImage _ _ _); reflexivity. }
  destruct Hstart as (H1 & H2 & H3 & H4 & H5).
  clearbody s1. unfold endPath. rewrite Hptr. go. rewrite H5. go.
  repeat split; assumption.
Qed.

Lemma Direct_tap_replaces_path_witness :
  let s := sample_direct_drawing in
  let e := touch_at 3 100 100 in
  let s0 := Direct.onPointerUp (touch_at 2 40 54) s in
  pointers s0 = [] /\
  withinImage s0 (pt_x (screenToWorld s0 100 100))
    (pt_y (screenToWorld s0 100 100)) = true /\
  pathTiles s0
    = [mkTile 0 0; mkTile 1 0; mkTile 2 0; mkTile 3 0; mkTile 4 0; mkTile 5 0]
  /\ pathTiles (Direct.onPointerUp e (Direct.onPointerDown hypot_milli e s0))
     = [mkTile 12 6].
Proof.
  cbv zeta.
  set (s0 := Direct.onPointerUp (touch_at 2 40 54) sample_direct_drawing).
  assert (Hp : pointers s0 = []) by (vm_compute; reflexivity).
  assert (Hin : withinImage s0
                  (pt_x (screenToWorld s0 (clientX (touch_at 3 100 100))
                           (clientY (touch_at 3 100 100))))
                  (pt_y (screenToWorld s0 (clientX (touch_at 3 100 100))
                           (clientY (touch_at 3 100 100)))) = true)
    by (vm_compute; reflexivity).
  destruct (Direct_tap_replaces_path hypot_milli (touch_at 3 100 100) s0
              Hp eq_refl Hin) as (Ht & _).
  split; [exact Hp|]. split; [exact Hin|].
  split; [vm_compute; reflexivity|].
  rewrite Ht. vm_compute. reflexivity.
Defined.

(** X16.  In the first script two fingers that land one after the other
    before the draw timer expires never draw: from a state with no pointer
    down and no drawing, after the two presses the path is as it was, the
    candidate is dropped, a pinch has started, and an expiry of the timer
    changes nothing. *)
Theorem Gated_two_fingers_never_draw :
  forall hypot e1 e2 s,
    pointers s = [] -> isPathDrawing s = false ->
    pointerType e1 = touch -> pointerType e2 = touch ->
    pointerId e2 <> pointerId e1 ->
    let s1 := Gated.onPointerDown hypot e1 s in
    let s2 := Gated.onPointerDown hypot e2 s1 in
    drawCandidate s1
      = Some (mkCandidate (pointerId e1) (clientX e1) (clientY e1)) /\
    (pathTiles s2 = pathTiles s /\ pathDirections s2 = pathDirections s /\
     lastTile s2 = lastTile s /\ cmdOutput s2 = cmdOutput s) /\
    isPathDrawing s2 = false /\ drawCandidate s2 = None /\
    isPinching s2 = true /\ Gated.onDrawTimer s2 = s2.
Proof.
  intros hypot e1 e2 s Hp Hd Ht1 Ht2 Hid s1 s2. subst s2 s1.
  assert (Hne : (pointerId e1 =? pointerId e2) = false)
    by (apply Z.eqb_neq; congruence).
  rewrite (Gated_first_touch hypot e1 s Hp Ht1).
  unfold Gated.onPointerDown, Gated.onDrawTimer. rewrite Ht2. cbv zeta.
  unfold Gated.cancelTouchCandidate, getTwoPointers. go.
  rewrite Hne. go. rewrite Hd. go.
  repeat split; assumption.
Qed.

Lemma Gated_two_fingers_never_draw_witness :
  pointers sample_loaded = [] /\ isPathDrawing sample_loaded = false /\
  isPinching
    (Gated.onPointerDown hypot_milli (touch_at 3 200 200)
       (Gated.onPointerDown hypot_milli (touch_at 2 4 54) sample_loaded))
    = true.
Proof.
  assert (Hp : pointers sample_loaded = []) by reflexivity.
  assert (Hd : isPathDrawing sample_loaded = false) by reflexivity.
  assert (Hid : pointerId (touch_at 3 200 200) <> pointerId (touch_at 2 4 54))
    by discriminate.
  destruct (Gated_two_fingers_never_draw hypot_milli (touch_at 2 4 54)
              (touch_at 3 200 200) sample_loaded Hp Hd eq_refl eq_refl Hid)
    as (_ & _ & _ & _ & Hpin & _).
  split; [exact Hp|]. split; [exact Hd|]. exact Hpin.
Defined.

Local Open Scope Z_scope.

Ltac go2 :=
  repeat (progress
            (step_cbn; cbn [PointerType_eqb pt_x pt_y]; sizes;
             rewrite ?Z.eqb_refl, ?andb_false_r, ?andb_true_r,
               ?orb_false_r)).

(** X17.  In the first script a finger that is held starts its path where
    it was pressed: after a press with no other pointer down and a move of
    less than [DRAW_MOVE_THRESHOLD] the path is untouched and the candidate
    still pending; when the draw timer then expires, a path of the single
    tile of the press point (if it is in the image) is being drawn by that
    finger, wherever the finger is by then. *)
Theorem Gated_hold_draws_from_press_point :
  forall hypot e m s,
    pointers s = [] -> isPathDrawing s = false ->
    pointerType e = touch -> pointerType m = touch ->
    pointerId m = pointerId e ->
    Qle_bool DRAW_MOVE_THRESHOLD
      (hypot (clientX m - clientX e) (clientY m - clientY e))%Q = false ->
    let w := screenToWorld s (clientX e) (clientY e) in
    withinImage s (pt_x w) (pt_y w) = true ->
    let s1 := Gated.onPointerMove hypot m (Gated.onPointerDown hypot e s) in
    let s2 := Gated.onDrawTimer s1 in
    (pathTiles s1 = pathTiles s /\ isPathDrawing s1 = false /\
     drawCandidate s1
       = Some (mkCandidate (pointerId e) (clientX e) (clientY e))) /\
    pathTiles s2 = [worldToTile (pt_x w) (pt_y w)] /\
    pathDirections s2 = [] /\
    lastTile s2 = Some (worldToTile (pt_x w) (pt_y w)) /\
    isPathDrawing s2 = true /\
    drawingPointerId s2 = Some (pointerId e) /\
    drawCandidate s2 = None.
Proof.
  intros hypot e m s Hp Hd Hte Htm Hid Hth w Hin s1 s2. subst s2 s1.
  rewrite (Gated_first_touch hypot e s Hp Hte).
  unfold Gated.onPointerMove, Gated.tryStartCandidateIfMoved,
    Gated.onDrawTimer, Gated.beginTouchDraw, Gated.cancelTouchCandidate.
  rewrite Htm, Hid. cbv zeta. go2. rewrite Hth. go2. rewrite Hd. go2.
  rewrite Hd. go2.
  unfold startPathAtScreen, screenToWorld, withinImage, clearPath.
  unfold w, screenToWorld, withinImage in Hin. cbn [pt_x pt_y] in Hin.
  go2. rewrite Hin. go2. repeat split; assumption.
Qed.

Lemma Gated_hold_draws_from_press_point_witness :
  pathTiles
    (Gated.onDrawTimer
       (Gated.onPointerMove hypot_milli (touch_at 2 7 56)
          (Gated.onPointerDown hypot_milli (touch_at 2 4 54) sample_loaded)))
  = [mkTile 0 0].
Proof.
  assert (Hp : pointers sample_loaded = []) by reflexivity.
  assert (Hd : isPathDrawing sample_loaded = false) by reflexivity.
  assert (Hth : Qle_bool DRAW_MOVE_THRESHOLD
                  (hypot_milli
                     (clientX (touch_at 2 7 56) - clientX (touch_at 2 4 54))
                     (clientY (touch_at 2 7 56) - clientY (touch_at 2 4 54)))%Q
                = false) by (vm_compute; reflexivity).
  assert (Hin : withinImage sample_loaded
                  (pt_x (screenToWorld sample_loaded
                           (clientX (touch_at 2 4 54))
                           (clientY (touch_at 2 4 54))))
                  (pt_y (screenToWorld sample_loaded
                           (clientX (touch_at 2 4 54))
                           (clientY (touch_at 2 4 54)))) = true)
    by (vm_compute; reflexivity).
  destruct (Gated_hold_draws_from_press_point hypot_milli (touch_at 2 4 54)
              (touch_at 2 7 56) sample_loaded Hp Hd eq_refl eq_refl eq_refl
              Hth Hin) as (_ & Ht & _).
  rewrite Ht. vm_compute. reflexivity.
Defined.

Lemma startPathAtScreen_frame sx sy s :
  let s' := startPathAtScreen sx sy s in
  scale s' = scale s /\ panX s' = panX s /\ panY s' = panY s /\
  imgW s' = imgW s /\ imgH s' = imgH s /\
  pointers s' = pointers s /\
  drawingPointerId s' = drawingPointerId s /\
  drawCandidate s' = drawCandidate s.
Proof.
  unfold startPathAtScreen.
  destruct (negb (withinImage s _ _)); repeat split.
Qed.

(** A drawing move within the last tile changes nothing, unless it is a
    mouse move without Ctrl. *)
Lemma movePathAtScreen_same_tile sx sy ptype ctrl s :
  lastTile s
    = Some (worldToTile (pt_x (screenToWorld s sx sy))
              (pt_y (screenToWorld s sx sy))) ->
  PointerType_eqb ptype mouse && negb ctrl = false ->
  movePathAtScreen sx sy ptype ctrl s = s.
Proof.
  intros Hl Hm. unfold movePathAtScreen.
  destruct (negb (isPathDrawing s)); [reflexivity|].
  cbv zeta.
  destruct (negb (withinImage s _ _)); [reflexivity|].
  rewrite Hl, !Z.eqb_refl. cbn [negb orb]. rewrite Hm. reflexivity.
Qed.

(** X18.  In the first script a finger that is dragged starts its path
    under the finger: after a press with no other pointer down, a move of
    at least [DRAW_MOVE_THRESHOLD] to a point of the image leaves a path of
    the single tile of that point, being drawn by that finger, with no
    candidate pending, so that the draw timer no longer does anything. *)
Theorem Gated_drag_draws_from_finger :
  forall hypot e m s,
    pointers s = [] -> isPathDrawing s = false ->
    pointerType e = touch -> pointerType m = touch ->
    pointerId m = pointerId e ->
    Qle_bool DRAW_MOVE_THRESHOLD
      (hypot (clientX m - clientX e) (clientY m - clientY e))%Q = true ->
    let w := screenToWorld s (clientX m) (clientY m) in
    withinImage s (pt_x w) (pt_y w) = true ->
    let s1 := Gated.onPointerMove hypot m (Gated.onPointerDown hypot e s) in
    pathTiles s1 = [worldToTile (pt_x w) (pt_y w)] /\
    pathDirections s1 = [] /\
    lastTile s1 = Some (worldToTile (pt_x w) (pt_y w)) /\
    cmdOutput s1 = EmptyString /\
    isPathDrawing s1 = true /\
    drawingPointerId s1 = Some (pointerId e) /\
    drawCandidate s1 = None /\
    Gated.onDrawTimer s1 = s1.
Proof.
  intros hypot e m s Hp Hd Hte Htm Hid Hth w Hin s1. subst s1.
  rewrite (Gated_first_touch hypot e s Hp Hte).
  unfold Gated.onPointerMove, Gated.tryStartCandidateIfMoved,
    Gated.onDrawTimer, Gated.beginTouchDraw, Gated.cancelTouchCandidate.
  rewrite Htm, Hid. cbv zeta. go2. rewrite Hth. go2. rewrite Hd. go2.
  match goal with
  | |- context [startPathAtScreen ?x ?y ?S] =>
      pose proof (startPathAtScreen_inside S x y Hin) as Hstart;
      pose proof (startPathAtScreen_frame x y S) as Hframe;
      cbv zeta in Hstart, Hframe;
      set (s3 := startPathAtScreen x y S) in *
  end.
  destruct Hstart as (H1 & H2 & H3 & H4 & H5).
  destruct Hframe as (F1 & F2 & F3 & _ & _ & _ & F7 & F8).
  cbn [scale panX panY drawingPointerId drawCandidate set_pointers
       set_drawCandidate set_drawingPointerId] in *.
  clearbody s3. rewrite H5, F7, Z.eqb_refl. go2.
  rewrite movePathAtScreen_same_tile.
  - rewrite F8, H1, H2, H3, H4, H5, F7. repeat split.
  - rewrite H3. unfold screenToWorld. rewrite F1, F2, F3. reflexivity.
  - reflexivity.
Qed.

Lemma Gated_drag_draws_from_finger_witness :
  pathTiles
    (Gated.onPointerMove hypot_milli (touch_at 2 40 54)
       (Gated.onPointerDown hypot_milli (touch_at 2 4 54) sample_loaded))
  = [mkTile 5 0].
Proof.
  assert (Hp : pointers sample_loaded = []) by reflexivity.
  assert (Hd : isPathDrawing sample_loaded = false) by reflexivity.
  assert (Hth : Qle_bool DRAW_MOVE_THRESHOLD
                  (hypot_milli
                     (clientX (touch_at 2 40 54) - clientX (touch_at 2 4 54))
                     (clientY (touch_at 2 40 54) - clientY (touch_at 2 4 54)))%Q
                = true) by (vm_compute; reflexivity).
  assert (Hin : withinImage sample_loaded
                  (pt_x (screenToWorld sample_loaded
                           (clientX (touch_at 2 40 54))
                           (clientY (touch_at 2 40 54))))
                  (pt_y (screenToWorld sample_loaded
                           (clientX (touch_at 2 40 54))
                           (clientY (touch_at 2 40 54)))) = true)
    by (vm_compute; reflexivity).
  destruct (Gated_drag_draws_from_finger hypot_milli (touch_at 2 4 54)
              (touch_at 2 40 54) sample_loaded Hp Hd eq_refl eq_refl eq_refl
              Hth Hin) as (Ht & _).
  rewrite Ht. vm_compute. reflexivity.
Defined.

Lemma pinchMove_keeps_path dist s :
  let s' := pinchMove dist s in
  pathTiles s' = pathTiles s /\ pathDirections s' = pathDirections s /\
  lastTile s' = lastTile s /\ cmdOutput s' = cmdOutput s /\
  isPathDrawing s' = isPathDrawing s /\
  drawingPointerId s' = drawingPointerId s.
Proof.
  unfold pinchMove.
  destruct (getTwoPointers s) as [[a b]|]; [|repeat split].
  destruct (Qgtb (pinchStartDist s) 0); repeat split.
Qed.

(** X19.  In the first script only the drawing finger extends the path:
    while a drawing is in progress, a move of a finger that is not the
    drawing pointer leaves path, output, drawing flag and drawing pointer
    as they are. *)
Theorem Gated_other_finger_does_not_extend :
  forall hypot e s,
    isPathDrawing s = true ->
    pointerType e = touch ->
    drawingPointerId s <> Some (pointerId e) ->
    let s' := Gated.onPointerMove hypot e s in
    pathTiles s' = pathTiles s /\ pathDirections s' = pathDirections s /\
    lastTile s' = lastTile s /\ cmdOutput s' = cmdOutput s /\
    isPathDrawing s' = true /\ drawingPointerId s' = drawingPointerId s.
Proof.
  intros hypot e s Hd Ht Hne s'. subst s'.
  unfold Gated.onPointerMove.
  rewrite Ht. cbv zeta.
  destruct (pointers_has (pointerId e) (pointers s));
    [|repeat split; assumption].
  go2.
  destruct (isPinching s && _).
  { match goal with
    | |- context [pinchMove ?d ?S] =>
        destruct (pinchMove_keeps_path d S) as (P1 & P2 & P3 & P4 & P5 & P6)
    end.
    rewrite P1, P2, P3, P4, P5, P6. go2. repeat split; assumption. }
  unfold Gated.tryStartCandidateIfMoved, Gated.beginTouchDraw,
    Gated.cancelTouchCandidate. go2.
  assert (Hdp : match drawingPointerId s with
                | Some d => pointerId e =? d
                | None => false
                end = false).
  { destruct (drawingPointerId s) as [d|]; [|reflexivity].
    apply Z.eqb_neq. congruence. }
  destruct (drawCandidate s) as [c|]; go2.
  - destruct (pointerId e =? cand_id c); go2.
    + destruct (Qle_bool _ _ && _); go2; rewrite Hd; go2;
        rewrite ?Hd; go2; rewrite Hdp; go2; repeat split; assumption.
    + rewrite Hd. go2. rewrite Hdp. go2. repeat split; assumption.
  - rewrite Hd. go2. rewrite Hdp. go2. repeat split; assumption.
Qed.

Lemma Gated_other_finger_does_not_extend_witness :
  let s :=
    Gated.run hypot_milli
      [PointerDown (touch_at 3 200 200); PointerDown (mouse_at 4 54 true)]
      sample_loaded in
  let e := touch_at 3 300 300 in
  isPathDrawing s = true /\
  pointers_has (pointerId e) (pointers s) = true /\
  drawingPointerId s = None /\
  pathTiles s = [mkTile 0 0] /\
  pathTiles (Gated.onPointerMove hypot_milli e s) = [mkTile 0 0] /\
  isPathDrawing (Gated.onPointerMove hypot_milli e s) = true.
Proof.
  cbv zeta.
  set (s := Gated.run hypot_milli
              [PointerDown (touch_at 3 200 200);
               PointerDown (mouse_at 4 54 true)] sample_loaded).
  assert (Hd : isPathDrawing s = true) by (vm_compute; reflexivity).
  assert (Hn : drawingPointerId s = None) by (vm_compute; reflexivity).
  assert (Ht : pathTiles s = [mkTile 0 0]) by (vm_compute; reflexivity).
  assert (Hne : drawingPointerId s <> Some (pointerId (touch_at 3 300 300)))
    by (rewrite Hn; discriminate).
  destruct (Gated_other_finger_does_not_extend hypot_milli
              (touch_at 3 300 300) s Hd eq_refl Hne)
    as (H1 & _ & _ & _ & H5 & _).
  split; [exact Hd|]. split; [vm_compute; reflexivity|].
  split; [exact Hn|]. split; [exact Ht|].
  split; [rewrite H1; exact Ht|exact H5].
Defined.

Local Open Scope Z_scope.

Ltac leaflet_cbn :=
  cbn [Leaflet.pathTiles Leaflet.pathDirections Leaflet.lastTile
       Leaflet.pointers Leaflet.drawingPointerId Leaflet.isPathDrawing
       Leaflet.drawCandidate Leaflet.cmdOutput Leaflet.dragging
       Leaflet.set_pathTiles Leaflet.set_pathDirections Leaflet.set_lastTile
       Leaflet.set_pointers Leaflet.set_drawingPointerId
       Leaflet.set_isPathDrawing Leaflet.set_drawCandidate
       Leaflet.set_cmdOutput Leaflet.set_dragging
       negb andb orb].

(** [finishPointer] re-enables dragging only when it ends a drawing. *)
Lemma finishPointer_idle e s :
  Leaflet.isPathDrawing s = false ->
  Leaflet.isPathDrawing (Leaflet.finishPointer e s) = false /\
  Leaflet.dragging (Leaflet.finishPointer e s) = Leaflet.dragging s.
Proof.
  intros Hd. unfold Leaflet.finishPointer, Leaflet.cancelTouchCandidate.
  cbv zeta.
  destruct (pointers_has (pointerId e) (Leaflet.pointers s));
    destruct (pointerType e); leaflet_cbn; rewrite ?Hd; leaflet_cbn;
    try (split; [assumption|reflexivity]).
  all: destruct (Leaflet.drawCandidate s) as [c|]; leaflet_cbn;
    try destruct (pointerId e =? cand_id c); leaflet_cbn;
    rewrite ?Hd; leaflet_cbn; split; (assumption || reflexivity).
Qed.

(** X20.  In the Leaflet script a drawing that a second finger
    interrupts leaves map dragging disabled: when a finger is drawing, with
    dragging disabled, and a touch makes two pointers, the drawing ends,
    and no sequence of [finishPointer] calls that follows enables dragging
    again. *)
Theorem Leaflet_interrupted_draw_leaves_dragging_off :
  forall e w ups s,
    Leaflet.isPathDrawing s = true ->
    Leaflet.dragging s = false ->
    pointerType e = touch ->
    pointers_size (pointers_set (pointerId e) touch (Leaflet.pointers s)) = 2 ->
    let s' :=
      fold_left (fun acc u => Leaflet.finishPointer u acc) ups
        (Leaflet.onPointerDown e w s) in
    Leaflet.isPathDrawing s' = false /\ Leaflet.dragging s' = false.
Proof.
  intros e w ups s Hd Hg Ht Hsize s'. subst s'.
  assert (H0 : Leaflet.isPathDrawing (Leaflet.onPointerDown e w s) = false /\
               Leaflet.dragging (Leaflet.onPointerDown e w s) = false).
  { unfold Leaflet.onPointerDown, Leaflet.cancelTouchCandidate,
      Leaflet.endPath.
    rewrite Ht. cbv zeta. leaflet_cbn. rewrite Hsize.
    change (2 =? 2) with true. leaflet_cbn. rewrite Hd. leaflet_cbn.
    split; [reflexivity|assumption]. }
  generalize dependent (Leaflet.onPointerDown e w s). clear.
  induction ups as [|u ups IH]; intros s1 [H1 H2]; [split; assumption|].
  cbn [fold_left]. apply IH.
  destruct (finishPointer_idle u s1 H1) as [F1 F2].
  split; [exact F1|]. rewrite F2. exact H2.
Qed.

Lemma Leaflet_interrupted_draw_leaves_dragging_off_witness :
  let s :=
    Leaflet.onDrawTimer (mkPoint 100 100)
      (Leaflet.onPointerDown (touch_at 2 4 54) (mkPoint 100 100)
         Leaflet.declared) in
  Leaflet.pathTiles s = [mkTile 3 3] /\
  Leaflet.dragging s = false /\
  Leaflet.dragging
    (fold_left (fun acc u => Leaflet.finishPointer u acc)
       [touch_at 2 4 54; touch_at 3 200 200]
       (Leaflet.onPointerDown (touch_at 3 200 200) (mkPoint 400 400) s))
  = false.
Proof.
  cbv zeta.
  set (s := Leaflet.onDrawTimer (mkPoint 100 100)
              (Leaflet.onPointerDown (touch_at 2 4 54) (mkPoint 100 100)
                 Leaflet.declared)).
  assert (Hd : Leaflet.isPathDrawing s = true) by (vm_compute; reflexivity).
  assert (Hg : Leaflet.dragging s = false) by (vm_compute; reflexivity).
  assert (Hsize : pointers_size
                    (pointers_set (pointerId (touch_at 3 200 200)) touch
                       (Leaflet.pointers s)) = 2)
    by (vm_compute; reflexivity).
  split; [vm_compute; reflexivity|]. split; [exact Hg|].
  exact (proj2 (Leaflet_interrupted_draw_leaves_dragging_off
                  (touch_at 3 200 200) (mkPoint 400 400)
                  [touch_at 2 4 54; touch_at 3 200 200] s Hd Hg eq_refl
                  Hsize)).
Defined.

Lemma Leaflet_extendPathTo_active target last s :
  Leaflet.lastTile s = Some last ->
  Leaflet.lastTile (Leaflet.extendPathTo target s) = Some target /\
  exists ts ds,
    Leaflet.pathTiles (Leaflet.extendPathTo target s)
      = Leaflet.pathTiles s ++ ts /\
    Leaflet.pathDirections (Leaflet.extendPathTo target s)
      = Leaflet.pathDirections s ++ ds.
Proof.
  intros Hl. unfold Leaflet.extendPathTo. rewrite Hl. cbv zeta. leaflet_cbn.
  set (c := mkCursor (tx last) (ty last) (Leaflet.pathDirections s)
              (Leaflet.pathTiles s)).
  destruct (extend_loop_reaches target c) as [Hx Hy].
  destruct (extend_loop_appends target c) as (ts & ds & Ht & Hds & _).
  split.
  - rewrite Hx, Hy. destruct target; reflexivity.
  - exists ts, ds. split; assumption.
Qed.

Lemma pointers_set_has {V : Type} (id : Z) (v : V) (m : list (Z * V)) :
  pointers_has id (pointers_set id v m) = true.
Proof.
  induction m as [|[k u] rest IH]; cbn [pointers_set pointers_has].
  - rewrite Z.eqb_refl. reflexivity.
  - destruct (k =? id) eqn:E; cbn [pointers_has]; rewrite E; [reflexivity|].
    exact IH.
Qed.

(** X21.  In the Leaflet script a Ctrl+press of the mouse outside the
    image turns drawing on without clearing the path: the earlier path
    stays, and the next move of the mouse to a point of the image extends
    that earlier path from its last tile to the tile of the point. *)
Theorem Leaflet_ctrl_press_outside_resumes_old_path :
  forall (hypot : Q -> Q -> Q) e w m wm s last,
    pointerType e = mouse -> button e = 0 -> ctrlKey e = true ->
    Leaflet.withinImage2x (pt_x w) (pt_y w) = false ->
    Leaflet.lastTile s = Some last ->
    pointerType m = mouse -> pointerId m = pointerId e ->
    Leaflet.withinImage2x (pt_x wm) (pt_y wm) = true ->
    let s1 := Leaflet.onPointerDown e w s in
    let s2 := Leaflet.onPointerMove hypot m wm s1 in
    (Leaflet.isPathDrawing s1 = true /\
     Leaflet.pathTiles s1 = Leaflet.pathTiles s /\
     Leaflet.pathDirections s1 = Leaflet.pathDirections s /\
     Leaflet.lastTile s1 = Leaflet.lastTile s) /\
    Leaflet.lastTile s2
      = Some (Leaflet.world2xToTile1x (pt_x wm) (pt_y wm)) /\
    exists ts ds,
      Leaflet.pathTiles s2 = Leaflet.pathTiles s ++ ts /\
      Leaflet.pathDirections s2 = Leaflet.pathDirections s ++ ds.
Proof.
  intros hypot e w m wm s lastT He Hb Hc Hout Hl Hm Hid Hin s1 s2.
  assert (E1 : s1 = Leaflet.set_isPathDrawing true
                 (Leaflet.set_pointers
                    (pointers_set (pointerId e) mouse (Leaflet.pointers s))
                    s)).
  { subst s1. unfold Leaflet.onPointerDown. rewrite He, Hb, Hc. cbv zeta.
    rewrite startPathAtEvent_outside by exact Hout. reflexivity. }
  split; [rewrite E1; repeat split|].
  subst s2. rewrite E1. clear E1 s1.
  unfold Leaflet.onPointerMove. rewrite Hm, Hid. leaflet_cbn.
  rewrite pointers_set_has. leaflet_cbn.
  unfold Leaflet.movePathAtEvent. leaflet_cbn. rewrite Hin. leaflet_cbn.
  rewrite Hl.
  set (t := Leaflet.world2xToTile1x (pt_x wm) (pt_y wm)).
  set (s1 := Leaflet.set_isPathDrawing true _).
  assert (Hl1 : Leaflet.lastTile s1 = Some lastT) by exact Hl.
  destruct (negb (tx t =? tx lastT) || negb (ty t =? ty lastT)) eqn:E.
  - destruct (Leaflet_extendPathTo_active t lastT s1 Hl1)
      as (H1 & ts & ds & H2 & H3).
    split; [exact H1|]. exists ts, ds. split; assumption.
  - apply orb_false_elim in E. destruct E as [Ex Ey].
    apply negb_false_iff in Ex, Ey. apply Z.eqb_eq in Ex, Ey.
    split.
    + rewrite Hl1. f_equal. clearbody t. destruct t as [x1 y1].
      destruct lastT as [x2 y2]. cbn in Ex, Ey. congruence.
    + exists [], []. rewrite !app_nil_r. split; reflexivity.
Qed.

Lemma Leaflet_ctrl_press_outside_resumes_old_path_witness :
  let s :=
    Leaflet.finishPointer (mouse_at 4 54 true)
      (Leaflet.onPointerDown (mouse_at 4 54 true) (mkPoint 100 100)
         Leaflet.declared) in
  let s2 :=
    Leaflet.onPointerMove hypot_milli (mouse_at 9 9 false) (mkPoint 200 100)
      (Leaflet.onPointerDown (mouse_at 0 0 true) (mkPoint (-5) 10) s) in
  Leaflet.isPathDrawing s = false /\
  Leaflet.pathTiles s = [mkTile 3 3] /\
  Leaflet.lastTile s2 = Some (mkTile 6 3) /\
  Leaflet.pathTiles s2 = [mkTile 3 3; mkTile 4 3; mkTile 5 3; mkTile 6 3].
Proof.
  cbv zeta.
  set (s := Leaflet.finishPointer (mouse_at 4 54 true)
              (Leaflet.onPointerDown (mouse_at 4 54 true) (mkPoint 100 100)
                 Leaflet.declared)).
  assert (Hl : Leaflet.lastTile s = Some (mkTile 3 3))
    by (vm_compute; reflexivity).
  assert (Hout : Leaflet.withinImage2x (pt_x (mkPoint (-5) 10))
                   (pt_y (mkPoint (-5) 10)) = false)
    by (vm_compute; reflexivity).
  assert (Hin : Leaflet.withinImage2x (pt_x (mkPoint 200 100))
                  (pt_y (mkPoint 200 100)) = true)
    by (vm_compute; reflexivity).
  destruct (Leaflet_ctrl_press_outside_resumes_old_path hypot_milli
              (mouse_at 0 0 true) (mkPoint (-5) 10) (mouse_at 9 9 false)
              (mkPoint 200 100) s (mkTile 3 3) eq_refl eq_refl eq_refl Hout
              Hl eq_refl eq_refl Hin) as (_ & Hlast & _).
  split; [vm_compute; reflexivity|]. split; [vm_compute; reflexivity|].
  split; [rewrite Hlast; vm_compute; reflexivity|].
  vm_compute; reflexivity.
Defined.

(** ** The output text *)

Lemma join_directions_cons d ds :
  join_directions (d :: ds)
  = match ds with
    | [] => Dir_token d
    | _ :: _ => (Dir_token d ++ " " ++ join_directions ds)%string
    end.
Proof. destruct ds; reflexivity. Qed.

(** X22.  The output text determines the directions: two direction lists
    with the same joined text are equal. *)
Theorem join_directions_injective :
  forall ds1 ds2, join_directions ds1 = join_directions ds2 -> ds1 = ds2.
Proof.
  induction ds1 as [|d1 r1 IH]; intros ds2 H.
  - destruct ds2 as [|d2 r2]; [reflexivity|].
    rewrite join_directions_cons in H.
    destruct r2, d2; discriminate H.
  - destruct ds2 as [|d2 r2].
    + rewrite join_directions_cons in H. destruct r1, d1; discriminate H.
    + rewrite !join_directions_cons in H.
      assert (Hhd : d1 = d2 /\
                    (r1 = [] /\ r2 = [] \/
                     r1 <> [] /\ r2 <> [] /\
                     join_directions r1 = join_directions r2)).
      { destruct r1 as [|a1 r1], r2 as [|a2 r2];
          destruct d1, d2; cbn in H; try discriminate H;
          split; try reflexivity.
        all: try (left; split; reflexivity).
        all: right; split; [discriminate|]; split; [discriminate|];
          injection H as H; exact H. }
      destruct Hhd as [Hd [[E1 E2]|(_ & _ & E)]].
      * subst. reflexivity.
      * f_equal; [exact Hd|]. apply IH, E.
Qed.

Lemma join_directions_injective_witness :
  join_directions [Right; Down] = "right down"%string /\
  [Right; Down] = [Right; Down].
Proof.
  split; [reflexivity|].
  exact (join_directions_injective [Right; Down] [Right; Down] eq_refl).
Defined.

Lemma dirFromStep_injective dx dy dx' dy' d :
  dirFromStep dx dy = Some d -> dirFromStep dx' dy' = Some d ->
  dx = dx' /\ dy = dy'.
Proof.
  unfold dirFromStep. intros H H'.
  repeat match type of H with
         | context [if ?b then _ else _] => destruct b eqn:?
         end;
  repeat match type of H' with
         | context [if ?b then _ else _] => destruct b eqn:?
         end;
  try discriminate; bool_to_prop; try (split; lia);
  injection H as <-; discriminate H'.
Qed.

(** X26.  The directions determine the cells: two lists of cells that
    walk from the same tile along the same list of directions are
    equal. *)
Theorem directions_determine_tiles :
  forall ds from ts ts',
    walk from ts ds -> walk from ts' ds -> ts = ts'.
Proof.
  induction ds as [|d ds IH]; intros from ts ts' H H'.
  - destruct ts, ts'; cbn in H, H'; try contradiction. reflexivity.
  - destruct ts as [|t ts], ts' as [|t' ts']; cbn in H, H';
      try contradiction.
    destruct H as [Hd Hw], H' as [Hd' Hw'].
    destruct (dirFromStep_injective _ _ _ _ _ Hd Hd') as [Hx Hy].
    assert (E : t = t').
    { destruct t as [x y], t' as [x' y']. cbn [tx ty] in Hx, Hy.
      f_equal; lia. }
    subst t'. f_equal. exact (IH t ts ts' Hw Hw').
Qed.

Lemma directions_determine_tiles_witness :
  walk (mkTile 0 0) [mkTile 1 0; mkTile 1 1] [Right; Down] /\
  [mkTile 1 0; mkTile 1 1] = [mkTile 1 0; mkTile 1 1].
Proof.
  assert (H : walk (mkTile 0 0) [mkTile 1 0; mkTile 1 1] [Right; Down])
    by (cbn; repeat split).
  split; [exact H|].
  exact (directions_determine_tiles [Right; Down] (mkTile 0 0)
           [mkTile 1 0; mkTile 1 1] [mkTile 1 0; mkTile 1 1] H H).
Defined.

Local Open Scope Z_scope.

Lemma extends_path_same s s' :
  pathTiles s' = pathTiles s -> pathDirections s' = pathDirections s ->
  extends_path s s'.
Proof.
  intros Ht Hd. exists [], []. rewrite !app_nil_r.
  split; [exact Ht|]. split; [exact Hd|].
  destruct (lastTile s); [exact I|split; reflexivity].
Qed.

Lemma extendPathTo_extends target s : extends_path s (extendPathTo target s).
Proof.
  destruct (lastTile s) as [l|] eqn:Hl.
  - destruct (extendPathTo_active target l s Hl) as (Ht & Hd & _).
    destruct (extend_loop_appends target (entry_cursor l s))
      as (ts & ds & H1 & H2 & Hw & _).
    exists ts, ds. rewrite Ht, Hd, Hl. unfold entry_cursor in *.
    cbn [tiles dirs cx cy] in *. destruct l. repeat split; assumption.
  - rewrite (extendPathTo_inactive target s Hl).
    apply extends_path_same; reflexivity.
Qed.

Lemma movePathAtScreen_extends sx sy ptype ctrl s :
  extends_path s (movePathAtScreen sx sy ptype ctrl s).
Proof.
  unfold movePathAtScreen, endPath.
  destruct (negb (isPathDrawing s)); [apply extends_path_same; reflexivity|].
  cbv zeta.
  destruct (negb (withinImage s _ _));
    [apply extends_path_same; reflexivity|].
  set (t := worldToTile _ _).
  pose proof (extendPathTo_extends t s) as He.
  assert (Hs : extends_path s s) by (apply extends_path_same; reflexivity).
  destruct (PointerType_eqb ptype mouse && negb ctrl);
    destruct (lastTile s) as [l|] eqn:Hl;
    try destruct (negb (tx t =? tx l) || negb (ty t =? ty l));
    unfold extends_path in *; rewrite ?Hl in *;
    cbn [pathTiles pathDirections set_isPathDrawing]; assumption.
Qed.

Lemma pinchMove_extends dist s0 s :
  pathTiles s0 = pathTiles s -> pathDirections s0 = pathDirections s ->
  extends_path s (pinchMove dist s0).
Proof.
  intros Ht Hd. apply extends_path_same.
  - rewrite <- Ht. unfold pinchMove.
    destruct (getTwoPointers s0) as [[a b]|]; [|reflexivity].
    destruct (Qgtb _ _); reflexivity.
  - rewrite <- Hd. unfold pinchMove.
    destruct (getTwoPointers s0) as [[a b]|]; [|reflexivity].
    destruct (Qgtb _ _); reflexivity.
Qed.




(** X25.  Releasing a pointer never changes the path or the view: in
    both scripts of script.js [onPointerUp] leaves cells, directions, last
    tile, output, scale, pan and zoom mode as they are, and in the Leaflet
    script [finishPointer] leaves cells, directions, last tile and output
    as they are. *)
Theorem pointer_release_keeps_path_and_view :
  forall e,
    (forall s,
       let s' := Gated.onPointerUp e s in
       (pathTiles s' = pathTiles s /\ pathDirections s' = pathDirections s /\
        lastTile s' = lastTile s /\ cmdOutput s' = cmdOutput s) /\
       (scale s' = scale s /\ panX s' = panX s /\ panY s' = panY s /\
        zoomMode s' = zoomMode s)) /\
    (forall s,
       let s' := Direct.onPointerUp e s in
       (pathTiles s' = pathTiles s /\ pathDirections s' = pathDirections s /\
        lastTile s' = lastTile s /\ cmdOutput s' = cmdOutput s) /\
       (scale s' = scale s /\ panX s' = panX s /\ panY s' = panY s /\
        zoomMode s' = zoomMode s)) /\
    (forall s,
       let s' := Leaflet.finishPointer e s in
       Leaflet.pathTiles s' = Leaflet.pathTiles s /\
       Leaflet.pathDirections s' = Leaflet.pathDirections s /\
       Leaflet.lastTile s' = Leaflet.lastTile s /\
       Leaflet.cmdOutput s' = Leaflet.cmdOutput s).
Proof.
  intros e. split; [|split]; intros s s'; subst s'.
  - unfold Gated.onPointerUp, Gated.cancelTouchCandidate, endPath.
    cbv zeta. repeat (split_ifs; step_cbn); repeat split.
  - unfold Direct.onPointerUp, endPath.
    cbv zeta. repeat (split_ifs; step_cbn); repeat split.
  - unfold Leaflet.finishPointer, Leaflet.cancelTouchCandidate,
      Leaflet.endPath.
    cbv zeta. repeat (split_ifs; cbn -[Z.eqb]); repeat split.
Qed.
